(** * NoteBook: the search service (services/searchService.js)

    A shallow embedding of [SearchService] and of the two collaborators it
    calls ([markdownService.extractPlainText], [noteService.getAllNotes]),
    followed by the properties the specification states about them.

    Conventions of the embedding.
    - A JavaScript string is a [string]: a sequence of code units, here the
      code units below 256 read as Latin-1.  [toLowerCase], the classes [\s]
      and [\w] and [trim] are written out for that range, on which they are
      closed.
    - Identifiers, scores, limits and time values are integers ([Z]).
    - A property that may be absent, [null] or [undefined] is an [option].
    - The [Map] that holds the index is an association list in insertion
      order; [Map.prototype.set] keeps the position of a key that is present.
    - [async] methods run to completion one after the other: a method is a
      function in a state and error monad over the service's fields and the
      Note Store's call counter.
    - The methods are embedded twice: over values (an index entry is a
      record), which is what most properties are about, and over object
      references ([Refs]), where a copy and a write to an existing object
      differ.  [Refinement] shows that the two agree. *)

From Stdlib Require Import List String Ascii ZArith Bool Lia Arith.
From Stdlib Require Import Permutation Sorted.
Import ListNotations.
Local Open Scope string_scope.
Local Open Scope Z_scope.

Set Implicit Arguments.

(* ------------------------------------------------------------------ *)
(** ** JavaScript strings *)

Module JsString.

Definition code (c : ascii) : N := N_of_ascii c.

Definition between (lo hi : N) (c : ascii) : bool :=
  (N.leb lo (code c) && N.leb (code c) hi)%bool.

(** [\s]: TAB, LF, VT, FF, CR, SP and NBSP below 256. *)
Definition is_space (c : ascii) : bool :=
  (between 9 13 c || N.eqb (code c) 32 || N.eqb (code c) 160)%bool.

(** [\d] and [\w]. *)
Definition is_digit (c : ascii) : bool := between 48 57 c.

Definition is_word (c : ascii) : bool :=
  (between 65 90 c || between 97 122 c || is_digit c
   || N.eqb (code c) 95)%bool.

(** [String.prototype.toLowerCase] on one code unit: A-Z, and the Latin-1
    capitals U+00C0..U+00DE without the multiplication sign U+00D7. *)
Definition lower_char (c : ascii) : ascii :=
  if (between 65 90 c
      || (between 192 222 c && negb (N.eqb (code c) 215)))%bool
  then ascii_of_N (code c + 32)
  else c.

Fixpoint toLowerCase (s : string) : string :=
  match s with
  | EmptyString => EmptyString
  | String c s' => String (lower_char c) (toLowerCase s')
  end.

(** [s.length]. *)
Definition len (s : string) : Z := Z.of_nat (String.length s).

Definition is_empty (s : string) : bool :=
  match s with EmptyString => true | _ => false end.

(** [t] starts [s]. *)
Fixpoint starts_with (t s : string) : bool :=
  match t, s with
  | EmptyString, _ => true
  | String a t', String b s' => (Ascii.eqb a b && starts_with t' s')%bool
  | String _ _, EmptyString => false
  end.

(** [s.includes(t)]. *)
Fixpoint includes (s t : string) : bool :=
  (starts_with t s
   || match s with
      | EmptyString => false
      | String _ s' => includes s' t
      end)%bool.

(** [s.split(/\s+/)].  The head of the result is the piece being read;
    [in_run] tells that the separator run in progress has already closed
    the previous piece.  The empty string gives one empty piece, and a run
    at either end gives an empty piece there. *)
Fixpoint split_from (in_run : bool) (s : string) : list string :=
  match s with
  | EmptyString => [EmptyString]
  | String c s' =>
      if is_space c then
        if in_run then split_from true s'
        else EmptyString :: split_from true s'
      else
        match split_from false s' with
        | piece :: pieces => String c piece :: pieces
        | [] => [String c EmptyString]
        end
  end.

Definition split_ws (s : string) : list string := split_from false s.

(** [s.replace(/[^\w]/g, '')]. *)
Fixpoint strip_non_word (s : string) : string :=
  match s with
  | EmptyString => EmptyString
  | String c s' =>
      if is_word c then String c (strip_non_word s') else strip_non_word s'
  end.

(** [parts.join(' ')]. *)
Definition join_space (parts : list string) : string :=
  String.concat " " parts.

(** [s.trim()]. *)
Fixpoint trim_start (s : string) : string :=
  match s with
  | EmptyString => EmptyString
  | String c s' => if is_space c then trim_start s' else s
  end.

Fixpoint trim_end (s : string) : string :=
  match s with
  | EmptyString => EmptyString
  | String c s' =>
      let r := trim_end s' in
      if (is_space c && is_empty r)%bool then EmptyString else String c r
  end.

Definition trim (s : string) : string := trim_end (trim_start s).

End JsString.
Import JsString.

(* ------------------------------------------------------------------ *)
(** ** The regular expressions of [extractPlainText]

    Every pattern of [markdownService.extractPlainText] is a sequence of
    quantified character classes, line anchors (flag [m]) and one capture
    group.  [run] is the backtracking matcher for such sequences and
    [replace_all] is [String.prototype.replace] with a global pattern. *)

Module Regex.

Inductive atom : Type :=
| Rep (lazy : bool) (lo : nat) (hi : option nat) (cls : ascii -> bool)
| Bol
| Eol
| Open
| Close.

Inductive replacement : Type :=
| Lit (s : string)
| Group1.

Definition line_terminator (c : ascii) : bool :=
  (N.eqb (code c) 10 || N.eqb (code c) 13)%bool.

Definition at_line_start (prev : option ascii) : bool :=
  match prev with None => true | Some c => line_terminator c end.

Definition at_line_end (s : string) : bool :=
  match s with EmptyString => true | String c _ => line_terminator c end.

Definition may_repeat (hi : option nat) (k : nat) : bool :=
  match hi with None => true | Some h => Nat.ltb k h end.

(** [run p prev s pos g]: match [p] against [s], which starts [pos] code
    units after the start of the attempt and is preceded by [prev]; [g]
    holds the offsets of group 1.  The result is the offset of the end of
    the match and the group.  A greedy quantifier takes one more code unit
    before it lets the rest of the pattern try; a lazy one the other way
    round. *)
Fixpoint run (p : list atom) (prev : option ascii) (s : string) (pos : nat)
    (g : nat * nat) {struct p} : option (nat * (nat * nat)) :=
  match p with
  | [] => Some (pos, g)
  | Bol :: p' => if at_line_start prev then run p' prev s pos g else None
  | Eol :: p' => if at_line_end s then run p' prev s pos g else None
  | Open :: p' => run p' prev s pos (pos, snd g)
  | Close :: p' => run p' prev s pos (fst g, pos)
  | Rep lazy lo hi cls :: p' =>
      (fix rep (k : nat) (prev : option ascii) (s : string) (pos : nat)
           {struct s} : option (nat * (nat * nat)) :=
         if lazy then
           match (if Nat.leb lo k then run p' prev s pos g else None) with
           | Some r => Some r
           | None =>
               match s with
               | String c s' =>
                   if (cls c && may_repeat hi k)%bool
                   then rep (S k) (Some c) s' (S pos) else None
               | EmptyString => None
               end
           end
         else
           match
             match s with
             | String c s' =>
                 if (cls c && may_repeat hi k)%bool
                 then rep (S k) (Some c) s' (S pos) else None
             | EmptyString => None
             end
           with
           | Some r => Some r
           | None => if Nat.leb lo k then run p' prev s pos g else None
           end) O prev s pos
  end.

Definition expand (r : replacement) (s : string) (g : nat * nat) : string :=
  match r with
  | Lit t => t
  | Group1 => substring (fst g) (snd g - fst g) s
  end.

(** [skip] code units of the last match are still to be passed over. *)
Fixpoint scan (p : list atom) (r : replacement) (skip : nat)
    (prev : option ascii) (s : string) {struct s} : string :=
  match s with
  | EmptyString =>
      match run p prev s 0 (0, 0)%nat with
      | Some (_, g) => expand r s g
      | None => EmptyString
      end
  | String c s' =>
      match skip with
      | S k => scan p r k (Some c) s'
      | O =>
          match run p prev s 0 (0, 0)%nat with
          | Some (S n, g) => expand r s g ++ scan p r n (Some c) s'
          | Some (O, g) => expand r s g ++ String c (scan p r 0 (Some c) s')
          | None => String c (scan p r 0 (Some c) s')
          end
      end
  end.

Definition replace_all (p : list atom) (r : replacement) (s : string)
  : string :=
  scan p r 0 None s.

Definition chr (c : ascii) : atom := Rep false 1 (Some 1%nat) (Ascii.eqb c).
Definition one_of (cls : ascii -> bool) : atom := Rep false 1 (Some 1%nat) cls.
Definition star (cls : ascii -> bool) : atom := Rep false 0 None cls.
Definition plus (cls : ascii -> bool) : atom := Rep false 1 None cls.
Definition upto (lo hi : nat) (cls : ascii -> bool) : atom :=
  Rep false lo (Some hi) cls.
Definition lazy_star (cls : ascii -> bool) : atom := Rep true 0 None cls.
Definition other_than (c : ascii) (x : ascii) : bool := negb (Ascii.eqb c x).
Definition any (_ : ascii) : bool := true.

End Regex.

Module MarkdownService.
Import Regex.

Definition backtick : ascii := "`"%char.
Definition newline : ascii := "010"%char.
Definition emphasis_mark (c : ascii) : bool :=
  (Ascii.eqb c "*" || Ascii.eqb c "_")%bool.
Definition list_mark (c : ascii) : bool :=
  (Ascii.eqb c "-" || Ascii.eqb c "*" || Ascii.eqb c "+")%bool.

(** Fenced code: three backticks, the shortest run of any code units, three backticks. *)
Definition fenced_code : list atom :=
  [chr backtick; chr backtick; chr backtick; lazy_star any;
   chr backtick; chr backtick; chr backtick].
(** Inline code: a backtick, code units other than a backtick, a backtick. *)
Definition inline_code : list atom :=
  [chr backtick; star (other_than backtick); chr backtick].
(** A link: a bracketed text (group 1) followed by a parenthesised target. *)
Definition link : list atom :=
  [chr "["; Open; star (other_than "]"); Close; chr "]";
   chr "("; star (other_than ")"); chr ")"].
(** An image: an exclamation mark and a link. *)
Definition image : list atom := chr "!" :: link.
(** A header: at a line start, one to six hashes and a run of white space. *)
Definition header : list atom :=
  [Bol; upto 1 6 (Ascii.eqb "#"); plus is_space].
(** Emphasis: one or two marks, code units that are no mark (group 1), one or two marks. *)
Definition emphasis : list atom :=
  [upto 1 2 emphasis_mark; Open;
   star (fun c => negb (emphasis_mark c)); Close; upto 1 2 emphasis_mark].
(** Strikethrough: two tildes, code units other than a tilde (group 1), two tildes. *)
Definition strikethrough : list atom :=
  [chr "~"; chr "~"; Open; star (other_than "~"); Close; chr "~"; chr "~"].
(** A horizontal rule: a whole line of three or more dashes. *)
Definition horizontal_rule : list atom :=
  [Bol; chr "-"; chr "-"; plus (Ascii.eqb "-"); Eol].
(** A bullet: at a line start, white space, one of - * +, a run of white space. *)
Definition bullet : list atom :=
  [Bol; star is_space; one_of list_mark; plus is_space].
(** A numbered item: at a line start, white space, digits, a dot, a run of white space. *)
Definition numbered : list atom :=
  [Bol; star is_space; plus is_digit; chr "."; plus is_space].
(** Blank lines: a line feed, white space, a line feed. *)
Definition blank_lines : list atom :=
  [chr newline; star is_space; chr newline].

(** [extractPlainText(markdown)] for a string argument.  The guard returns
    [''] for the empty string; no step of the chain throws. *)
Definition extractPlainText (markdown : string) : string :=
  if is_empty markdown then EmptyString
  else
    let s := replace_all fenced_code (Lit EmptyString) markdown in
    let s := replace_all inline_code (Lit EmptyString) s in
    let s := replace_all link Group1 s in
    let s := replace_all image Group1 s in
    let s := replace_all header (Lit EmptyString) s in
    let s := replace_all emphasis Group1 s in
    let s := replace_all strikethrough Group1 s in
    let s := replace_all horizontal_rule (Lit EmptyString) s in
    let s := replace_all bullet (Lit EmptyString) s in
    let s := replace_all numbered (Lit EmptyString) s in
    let s := replace_all blank_lines (Lit (String newline EmptyString)) s in
    trim s.

End MarkdownService.


(* ------------------------------------------------------------------ *)
(** ** Data model *)

Record Tag : Type := { tag_id : Z; name : string }.

(** A note as [noteService.getAllNotes] returns it. *)
Record Note : Type := {
  id : Z;
  title : option string;
  content : option string;
  category_id : option Z;
  category_name : option string;
  tags : option (list Tag);
  is_favorite : bool;
  updated_at : string
}.

(** [{...note, searchableContent, searchTerms}]. *)
Record IndexEntry : Type := {
  note : Note;
  searchableContent : string;
  searchTerms : list string
}.

(** An element of the array [search] works on: an index entry, and the
    [score] property once [filterByQuery] has copied it. *)
Record Hit : Type := {
  entry : IndexEntry;
  score : option Z
}.

Record DateRange : Type := {
  range_start : option string;
  range_end : option string
}.

(** The options of [search] after destructuring. *)
Record SearchOptions : Type := {
  categoryId : option Z;
  tagIds : list Z;
  isFavorite : option bool;
  dateRange : option DateRange;
  sortBy : string;
  limit : Z
}.

(** [options = {}]: every default of the destructuring pattern. *)
Definition default_options : SearchOptions :=
  {| categoryId := None; tagIds := []; isFavorite := None;
     dateRange := None; sortBy := "relevance"; limit := 50 |}.

(** What [search] returns: the array of the Note Store itself, or an array
    of hits taken from the index. *)
Inductive SearchOutput : Type :=
| PassThrough (notes : list Note)
| Results (hits : list Hit).

(** The built-ins whose result depends on the engine and its locale:
    the time value of [new Date(s)] ([None] for an Invalid Date) and the
    sign of [a.localeCompare(b)]. *)
Class Engine : Type := {
  date_value : string -> option Z;
  locale_compare : string -> string -> Z
}.

(** [x || ''] and the truth value of a string or an identifier. *)
Definition or_empty (x : option string) : string :=
  match x with Some s => s | None => EmptyString end.

Definition truthy (x : option string) : bool :=
  match x with Some s => negb (is_empty s) | None => false end.

Definition truthy_id (x : option Z) : bool :=
  match x with Some n => negb (n =? 0) | None => false end.

(* ------------------------------------------------------------------ *)
(** ** Arrays and maps *)

Section Containers.
Variable A : Type.

(** [Array.prototype.sort(cmp)] is stable.  For a consistent comparator its
    result is determined, and it is the one of this insertion sort
    ([sort_by_unique] below); for another comparator the standard leaves the
    order to the engine, and this is one such order, not the one of every
    engine: what is proved about the order of the hits assumes a consistent
    comparator ([sort_is_determined]).  An element goes before the first
    later element that the comparator does not put before it. *)
Fixpoint insert_by (cmp : A -> A -> Z) (x : A) (l : list A) : list A :=
  match l with
  | [] => [x]
  | y :: l' => if cmp x y <=? 0 then x :: l else y :: insert_by cmp x l'
  end.

Definition sort_by (cmp : A -> A -> Z) (l : list A) : list A :=
  fold_right (insert_by cmp) [] l.

(** [l.slice(0, limit)] for an integer [limit]. *)
Definition slice0 (l : list A) (limit : Z) : list A :=
  let n := Z.of_nat (List.length l) in
  let final := if limit <? 0 then Z.max (n + limit) 0 else Z.min limit n in
  firstn (Z.to_nat final) l.

(** [Map.prototype.set], [delete] and [values] on a map with integer keys. *)
Fixpoint map_set (k : Z) (v : A) (m : list (Z * A)) : list (Z * A) :=
  match m with
  | [] => [(k, v)]
  | (k', v') :: m' =>
      if k' =? k then (k, v) :: m' else (k', v') :: map_set k v m'
  end.

Definition map_delete (k : Z) (m : list (Z * A)) : list (Z * A) :=
  filter (fun kv => negb (fst kv =? k)) m.

Definition map_values (m : list (Z * A)) : list A := List.map snd m.
End Containers.

(** [Set.prototype.add] on a set of strings, in insertion order. *)
Definition set_add (x : string) (s : list string) : list string :=
  if existsb (String.eqb x) s then s else s ++ [x].

(* ------------------------------------------------------------------ *)
(** ** Indexing: [extractSearchableContent] and [generateSearchTerms] *)

Definition extractSearchableContent (n : Note) : string :=
  let title := or_empty (title n) in
  let content := MarkdownService.extractPlainText (or_empty (content n)) in
  let categoryName := or_empty (category_name n) in
  let tags :=
    match tags n with
    | Some ts => join_space (List.map name ts)
    | None => EmptyString
    end in
  toLowerCase (title ++ " " ++ content ++ " " ++ categoryName ++ " " ++ tags).

Definition generateSearchTerms (content : string) : list string :=
  filter (fun term => len term >? 0)
    (List.map strip_non_word
       (filter (fun term => len term >? 2) (split_ws content))).

(** The object stored under [note.id] by [buildSearchIndex] and
    [updateNoteInIndex]. *)
Definition index_entry (n : Note) : IndexEntry :=
  let searchableContent := extractSearchableContent n in
  {| note := n;
     searchableContent := searchableContent;
     searchTerms := generateSearchTerms searchableContent |}.

(* ------------------------------------------------------------------ *)
(** ** State, exceptions and the Note Store *)

(** The answer of one call of [noteService.getAllNotes]: the corpus, or a
    rejected promise. *)
Inductive Fetch : Type :=
| Listed (notes : list Note)
| Failed.

Inductive Error : Type := CorpusFetchError.

Inductive Res (A : Type) : Type :=
| Ok (a : A)
| Thrown (e : Error).
Arguments Thrown {A} e.

(** A method: a function of the state that returns or throws. *)
Definition Eff (S A : Type) : Type := S -> Res A * S.

Definition ret {S A} (a : A) : Eff S A := fun st => (Ok a, st).

Definition bind {S A B} (m : Eff S A) (k : A -> Eff S B) : Eff S B :=
  fun st =>
    match m st with
    | (Ok a, st') => k a st'
    | (Thrown e, st') => (Thrown e, st')
    end.

(** [try { body } catch (error) { handler }]: what [body] wrote before it
    threw stays written. *)
Definition try_catch {S A} (body : Eff S A) (handler : Error -> Eff S A)
  : Eff S A :=
  fun st =>
    match body st with
    | (Ok a, st') => (Ok a, st')
    | (Thrown e, st') => handler e st'
    end.

Declare Scope js_scope.
Delimit Scope js_scope with js.
Notation "x <- m ;; k" := (bind m (fun x => k))
  (at level 100, m at next level, right associativity) : js_scope.
Notation "m ;; k" := (bind m (fun _ => k))
  (at level 100, right associativity) : js_scope.

(** [l.forEach(f)]. *)
Fixpoint for_each {S A} (l : list A) (f : A -> Eff S unit) : Eff S unit :=
  match l with
  | [] => ret tt
  | x :: l' => (f x ;; for_each l' f)%js
  end.

(** The two fields of the [SearchService] singleton, and the number of
    calls the Note Store has answered so far. *)
Record State : Type := {
  searchIndex : list (Z * IndexEntry);
  initialized : bool;
  calls : nat
}.

(** [new SearchService()] before any call. *)
Definition fresh : State :=
  {| searchIndex := []; initialized := false; calls := 0 |}.

Definition M : Type -> Type := Eff State.

Definition get_index : M (list (Z * IndexEntry)) :=
  fun st => (Ok (searchIndex st), st).

Definition put_index (m : list (Z * IndexEntry)) : M unit :=
  fun st =>
    (Ok tt, {| searchIndex := m; initialized := initialized st;
               calls := calls st |}).

Definition get_initialized : M bool :=
  fun st => (Ok (initialized st), st).

Definition put_initialized (b : bool) : M unit :=
  fun st =>
    (Ok tt, {| searchIndex := searchIndex st; initialized := b;
               calls := calls st |}).

(** [this.searchIndex.set(key, value)]. *)
Definition index_set (key : Z) (value : IndexEntry) : M unit :=
  (m <- get_index ;; put_index (map_set key value m))%js.

(* ------------------------------------------------------------------ *)
(** ** Scoring and filtering *)

Definition array_length {A} (l : list A) : Z := Z.of_nat (List.length l).

(** The callback of [queryTerms.forEach] in [calculateRelevanceScore]:
    what it does to the variable [score] for one term. *)
Definition add_term (e : IndexEntry) (score : Z) (term : string) : Z :=
  let title := toLowerCase (or_empty (title (note e))) in
  let content := searchableContent e in
  let score := if includes title term then score + 10 else score in
  let score := if includes content term then score + 5 else score in
  let fuzzyMatches :=
    filter
      (fun searchTerm =>
         (includes searchTerm term || includes term searchTerm)%bool)
      (searchTerms e) in
  let score := score + array_length fuzzyMatches * 2 in
  let score :=
    if (truthy (category_name (note e))
        && includes (toLowerCase (or_empty (category_name (note e)))) term)%bool
    then score + 3 else score in
  match tags (note e) with
  | Some ts =>
      fold_left
        (fun score tag =>
           if includes (toLowerCase (name tag)) term
           then score + 3 else score)
        ts score
  | None => score
  end.

Definition calculateRelevanceScore (e : IndexEntry) (queryTerms : list string)
  : Z :=
  fold_left (add_term e) queryTerms 0.

(** [b - a] as a comparator result: a [NaN] counts as [+0]. *)
Definition minus_or_zero (b a : option Z) : Z :=
  match b, a with
  | Some y, Some x => y - x
  | _, _ => 0
  end.

Definition by_score (a b : Hit) : Z := minus_or_zero (score b) (score a).

Definition score_positive (h : Hit) : bool :=
  match score h with Some s => s >? 0 | None => false end.

Definition queryTerms_of (query : string) : list string :=
  filter (fun term => len term >? 0) (split_ws (toLowerCase query)).

(** [a === b] on identifiers that may be [null]. *)
Definition strict_eq_id (a b : option Z) : bool :=
  match a, b with
  | Some x, Some y => x =? y
  | None, None => true
  | _, _ => false
  end.

(** The callbacks of the category, tag and favorite filters of [search]. *)
Definition in_category (categoryId : option Z) (h : Hit) : bool :=
  strict_eq_id (category_id (note (entry h))) categoryId.

Definition has_tag_in (wanted : list Z) (h : Hit) : bool :=
  match tags (note (entry h)) with
  | Some ts => existsb (fun tag => existsb (Z.eqb (tag_id tag)) wanted) ts
  | None => false
  end.

Definition favorite_is (isFavorite : bool) (h : Hit) : bool :=
  Bool.eqb (is_favorite (note (entry h))) isFavorite.

(** [{...note, score: calculateRelevanceScore(note, queryTerms)}]. *)
Definition with_score (queryTerms : list string) (h : Hit) : Hit :=
  {| entry := entry h;
     score := Some (calculateRelevanceScore (entry h) queryTerms) |}.

Definition filterByQuery (notes : list Hit) (query : string) : list Hit :=
  let queryTerms := queryTerms_of query in
  sort_by by_score
    (filter score_positive (List.map (with_score queryTerms) notes)).

(** [Array.from(this.searchIndex.values())]: the objects of the index,
    which carry no score. *)
Definition unscored (entries : list IndexEntry) : list Hit :=
  List.map (fun e => {| entry := e; score := None |}) entries.

Section WithEngine.
Context {engine : Engine}.

(** [new Date(x)]: its time value; [new Date(undefined)] is invalid. *)
Definition new_Date (x : option string) : option Z :=
  match x with Some s => date_value s | None => None end.

(** [a >= b] and [a <= b] on dates: false when either is invalid. *)
Definition date_ge (a b : option Z) : bool :=
  match a, b with Some x, Some y => y <=? x | _, _ => false end.

Definition date_le (a b : option Z) : bool :=
  match a, b with Some x, Some y => x <=? y | _, _ => false end.

Definition updated (h : Hit) : option Z :=
  new_Date (Some (updated_at (note (entry h)))).

(** The callback of [filterByDateRange]. *)
Definition in_range (r : DateRange) (h : Hit) : bool :=
  let startDate := new_Date (range_start r) in
  let endDate := new_Date (range_end r) in
  let noteDate := updated h in
  (date_ge noteDate startDate && date_le noteDate endDate)%bool.

Definition filterByDateRange (notes : list Hit) (r : DateRange) : list Hit :=
  filter (in_range r) notes.

Definition by_date (a b : Hit) : Z := minus_or_zero (updated b) (updated a).

Definition hit_title (h : Hit) : string := or_empty (title (note (entry h))).

Definition by_title (a b : Hit) : Z :=
  locale_compare (hit_title a) (hit_title b).

Definition head_has_score (results : list Hit) : bool :=
  match results with
  | h :: _ => match score h with Some _ => true | None => false end
  | [] => false
  end.

Definition sortResults (results : list Hit) (sortBy : string)
    (query : option string) : list Hit :=
  if String.eqb sortBy "date" then sort_by by_date results
  else if String.eqb sortBy "title" then sort_by by_title results
  else if (truthy query && head_has_score results)%bool
       then sort_by by_score results
       else sort_by by_date results.

(** Lines 81 to 97 of [search]: the category, tag, favorite and date
    filters, each applied when its option is set. *)
Definition criteria (o : SearchOptions) (results : list Hit) : list Hit :=
  let results :=
    if truthy_id (categoryId o)
    then filter (in_category (categoryId o)) results
    else results in
  let results :=
    if 0 <? array_length (tagIds o)
    then filter (has_tag_in (tagIds o)) results
    else results in
  let results :=
    match isFavorite o with
    | Some b => filter (favorite_is b) results
    | None => results
    end in
  match dateRange o with
  | Some r => filterByDateRange results r
  | None => results
  end.

(** The stages of [search] from the read of the index to the sort. *)
Definition ranked (query : option string) (o : SearchOptions)
    (entries : list IndexEntry) : list Hit :=
  let results := unscored entries in
  let results :=
    if truthy query then filterByQuery results (or_empty query)
    else results in
  let results := criteria o results in
  sortResults results (sortBy o) query.

(** The indexed path of [search]: every stage and the limit. *)
Definition pipeline (query : option string) (o : SearchOptions)
    (entries : list IndexEntry) : list Hit :=
  slice0 (ranked query o entries) (limit o).

(** The guard of the pass-through path, line 70. *)
Definition no_criteria (query : option string) (o : SearchOptions) : bool :=
  (negb (truthy query) && negb (truthy_id (categoryId o))
   && (array_length (tagIds o) =? 0)
   && match isFavorite o with None => true | Some _ => false end)%bool.

Section WithStore.
Variable store : nat -> Fetch.

(** [await noteService.getAllNotes()]. *)
Definition getAllNotes : M (list Note) :=
  fun st =>
    let st' := {| searchIndex := searchIndex st;
                  initialized := initialized st;
                  calls := S (calls st) |} in
    match store (calls st) with
    | Listed notes => (Ok notes, st')
    | Failed => (Thrown CorpusFetchError, st')
    end.

Definition buildSearchIndex : M unit :=
  try_catch
    (notes <- getAllNotes ;;
     put_index [] ;;
     for_each notes (fun n => index_set (id n) (index_entry n)))%js
    (fun _ => ret tt).

Definition initialize : M unit :=
  (ready <- get_initialized ;;
   if negb ready
   then (buildSearchIndex ;; put_initialized true)
   else ret tt)%js.

Definition search (query : option string) (o : SearchOptions)
  : M SearchOutput :=
  (initialize ;;
   if no_criteria query o
   then (notes <- getAllNotes ;; ret (PassThrough notes))
   else (m <- get_index ;;
         ret (Results (pipeline query o (map_values m)))))%js.

Definition title_pass (q : string) (suggestions : list string)
    (e : IndexEntry) : list string :=
  let title := or_empty (title (note e)) in
  if includes (toLowerCase title) q then set_add title suggestions
  else suggestions.

Definition tag_pass (q : string) (suggestions : list string)
    (e : IndexEntry) : list string :=
  match tags (note e) with
  | Some ts =>
      fold_left
        (fun acc tag =>
           if includes (toLowerCase (name tag)) q
           then set_add (name tag) acc else acc)
        ts suggestions
  | None => suggestions
  end.

Definition category_pass (q : string) (suggestions : list string)
    (e : IndexEntry) : list string :=
  if (truthy (category_name (note e))
      && includes (toLowerCase (or_empty (category_name (note e)))) q)%bool
  then set_add (or_empty (category_name (note e))) suggestions
  else suggestions.

Definition suggestions_of (q : string) (entries : list IndexEntry)
  : list string :=
  let s := fold_left (title_pass q) entries [] in
  let s := fold_left (tag_pass q) entries s in
  fold_left (category_pass q) entries s.

(** [limit = 5] when the caller passes none. *)
Definition getSearchSuggestions (query : option string)
    (limit : option Z) : M (list string) :=
  let limit := match limit with Some k => k | None => 5 end in
  (initialize ;;
   if (negb (truthy query) || (len (or_empty query) <? 2))%bool
   then ret []
   else (m <- get_index ;;
         let queryLower := toLowerCase (or_empty query) in
         ret (slice0 (suggestions_of queryLower (map_values m)) limit)))%js.

Definition updateNoteInIndex (n : Note) : M unit :=
  (ready <- get_initialized ;;
   if negb ready then ret tt
   else index_set (id n) (index_entry n))%js.

Definition removeNoteFromIndex (noteId : Z) : M unit :=
  (m <- get_index ;; put_index (map_delete noteId m))%js.

Definition rebuildIndex : M unit :=
  (put_initialized false ;; initialize)%js.

End WithStore.
End WithEngine.

(* ------------------------------------------------------------------ *)
(** ** The same methods over object references

    In [State] an index entry is a value.  The service, however, holds
    objects: the values of the [Map] are references, [Array.from] and
    [filter] copy references, and only [{...note, score}] makes a new object.
    [Refs] repeats [search] with a heap of objects, so that what a call
    writes, and where, can be stated. *)

Module Refs.

Definition ref : Type := nat.

Record Store : Type := {
  heap : list Hit;
  index : list (Z * ref);
  ready : bool;
  asked : nat
}.

(** What a reference to no object reads. *)
Definition blank : Hit :=
  {| entry :=
       {| note := {| id := 0; title := None; content := None;
                     category_id := None; category_name := None;
                     tags := None; is_favorite := false;
                     updated_at := EmptyString |};
          searchableContent := EmptyString;
          searchTerms := [] |};
     score := None |}.

Definition deref (hp : list Hit) (r : ref) : Hit := nth r hp blank.

(** A new object: the heap grows at its end. *)
Definition alloc (o : Hit) : Eff Store ref :=
  fun st =>
    (Ok (List.length (heap st)),
     {| heap := heap st ++ [o]; index := index st; ready := ready st;
        asked := asked st |}).

Definition read (r : ref) : Eff Store Hit :=
  fun st => (Ok (deref (heap st) r), st).

Definition get_heap : Eff Store (list Hit) :=
  fun st => (Ok (heap st), st).

Definition get_index : Eff Store (list (Z * ref)) :=
  fun st => (Ok (index st), st).

Definition put_index (m : list (Z * ref)) : Eff Store unit :=
  fun st =>
    (Ok tt, {| heap := heap st; index := m; ready := ready st;
               asked := asked st |}).

Definition get_ready : Eff Store bool :=
  fun st => (Ok (ready st), st).

Definition put_ready (b : bool) : Eff Store unit :=
  fun st =>
    (Ok tt, {| heap := heap st; index := index st; ready := b;
               asked := asked st |}).

Definition index_set (key : Z) (value : ref) : Eff Store unit :=
  (m <- get_index ;; put_index (map_set key value m))%js.

(** [l.map(f)] for a callback that allocates. *)
Fixpoint map_m {A B} (f : A -> Eff Store B) (l : list A)
  : Eff Store (list B) :=
  match l with
  | [] => ret []
  | x :: l' => (y <- f x ;; ys <- map_m f l' ;; ret (y :: ys))%js
  end.

(** A callback or a comparator of the service, applied to references. *)
Definition see {B} (hp : list Hit) (f : Hit -> B) (r : ref) : B :=
  f (deref hp r).

Definition see2 (hp : list Hit) (cmp : Hit -> Hit -> Z) (a b : ref) : Z :=
  cmp (deref hp a) (deref hp b).

Definition filterByQuery (notes : list ref) (query : string)
  : Eff Store (list ref) :=
  let queryTerms := queryTerms_of query in
  (copies <- map_m (fun r => o <- read r ;; alloc (with_score queryTerms o))
               notes ;;
   hp <- get_heap ;;
   ret (sort_by (see2 hp by_score) (filter (see hp score_positive) copies)))%js.

Section WithEngine.
Context {engine : Engine}.

Definition sortResults (hp : list Hit) (results : list ref)
    (sortBy : string) (query : option string) : list ref :=
  if String.eqb sortBy "date" then sort_by (see2 hp by_date) results
  else if String.eqb sortBy "title" then sort_by (see2 hp by_title) results
  else if (truthy query && head_has_score (List.map (deref hp) (firstn 1 results)))%bool
       then sort_by (see2 hp by_score) results
       else sort_by (see2 hp by_date) results.

Definition criteria (hp : list Hit) (o : SearchOptions)
    (results : list ref) : list ref :=
  let results :=
    if truthy_id (categoryId o)
    then filter (see hp (in_category (categoryId o))) results
    else results in
  let results :=
    if 0 <? array_length (tagIds o)
    then filter (see hp (has_tag_in (tagIds o))) results
    else results in
  let results :=
    match isFavorite o with
    | Some b => filter (see hp (favorite_is b)) results
    | None => results
    end in
  match dateRange o with
  | Some r => filter (see hp (in_range r)) results
  | None => results
  end.

Definition pipeline (query : option string) (o : SearchOptions)
    (values : list ref) : Eff Store (list ref) :=
  (results <- (if truthy query
               then filterByQuery values (or_empty query)
               else ret values) ;;
   hp <- get_heap ;;
   let results := criteria hp o results in
   let results := sortResults hp results (sortBy o) query in
   ret (slice0 results (limit o)))%js.

Inductive Output : Type :=
| StoreArray (notes : list Note)
| IndexRefs (refs : list ref).

Section WithStore.
Variable store : nat -> Fetch.

Definition getAllNotes : Eff Store (list Note) :=
  fun st =>
    let st' := {| heap := heap st; index := index st;
                  ready := ready st; asked := S (asked st) |} in
    match store (asked st) with
    | Listed notes => (Ok notes, st')
    | Failed => (Thrown CorpusFetchError, st')
    end.

Definition buildSearchIndex : Eff Store unit :=
  try_catch
    (notes <- getAllNotes ;;
     put_index [] ;;
     for_each notes
       (fun n =>
          r <- alloc {| entry := index_entry n; score := None |} ;;
          index_set (id n) r))%js
    (fun _ => ret tt).

Definition initialize : Eff Store unit :=
  (is_ready <- get_ready ;;
   if negb is_ready
   then (buildSearchIndex ;; put_ready true)
   else ret tt)%js.

Definition search (query : option string) (o : SearchOptions)
  : Eff Store Output :=
  (initialize ;;
   if no_criteria query o
   then (notes <- getAllNotes ;; ret (StoreArray notes))
   else (m <- get_index ;;
         refs <- pipeline query o (map_values m) ;;
         ret (IndexRefs refs)))%js.
End WithStore.
End WithEngine.

(** [new SearchService()] before any call. *)
Definition empty : Store :=
  {| heap := []; index := []; ready := false; asked := 0 |}.

(** What a call may do to the objects that exist when it starts: nothing.
    The map and the flag are as before and the heap has only grown. *)
Definition untouched (st st' : Store) : Prop :=
  index st' = index st /\ ready st' = ready st /\ asked st' = asked st
  /\ exists copies, heap st' = (heap st ++ copies)%list.

(** The map holds references to objects of the heap, and none of them
    carries a score: what [buildSearchIndex] leaves. *)
Definition well_formed (st : Store) : Prop :=
  Forall
    (fun kr =>
       (snd kr < List.length (heap st))%nat
       /\ score (deref (heap st) (snd kr)) = None)
    (index st).

(** The state of values that a store of objects stands for. *)
Definition values_of (st : Store) : State :=
  {| searchIndex :=
       List.map (fun kr => (fst kr, entry (deref (heap st) (snd kr))))
         (index st);
     initialized := ready st;
     calls := asked st |}.

(** The array of objects that an array of references stands for. *)
Definition shown (hp : list Hit) (r : Res Output) : Res SearchOutput :=
  match r with
  | Ok (StoreArray notes) => Ok (PassThrough notes)
  | Ok (IndexRefs refs) => Ok (Results (List.map (deref hp) refs))
  | Thrown e => Thrown e
  end.

End Refs.

(* ------------------------------------------------------------------ *)
(** ** The specification's vocabulary *)

(** The tokens of a string, as the specification reads "split on
    whitespace runs": its maximal runs of code units that are no white
    space, left to right.  [cur] is the run being read. *)
Fixpoint words_from (cur : string) (s : string) : list string :=
  match s with
  | EmptyString => if is_empty cur then [] else [cur]
  | String c s' =>
      if is_space c then
        if is_empty cur then words_from EmptyString s'
        else cur :: words_from EmptyString s'
      else words_from (cur ++ String c EmptyString) s'
  end.

Definition words (s : string) : list string := words_from EmptyString s.

Definition keep_nonempty (l : list string) : list string :=
  filter (fun t => negb (is_empty t)) l.

(** Section 4.1, the Tokenizer, in the order of its sentence.  A word
    character is a letter of the basic Latin alphabet, a digit or the
    underscore; stripping a token keeps its word characters, in their order,
    and nothing else. *)
Definition word_units : string :=
  "ABCDEFGHIJKLMNOPQRSTUVWXYZabcdefghijklmnopqrstuvwxyz0123456789_".

Definition is_word_unit (c : ascii) : bool :=
  existsb (Ascii.eqb c) (list_ascii_of_string word_units).

Definition keep_word_units (token : string) : string :=
  string_of_list_ascii (filter is_word_unit (list_ascii_of_string token)).

Definition tokenizer (s : string) : list string :=
  keep_nonempty
    (List.map keep_word_units
       (filter (fun t => negb (len t <=? 2)) (words s))).

Fixpoint all_chars (p : ascii -> bool) (s : string) : bool :=
  match s with
  | EmptyString => true
  | String c s' => (p c && all_chars p s')%bool
  end.

Definition count_if {A} (p : A -> bool) (l : list A) : Z :=
  Z.of_nat (List.length (filter p l)).

Definition sum_Z (l : list Z) : Z := fold_right Z.add 0 l.

(** Section 4.3 a: what one query term adds to the score of an entry. *)
Definition term_points (e : IndexEntry) (term : string) : Z :=
  (if includes (toLowerCase (or_empty (title (note e)))) term then 10 else 0)
  + (if includes (searchableContent e) term then 5 else 0)
  + 2 * count_if
          (fun stored => (includes stored term || includes term stored)%bool)
          (searchTerms e)
  + (if includes (toLowerCase (or_empty (category_name (note e)))) term
     then 3 else 0)
  + 3 * count_if (fun tag => includes (toLowerCase (name tag)) term)
          (match tags (note e) with Some ts => ts | None => [] end).

Definition relevance (e : IndexEntry) (query : string) : Z :=
  sum_Z (List.map (term_points e) (words (toLowerCase query))).

Definition scored (query : string) (h : Hit) : Hit :=
  {| entry := entry h; score := Some (relevance (entry h) query) |}.

(** A duplicate-free ordered collection: the first occurrence of each
    string, in the order of the list. *)
Fixpoint first_occurrences (l : list string) : list string :=
  match l with
  | [] => []
  | x :: l' =>
      x :: filter (fun y => negb (String.eqb y x)) (first_occurrences l')
  end.

(** [s] contains [q] as a case-insensitive substring. *)
Definition contains_ci (s q : string) : bool :=
  includes (toLowerCase s) (toLowerCase q).

(** The candidates of the three passes of section 4.4. *)
Definition matching_titles (q : string) (entries : list IndexEntry)
  : list string :=
  filter (fun t => contains_ci t q)
    (List.map (fun e => or_empty (title (note e))) entries).

Definition matching_tags (q : string) (entries : list IndexEntry)
  : list string :=
  filter (fun t => contains_ci t q)
    (flat_map
       (fun e => match tags (note e) with
                 | Some ts => List.map name ts
                 | None => []
                 end)
       entries).

Definition matching_categories (q : string) (entries : list IndexEntry)
  : list string :=
  filter (fun t => (negb (is_empty t) && contains_ci t q)%bool)
    (List.map (fun e => or_empty (category_name (note e))) entries).

(** [Set.prototype.add] for each element of a list, in order. *)
Definition add_all (xs : list string) (s : list string) : list string :=
  fold_left (fun acc x => set_add x acc) xs s.

(** The index a build leaves when the Note Store lists [notes]. *)
Definition built (notes : list Note) (m : list (Z * IndexEntry))
  : list (Z * IndexEntry) :=
  fold_left (fun m n => map_set (id n) (index_entry n) m) notes m.

(** The state [initialize] leaves. *)
Definition initialized_from (store : nat -> Fetch) (st : State) : State :=
  if initialized st then st
  else
    match store (calls st) with
    | Listed notes =>
        {| searchIndex := built notes []; initialized := true;
           calls := S (calls st) |}
    | Failed =>
        {| searchIndex := searchIndex st; initialized := true;
           calls := S (calls st) |}
    end.

(** The array the scoring stage of [search] hands to the filters. *)
Definition after_scoring (query : option string) (entries : list IndexEntry)
  : list Hit :=
  if truthy query then filterByQuery (unscored entries) (or_empty query)
  else unscored entries.

(** [l1] is [l2] with some elements left out: same order. *)
Inductive subseq {A : Type} : list A -> list A -> Prop :=
| subseq_nil : subseq [] []
| subseq_skip : forall x l1 l2, subseq l1 l2 -> subseq l1 (x :: l2)
| subseq_keep : forall x l1 l2, subseq l1 l2 -> subseq (x :: l1) (x :: l2).

(** The branch [sortResults] takes (with a query, every hit it receives has
    a score), its comparator, and when two hits have the same key in it. *)
Inductive Mode : Type := ByDate | ByTitle | ByScore.

Definition option_Z_eqb (a b : option Z) : bool :=
  match a, b with
  | Some x, Some y => x =? y
  | None, None => true
  | _, _ => false
  end.

Definition same_score (a b : Hit) : bool := option_Z_eqb (score a) (score b).

Definition hit_id (h : Hit) : Z := id (note (entry h)).

Section Modes.
Context {engine : Engine}.

Definition mode_of (sortBy : string) (query : option string) : Mode :=
  if String.eqb sortBy "date" then ByDate
  else if String.eqb sortBy "title" then ByTitle
  else if truthy query then ByScore
  else ByDate.

Definition comparator (m : Mode) : Hit -> Hit -> Z :=
  match m with
  | ByDate => by_date
  | ByTitle => by_title
  | ByScore => by_score
  end.

Definition tied (m : Mode) (a b : Hit) : bool :=
  match m with
  | ByDate => option_Z_eqb (updated a) (updated b)
  | ByTitle => String.eqb (hit_title a) (hit_title b)
  | ByScore => same_score a b
  end.

(** The claim on ties as the specification states it: in the result, hits
    with the key of [a] follow the insertion order of the index. *)
Definition ties_in_insertion_order (m : Mode) (st : State)
    (results : list Hit) : Prop :=
  forall a,
    subseq (List.map hit_id (filter (tied m a) results))
           (List.map (fun e => id (note e)) (map_values (searchIndex st))).
End Modes.

Definition has_score (h : Hit) : Prop := score h <> None.

(** A consistent comparator, the sort order and stability, as the
    standard words them for [Array.prototype.sort]. *)
Definition consistent {A} (cmp : A -> A -> Z) : Prop :=
  (forall a, cmp a a = 0)
  /\ (forall a b, cmp a b = 0 -> cmp b a = 0)
  /\ (forall a b c, cmp a b = 0 -> cmp b c = 0 -> cmp a c = 0)
  /\ (forall a b c, cmp a b < 0 -> cmp b c < 0 -> cmp a c < 0)
  /\ (forall a b c, cmp a b > 0 -> cmp b c > 0 -> cmp a c > 0).

Definition in_sort_order {A} (cmp : A -> A -> Z) (l : list A) : Prop :=
  StronglySorted (fun a b => ~ cmp b a < 0) l.

Definition keeps_ties {A} (cmp : A -> A -> Z) (l l' : list A) : Prop :=
  forall x,
    filter (fun y => cmp x y =? 0) l' = filter (fun y => cmp x y =? 0) l.

(** The comparator of the mode is consistent on the hits of these entries,
    so that the standard determines the sorted array: in date mode every
    time of update is valid (an invalid one makes the difference [NaN]), in
    title mode [localeCompare] is a consistent comparator; the scores of the
    scoring stage are integers. *)
Definition sort_is_determined {engine : Engine} (m : Mode)
    (entries : list IndexEntry) : Prop :=
  match m with
  | ByDate => Forall (fun e => date_value (updated_at (note e)) <> None) entries
  | ByTitle => consistent locale_compare
  | ByScore => True
  end.

(** [score a >= score b] for two scored hits. *)
Definition score_ge (a b : Hit) : Prop :=
  match score a, score b with
  | Some x, Some y => y <= x
  | _, _ => False
  end.

(* ------------------------------------------------------------------ *)
(** ** An engine and a corpus for the examples *)

(** Time values of the ISO strings the examples use, and titles compared by
    code unit, as a locale-aware comparison orders lower-case ASCII words. *)
Fixpoint compare_units (a b : string) : Z :=
  match a, b with
  | EmptyString, EmptyString => 0
  | EmptyString, String _ _ => -1
  | String _ _, EmptyString => 1
  | String x a', String y b' =>
      if N.ltb (code x) (code y) then -1
      else if N.ltb (code y) (code x) then 1
      else compare_units a' b'
  end.

Definition T1 : string := "2024-01-01T00:00:00.000Z".
Definition T2 : string := "2024-06-01T00:00:00.000Z".
Definition T3 : string := "2025-01-01T00:00:00.000Z".

Definition sample_date_value (s : string) : option Z :=
  if String.eqb s T1 then Some 1704067200000
  else if String.eqb s T2 then Some 1717200000000
  else if String.eqb s T3 then Some 1735689600000
  else None.

Definition sample_engine : Engine :=
  {| date_value := sample_date_value; locale_compare := compare_units |}.

(** The corpus of the scenario of section 8. *)
Definition note1 : Note :=
  {| id := 1; title := Some "Go Routines";
     content := Some "concurrency patterns";
     category_id := None; category_name := None; tags := Some [];
     is_favorite := false; updated_at := T1 |}.

Definition note2 : Note :=
  {| id := 2; title := Some "Rust Ownership";
     content := Some "memory safety";
     category_id := None; category_name := None;
     tags := Some [{| tag_id := 9; name := "systems" |}];
     is_favorite := true; updated_at := T2 |}.

Definition scenario_store (_ : nat) : Fetch := Listed [note1; note2].

(** A Note Store whose listing fails once and then answers. *)
Definition failing_once (n : nat) : Fetch :=
  match n with O => Failed | S _ => Listed [note1; note2] end.

(** Options that set one field and leave the defaults elsewhere. *)
Definition with_date_range (a b : option string) : SearchOptions :=
  {| categoryId := None; tagIds := []; isFavorite := None;
     dateRange := Some {| range_start := a; range_end := b |};
     sortBy := "relevance"; limit := 50 |}.

Definition with_limit (n : Z) : SearchOptions :=
  {| categoryId := None; tagIds := []; isFavorite := None;
     dateRange := None; sortBy := "relevance"; limit := n |}.

Definition sorted_by (mode : string) : SearchOptions :=
  {| categoryId := None; tagIds := []; isFavorite := None;
     dateRange := None; sortBy := mode; limit := 50 |}.

(** Two notes with the same title and the same time of update; the second
    one repeats the word in its content. *)
Definition tie1 : Note :=
  {| id := 1; title := Some "rust"; content := Some EmptyString;
     category_id := None; category_name := None; tags := Some [];
     is_favorite := false; updated_at := T1 |}.

Definition tie2 : Note :=
  {| id := 2; title := Some "rust"; content := Some "rust rust";
     category_id := None; category_name := None; tags := Some [];
     is_favorite := false; updated_at := T1 |}.

Definition tie_store (_ : nat) : Fetch := Listed [tie1; tie2].

(** The identifiers and scores of what [search] returned. *)
Definition summary (r : Res SearchOutput) : option (list (Z * option Z)) :=
  match r with
  | Ok (Results hits) => Some (List.map (fun h => (hit_id h, score h)) hits)
  | _ => None
  end.

(* ------------------------------------------------------------------ *)
(** ** Further methods of the two services, and their caller *)

(** [Map.prototype.get] and [has], and the keys of a map in order. *)
Fixpoint map_get {A : Type} (k : Z) (m : list (Z * A)) : option A :=
  match m with
  | [] => None
  | (k', v) :: m' => if k' =? k then Some v else map_get k m'
  end.

Definition map_keys {A : Type} (m : list (Z * A)) : list Z := List.map fst m.

(** [getSearchStats].  The two counts are integers; [avgTermsPerNote] is
    the floating-point quotient of them, recorded here by its operands,
    and 0 for an empty index. *)
Inductive Average : Type :=
| Zero
| Quotient (numerator denominator : Z).

Record SearchStats : Type := {
  totalNotes : Z;
  totalTerms : Z;
  avgTermsPerNote : Average
}.

Definition count_terms (entries : list IndexEntry) : Z :=
  fold_left (fun total e => total + array_length (searchTerms e)) entries 0.

Definition getSearchStats : M SearchStats :=
  (m <- get_index ;;
   ret {| totalNotes := array_length m;
          totalTerms := count_terms (map_values m);
          avgTermsPerNote :=
            if array_length m >? 0
            then Quotient (count_terms (map_values m)) (array_length m)
            else Zero |})%js.

(** [markdownService.getWordCount], [getCharacterCount] and
    [getReadingTime].  [Math.ceil(wordCount / 200)] is the integer ceiling:
    a count that is no multiple of 200 is at least 1/200 away from one. *)
Definition getWordCount (markdown : string) : Z :=
  let plainText := MarkdownService.extractPlainText markdown in
  if is_empty plainText then 0
  else array_length (filter (fun word => len word >? 0) (split_ws plainText)).

Definition getCharacterCount (markdown : string) : Z :=
  len (MarkdownService.extractPlainText markdown).

Definition getReadingTime (markdown : string) : Z :=
  let wordCount := getWordCount markdown in
  (wordCount + 199) / 200.

(** [markdownService.removeFrontmatter]: the pattern is anchored at the
    start of the string and not global, so that only a match there is
    removed.  The pattern: three dashes, a line feed, the shortest run of
    any code units, a line feed, three dashes, a line feed if there is
    one. *)
Definition frontmatter_block : list Regex.atom :=
  [Regex.chr "-"; Regex.chr "-"; Regex.chr "-";
   Regex.chr MarkdownService.newline;
   Regex.lazy_star Regex.any;
   Regex.chr MarkdownService.newline;
   Regex.chr "-"; Regex.chr "-"; Regex.chr "-";
   Regex.upto 0 1 (Ascii.eqb MarkdownService.newline)].

Fixpoint drop_units (n : nat) (s : string) : string :=
  match n, s with
  | S n', String _ s' => drop_units n' s'
  | _, _ => s
  end.

Definition removeFrontmatter (markdown : string) : string :=
  match Regex.run frontmatter_block None markdown 0 (0, 0)%nat with
  | Some (n, _) => drop_units n markdown
  | None => markdown
  end.

(** [markdownService.extractTitle] for a string argument: the text of the
    first heading, trimmed; failing that the plain text of the first line
    that is not blank and starts neither with a hash nor with a code fence,
    cut at 100 code units; failing that ['Untitled'].  The heading pattern:
    at a line start, one to six hashes, a run of white space, a run of code
    units other than line terminators (group 1), a line end.  [match]
    without the global flag gives the first match from the left. *)
Definition any_but_newline (c : ascii) : bool :=
  negb (Regex.line_terminator c).

Definition heading : list Regex.atom :=
  [Regex.Bol; Regex.upto 1 6 (Ascii.eqb "#"); Regex.plus is_space;
   Regex.Open; Regex.plus any_but_newline; Regex.Close; Regex.Eol].

Fixpoint first_group (p : list Regex.atom) (prev : option ascii)
    (s : string) {struct s} : option string :=
  match Regex.run p prev s 0 (0, 0)%nat with
  | Some (_, g) => Some (Regex.expand Regex.Group1 s g)
  | None =>
      match s with
      | EmptyString => None
      | String c s' => first_group p (Some c) s'
      end
  end.

(** [s.split(sep)] for a separator of one code unit. *)
Fixpoint split_on (sep : ascii) (s : string) : list string :=
  match s with
  | EmptyString => [EmptyString]
  | String c s' =>
      if Ascii.eqb c sep then EmptyString :: split_on sep s'
      else
        match split_on sep s' with
        | piece :: pieces => String c piece :: pieces
        | [] => [String c EmptyString]
        end
  end.

Definition title_line (line : string) : bool :=
  let trimmed := trim line in
  (negb (is_empty trimmed) && negb (starts_with "#" trimmed)
   && negb (starts_with "```" trimmed))%bool.

Definition extractTitle (markdown : string) : string :=
  if is_empty markdown then "Untitled"
  else
    match first_group heading None markdown with
    | Some text => trim text
    | None =>
        match find title_line (split_on MarkdownService.newline markdown) with
        | Some line =>
            substring 0 100 (MarkdownService.extractPlainText (trim line))
        | None => "Untitled"
        end
    end.

(** [AdvancedSearch.handleSearch] of the sidebar: what it hands to
    [onResults] for the query and the filters of the form.  The filters
    carry no limit; the call sets it to 100.  An error of [search] is
    caught and shown as no result. *)
Definition hasActiveFilters (filters : SearchOptions) : bool :=
  (truthy_id (categoryId filters)
   || (array_length (tagIds filters) >? 0)
   || match isFavorite filters with Some _ => true | None => false end
   || match dateRange filters with Some _ => true | None => false end)%bool.

Definition with_limit_100 (filters : SearchOptions) : SearchOptions :=
  {| categoryId := categoryId filters; tagIds := tagIds filters;
     isFavorite := isFavorite filters; dateRange := dateRange filters;
     sortBy := sortBy filters; limit := 100 |}.

Section Sidebar.
Context {engine : Engine}.
Variable store : nat -> Fetch.

Definition handleSearch (query : string) (filters : SearchOptions)
  : M SearchOutput :=
  if (is_empty (trim query) && negb (hasActiveFilters filters))%bool
  then ret (Results [])
  else
    try_catch
      (search store (Some query) (with_limit_100 filters))
      (fun _ => ret (Results [])).

(** [getSuggestions] of the effect on the query of the same component:
    what it hands to [setSuggestions].  The service is called with the
    query alone, hence with its default limit. *)
Definition getSuggestions (query : string) : M (list string) :=
  if len query >=? 2
  then try_catch (getSearchSuggestions store (Some query) None)
         (fun _ => ret [])
  else ret [].
End Sidebar.

(** *** Vocabulary of the further properties *)

(** A map as the service builds it: no key twice, every entry under the
    identifier of its note, with the derived fields of that note. *)
Definition index_ok (m : list (Z * IndexEntry)) : Prop :=
  NoDup (map_keys m)
  /\ Forall (fun kv => snd kv = index_entry (note (snd kv))
                      /\ id (note (snd kv)) = fst kv) m.

(** A hit meets every criterion that the options set. *)
Definition meets {engine : Engine} (o : SearchOptions) (h : Hit) : bool :=
  ((if truthy_id (categoryId o) then in_category (categoryId o) h else true)
   && (if 0 <? array_length (tagIds o) then has_tag_in (tagIds o) h else true)
   && (match isFavorite o with Some b => favorite_is b h | None => true end)
   && (match dateRange o with Some r => in_range r h | None => true end))%bool.

(** The keys of [a] and [b] are valid and that of [a] is not smaller. *)
Definition descending (key : Hit -> option Z) (a b : Hit) : Prop :=
  match key a, key b with
  | Some x, Some y => y <= x
  | _, _ => False
  end.

(** [a] comes no later than [b] in the order of the titles. *)
Definition title_le {engine : Engine} (a b : Hit) : Prop :=
  locale_compare (hit_title a) (hit_title b) <= 0.

(** A lower-case word code unit: a-z, 0-9 or the underscore. *)
Definition is_lower_word (c : ascii) : bool :=
  (between 97 122 c || is_digit c || N.eqb (code c) 95)%bool.

(** A code unit that starts or takes part in no markdown construct that
    [extractPlainText] removes. *)
Definition is_plain (c : ascii) : bool :=
  negb (Ascii.eqb c MarkdownService.backtick || Ascii.eqb c "["
        || Ascii.eqb c "#" || Ascii.eqb c "*" || Ascii.eqb c "_"
        || Ascii.eqb c "~" || Ascii.eqb c "-" || Ascii.eqb c "+"
        || Ascii.eqb c "." || Ascii.eqb c MarkdownService.newline)%bool.

(** The string has no white space at either end. *)
Definition trimmed (s : string) : Prop := trim s = s.

(** The least number of code units that a match of the pattern spans. *)
Definition min_span (p : list Regex.atom) : nat :=
  fold_right (fun a n => match a with
                         | Regex.Rep _ lo _ _ => (lo + n)%nat
                         | _ => n
                         end) 0%nat p.

(** A literal replacement is no longer than the shortest match; a group is
    part of the match. *)
Definition short_enough (p : list Regex.atom) (r : Regex.replacement) : Prop :=
  match r with
  | Regex.Lit t => (String.length t <= min_span p)%nat
  | Regex.Group1 => True
  end.

(** An atom that asks for at least one code unit of a class that [ok]
    excludes. *)
Definition asks_outside (ok : ascii -> bool) (a : Regex.atom) : Prop :=
  match a with
  | Regex.Rep _ (S _) _ cls => forall c, ok c = true -> cls c = false
  | _ => False
  end.

(** The fences of a front matter block, and a document that starts with a
    block: the opening fence, the block, the closing fence on a line of its
    own, the body. *)
Definition opening_fence : string :=
  "---" ++ String MarkdownService.newline EmptyString.

Definition fence_line : string := String MarkdownService.newline "---".

Definition with_frontmatter (block body : string) : string :=
  "---" ++ String MarkdownService.newline
             (block ++ fence_line ++ String MarkdownService.newline body).

(** The part of [frontmatter_block] after the lazy run. *)
Definition closing_fence : list Regex.atom :=
  [Regex.chr MarkdownService.newline;
   Regex.chr "-"; Regex.chr "-"; Regex.chr "-";
   Regex.upto 0 1 (Ascii.eqb MarkdownService.newline)].


(** A run of [k] hashes. *)
Fixpoint hashes (k : nat) : string :=
  match k with
  | O => EmptyString
  | S k' => String "#" (hashes k')
  end.

(* ================================================================== *)
(** * Properties *)

(** ** Strings and the split on white space *)

Lemma prefix_of_starts_with : forall t s,
  starts_with t s = true <-> exists rest, s = t ++ rest.
Proof.
  induction t as [|a t IH]; intros s; simpl.
  - split; [intros _; now exists s | reflexivity].
  - destruct s as [|b s].
    + split; [discriminate | intros [rest H]; discriminate].
    + rewrite andb_true_iff, Ascii.eqb_eq, IH. split.
      * intros [-> [rest ->]]. now exists rest.
      * intros [rest H]. injection H as -> ->. split; [reflexivity|].
        now exists rest.
Qed.

(** [includes] decides "is a substring of". *)
Lemma includes_substring : forall s t,
  includes s t = true <-> exists before after, s = before ++ t ++ after.
Proof.
  induction s as [|c s IH]; intros t.
  - simpl. rewrite orb_false_r, prefix_of_starts_with. split.
    + intros [rest H]. now exists EmptyString, rest.
    + intros [before [after H]]. destruct before; [|discriminate].
      now exists after.
  - cbn [includes]. rewrite orb_true_iff, prefix_of_starts_with, IH. split.
    + intros [[rest H] | [before [after H]]].
      * now exists EmptyString, rest.
      * exists (String c before), after. simpl. now rewrite H.
    + intros [before [after H]]. destruct before as [|b before].
      * left. now exists after.
      * right. simpl in H. injection H as _ H. now exists before, after.
Qed.

Lemma includes_empty_string : forall t,
  t <> EmptyString -> includes EmptyString t = false.
Proof. intros [|c t] H; [contradiction | reflexivity]. Qed.

Lemma len_positive : forall s, (len s >? 0) = negb (is_empty s).
Proof. intros [|c s]; unfold len; simpl; [reflexivity|]. apply Z.gtb_lt. lia. Qed.

Lemma len_more_than_two : forall s, (len s >? 2) = negb (len s <=? 2).
Proof.
  intros s. destruct (len s <=? 2) eqn:E; simpl.
  - apply Z.leb_le in E. destruct (len s >? 2) eqn:G; [|reflexivity].
    apply Z.gtb_lt in G. lia.
  - apply Z.leb_gt in E. apply Z.gtb_lt. lia.
Qed.

Lemma split_from_false_pieces : forall s,
  exists piece pieces, split_from false s = piece :: pieces.
Proof.
  induction s as [|c s [p [ps IH]]]; simpl.
  - now exists EmptyString, [].
  - destruct (is_space c).
    + now exists EmptyString, (split_from true s).
    + rewrite IH. now exists (String c p), ps.
Qed.

Lemma append_snoc : forall cur c rest,
  ((cur ++ String c EmptyString) ++ rest)%string = (cur ++ String c rest)%string.
Proof. induction cur as [|a cur IH]; intros; simpl; [reflexivity | now rewrite IH]. Qed.

(** The pieces of [split] that are not empty are the words, whether or not
    the split starts inside a separator run. *)
Lemma words_from_split : forall s,
  words_from EmptyString s = keep_nonempty (split_from true s)
  /\ forall cur piece pieces,
       split_from false s = piece :: pieces ->
       words_from cur s = keep_nonempty ((cur ++ piece)%string :: pieces).
Proof.
  induction s as [|c s [IHrun IHpiece]].
  - split; [reflexivity|]. intros cur piece pieces H.
    injection H as <- <-. simpl.
    replace (cur ++ EmptyString)%string with cur by (induction cur; simpl; congruence).
    now destruct (is_empty cur).
  - destruct (split_from_false_pieces s) as [p [ps Hs]].
    split.
    + simpl. destruct (is_space c) eqn:Hc; [exact IHrun|].
      rewrite Hs. now rewrite (IHpiece _ _ _ Hs).
    + intros cur piece pieces H. simpl in H. simpl.
      destruct (is_space c) eqn:Hc.
      * injection H as <- <-.
        replace (cur ++ EmptyString)%string with cur by (induction cur; simpl; congruence).
        simpl. rewrite IHrun. now destruct (is_empty cur).
      * rewrite Hs in H. injection H as <- <-.
        rewrite (IHpiece _ _ _ Hs). now rewrite append_snoc.
Qed.

Lemma words_split_ws : forall s, words s = keep_nonempty (split_ws s).
Proof.
  intros s. unfold words, split_ws.
  destruct (split_from_false_pieces s) as [p [ps Hs]].
  rewrite Hs. exact (proj2 (words_from_split s) EmptyString p ps Hs).
Qed.

Lemma filter_filter : forall A (p q : A -> bool) l,
  filter p (filter q l) = filter (fun x => (q x && p x)%bool) l.
Proof.
  induction l as [|x l IH]; simpl; [reflexivity|].
  destruct (q x); simpl; [destruct (p x)|]; now rewrite IH.
Qed.

Lemma words_nonempty : forall s, Forall (fun t => is_empty t = false) (words s).
Proof.
  intros s. rewrite words_split_ws. unfold keep_nonempty.
  apply Forall_forall. intros t Ht. apply filter_In in Ht.
  now apply negb_true_iff.
Qed.

(** The terms [filterByQuery] scores with are the words of the lower-cased
    query. *)
Lemma queryTerms_words : forall query,
  queryTerms_of query = words (toLowerCase query).
Proof.
  intros query. unfold queryTerms_of. rewrite words_split_ws.
  unfold keep_nonempty. apply filter_ext. intros t. apply len_positive.
Qed.

Lemma words_from_space : forall a cur c b,
  is_space c = true ->
  words_from cur (a ++ String c b)
  = (words_from cur a ++ words_from EmptyString b)%list.
Proof.
  induction a as [|x a IH]; intros cur c b Hc; simpl.
  - rewrite Hc. now destruct (is_empty cur).
  - destruct (is_space x).
    + destruct (is_empty cur); simpl; now rewrite IH.
    + now apply IH.
Qed.

Lemma strip_non_word_word_chars : forall s,
  all_chars is_word (strip_non_word s) = true.
Proof.
  induction s as [|c s IH]; simpl; [reflexivity|].
  destruct (is_word c) eqn:E; simpl; [now rewrite E|exact IH].
Qed.

(** ** The Tokenizer *)

(** The class of [\w] is the word characters, and the callback of [map]
    keeps exactly the word characters of a token. *)
Lemma is_word_is_word_unit : forall c, is_word c = is_word_unit c.
Proof.
  intros c. destruct c as [[] [] [] [] [] [] [] []]; vm_compute; reflexivity.
Qed.

Lemma strip_non_word_keeps_word_units : forall token,
  strip_non_word token = keep_word_units token.
Proof.
  unfold keep_word_units.
  induction token as [|c token IH]; [reflexivity|].
  cbn [strip_non_word list_ascii_of_string filter].
  rewrite <- is_word_is_word_unit.
  destruct (is_word c); cbn [string_of_list_ascii]; now rewrite IH.
Qed.

Lemma keep_word_units_of_word : forall token,
  all_chars is_word_unit token = true -> keep_word_units token = token.
Proof.
  unfold keep_word_units.
  induction token as [|c token IH]; intros H; [reflexivity|].
  cbn [all_chars] in H. apply andb_true_iff in H. destruct H as [Hc H].
  cbn [list_ascii_of_string filter]. rewrite Hc.
  cbn [string_of_list_ascii]. now rewrite IH.
Qed.

Lemma word_unit_is_no_space : forall c,
  is_word_unit c = true -> is_space c = false.
Proof.
  intros c. destruct c as [[] [] [] [] [] [] [] []]; vm_compute;
    intros H; try reflexivity; discriminate H.
Qed.

Lemma words_from_word : forall token cur,
  all_chars is_word_unit token = true ->
  words_from cur token
  = if is_empty (cur ++ token) then [] else [cur ++ token].
Proof.
  induction token as [|c token IH]; intros cur H.
  - cbn [words_from]. replace (cur ++ EmptyString) with cur; [reflexivity|].
    clear. induction cur as [|x cur IH]; cbn; [reflexivity | now rewrite <- IH].
  - cbn [all_chars] in H. apply andb_true_iff in H. destruct H as [Hc H].
    cbn [words_from]. rewrite (word_unit_is_no_space c Hc), (IH _ H).
    replace ((cur ++ String c EmptyString) ++ token)
      with (cur ++ String c token); [reflexivity|].
    clear. induction cur as [|x cur IH]; cbn; [reflexivity | now rewrite IH].
Qed.

(** C4. [generateSearchTerms] is the Tokenizer of section 4.1: the words of
    the string, without those of raw length 2 or less, each reduced to its
    word characters, without those that became empty; every term is
    non-empty and made of word code units; the terms of two strings joined
    by a space are the terms of the first followed by the terms of the
    second, so that order and repetitions are those of the input; and a
    token of more than 2 word characters is kept as it is. *)
Theorem generateSearchTerms_tokenizer : forall s t,
  generateSearchTerms s = tokenizer s
  /\ Forall (fun term => is_empty term = false
                        /\ all_chars is_word term = true)
       (generateSearchTerms s)
  /\ generateSearchTerms (s ++ " " ++ t)
     = (generateSearchTerms s ++ generateSearchTerms t)%list
  /\ (all_chars is_word_unit s = true -> 2 < len s ->
      generateSearchTerms s = [s]).
Proof.
  assert (E : forall s, generateSearchTerms s = tokenizer s).
  { intros s. unfold generateSearchTerms, tokenizer, keep_nonempty.
    rewrite words_split_ws. unfold keep_nonempty.
    rewrite (filter_ext _ _ len_positive).
    rewrite (map_ext _ _ strip_non_word_keeps_word_units). f_equal. f_equal.
    rewrite filter_filter. apply filter_ext. intros x.
    rewrite len_more_than_two.
    destruct x; [reflexivity|]. reflexivity. }
  intros s t. split; [apply E|]. split; [|split].
  - rewrite E. unfold tokenizer, keep_nonempty. apply Forall_forall.
    intros term H. apply filter_In in H. destruct H as [H Hne].
    apply negb_true_iff in Hne. split; [exact Hne|].
    apply in_map_iff in H. destruct H as [raw [<- _]].
    rewrite <- strip_non_word_keeps_word_units.
    apply strip_non_word_word_chars.
  - rewrite !E. unfold tokenizer, keep_nonempty, words. simpl.
    rewrite words_from_space by reflexivity.
    now rewrite filter_app, map_app, filter_app.
  - intros Hword Hlen. rewrite E. unfold tokenizer, keep_nonempty, words.
    rewrite words_from_word by exact Hword. cbn [append].
    destruct s as [|c s]; [unfold len in Hlen; cbn in Hlen; lia|].
    cbn [is_empty filter].
    replace (len (String c s) <=? 2) with false
      by (symmetry; apply Z.leb_gt; exact Hlen).
    cbn [negb List.map]. rewrite keep_word_units_of_word by exact Hword.
    reflexivity.
Qed.

(** [generateSearchTerms_tokenizer] on a string with a short token, signs,
    a repeated token and a token of signs only. *)
Lemma generateSearchTerms_tokenizer_witness :
  generateSearchTerms "go  c++ rust! Rust! a.b.c --- x_1 rust!"
  = ["c"; "rust"; "Rust"; "abc"; "x_1"; "rust"].
Proof.
  exact (eq_trans
           (proj1 (generateSearchTerms_tokenizer
                     "go  c++ rust! Rust! a.b.c --- x_1 rust!" EmptyString))
           eq_refl).
Defined.

(** ** Sorting *)

Section Sorting.
Variable A : Type.
Variable cmp : A -> A -> Z.

Lemma insert_by_permutation : forall x l,
  Permutation (insert_by cmp x l) (x :: l).
Proof.
  induction l as [|y l IH]; simpl; [apply Permutation_refl|].
  destruct (cmp x y <=? 0); [apply Permutation_refl|].
  eapply perm_trans; [apply perm_skip, IH | apply perm_swap].
Qed.

Lemma sort_by_permutation : forall l, Permutation (sort_by cmp l) l.
Proof.
  induction l as [|x l IH]; simpl; [constructor|].
  eapply perm_trans; [apply insert_by_permutation | now apply perm_skip].
Qed.

Lemma sort_by_In : forall l x, In x (sort_by cmp l) <-> In x l.
Proof.
  intros l x. split; apply Permutation_in;
    [|apply Permutation_sym]; apply sort_by_permutation.
Qed.

(** Stability: a class of elements that the comparator never puts one
    after the other keeps its order. *)
Variable same : A -> bool.
Hypothesis same_ties : forall x y,
  same x = true -> same y = true -> cmp x y <= 0.

Lemma filter_insert_by : forall x l,
  filter same (insert_by cmp x l) = filter same (x :: l).
Proof.
  induction l as [|y l IH]; [reflexivity|].
  cbn [insert_by]. destruct (cmp x y <=? 0) eqn:E; [reflexivity|].
  cbn [filter]. rewrite IH. cbn [filter].
  destruct (same x) eqn:Hx; [|reflexivity].
  destruct (same y) eqn:Hy; [|reflexivity].
  apply Z.leb_gt in E. specialize (same_ties Hx Hy). lia.
Qed.

Lemma sort_by_stable : forall l, filter same (sort_by cmp l) = filter same l.
Proof.
  induction l as [|x l IH]; [reflexivity|].
  cbn [sort_by fold_right]. rewrite filter_insert_by.
  cbn [filter]. fold (sort_by cmp l). now rewrite IH.
Qed.
End Sorting.

(** What [sort_by] returns is the only list in sort order that keeps the
    ties of its argument: every stable sort returns it. *)
Section StableSortIsUnique.
Variable A : Type.
Variable cmp : A -> A -> Z.
Hypothesis cmp_consistent : consistent cmp.

Lemma cmp_refl : forall a, cmp a a = 0.
Proof. apply cmp_consistent. Qed.

Lemma cmp_gt_lt : forall a b, cmp a b > 0 -> cmp b a < 0.
Proof.
  destruct cmp_consistent as (Hrefl & Hsym & _ & _ & Hgt).
  intros a b H. destruct (Z.lt_trichotomy (cmp b a) 0) as [L | [E | G]].
  - exact L.
  - apply Hsym in E. lia.
  - pose proof (Hgt a b a H (Z.lt_gt _ _ G)) as Haa.
    rewrite Hrefl in Haa. lia.
Qed.

Lemma cmp_lt_gt : forall a b, cmp a b < 0 -> cmp b a > 0.
Proof.
  destruct cmp_consistent as (Hrefl & Hsym & _ & Hlt & _).
  intros a b H. destruct (Z.lt_trichotomy (cmp b a) 0) as [L | [E | G]].
  - pose proof (Hlt a b a H L) as Haa. rewrite Hrefl in Haa. lia.
  - apply Hsym in E. lia.
  - lia.
Qed.

Lemma cmp_le_trans : forall a b c,
  cmp a b <= 0 -> cmp b c <= 0 -> cmp a c <= 0.
Proof.
  destruct cmp_consistent as (Hrefl & Hsym & Heq & Hlt & Hgt).
  intros a b c Hab Hbc.
  destruct (Z_le_gt_dec (cmp a c) 0) as [Hle | Hac]; [exact Hle|].
  exfalso.
  destruct (Z.eq_dec (cmp a b) 0) as [Eab | Nab];
    destruct (Z.eq_dec (cmp b c) 0) as [Ebc | Nbc].
  - rewrite (Heq a b c Eab Ebc) in Hac. lia.
  - (* a = b < c, and c < a *)
    pose proof (cmp_gt_lt Hac) as Hca.
    assert (Hba : cmp b a < 0) by (apply (Hlt b c a); lia).
    apply Hsym in Eab. lia.
  - (* a < b = c, and c < a *)
    pose proof (cmp_gt_lt Hac) as Hca.
    assert (Hcb : cmp c b < 0) by (apply (Hlt c a b); lia).
    apply Hsym in Ebc. lia.
  - assert (H : cmp a c < 0) by (apply (Hlt a b c); lia). lia.
Qed.

Lemma insert_by_sorted : forall x l,
  StronglySorted (fun a b => cmp a b <= 0) l ->
  StronglySorted (fun a b => cmp a b <= 0) (insert_by cmp x l).
Proof.
  intros x l Hs. induction Hs as [|y l Hs IH Hy]; simpl.
  - repeat constructor.
  - destruct (cmp x y <=? 0) eqn:E.
    + apply Z.leb_le in E. constructor; [now constructor|].
      constructor; [exact E|].
      eapply Forall_impl; [|exact Hy]. intros z Hz.
      eapply cmp_le_trans; eassumption.
    + apply Z.leb_gt in E. constructor; [exact IH|].
      apply Forall_forall. intros z Hz.
      apply (Permutation_in _ (insert_by_permutation cmp x l)) in Hz.
      destruct Hz as [<- | Hz].
      * pose proof (@cmp_gt_lt x y). lia.
      * now apply (proj1 (Forall_forall _ _) Hy).
Qed.

Lemma sort_by_sorted : forall l,
  StronglySorted (fun a b => cmp a b <= 0) (sort_by cmp l).
Proof.
  induction l as [|x l IH]; simpl; [constructor|].
  now apply insert_by_sorted.
Qed.

Lemma sort_by_in_sort_order : forall l, in_sort_order cmp (sort_by cmp l).
Proof.
  intros l. unfold in_sort_order.
  pose proof (sort_by_sorted l) as H.
  induction H as [|x l' Hs IH Hx]; constructor; [exact IH|].
  eapply Forall_impl; [|exact Hx]. intros z Hz Hlt. cbn beta in Hz.
  pose proof (cmp_lt_gt Hlt). lia.
Qed.

Lemma sort_by_keeps_ties : forall l, keeps_ties cmp l (sort_by cmp l).
Proof.
  destruct cmp_consistent as (_ & Hsym & Heq & _ & _).
  intros l x. apply sort_by_stable. intros y z Hy Hz.
  apply Z.eqb_eq in Hy, Hz. rewrite (Heq y x z); [lia | now apply Hsym | exact Hz].
Qed.

Lemma in_sort_order_unique : forall l1 l2,
  in_sort_order cmp l1 -> in_sort_order cmp l2 -> keeps_ties cmp l1 l2 ->
  l1 = l2.
Proof.
  assert (Hhead : forall h t, filter (fun y => cmp h y =? 0) (h :: t)
                              = h :: filter (fun y => cmp h y =? 0) t).
  { intros h t. cbn [filter]. now rewrite cmp_refl. }
  assert (Hmember : forall h t l,
            filter (fun y => cmp h y =? 0) l
            = filter (fun y => cmp h y =? 0) (h :: t) -> In h l).
  { intros h t l E. rewrite Hhead in E.
    assert (Hin : In h (filter (fun y => cmp h y =? 0) l))
      by (rewrite E; now left).
    now apply filter_In in Hin. }
  induction l1 as [|h1 t1 IH]; intros l2 Hs1 Hs2 Hties.
  - destruct l2 as [|h2 t2]; [reflexivity|].
    specialize (Hties h2). rewrite Hhead in Hties. discriminate.
  - destruct l2 as [|h2 t2].
    { specialize (Hties h1). rewrite Hhead in Hties. discriminate. }
    inversion Hs1 as [|? ? Ht1 Hh1]; subst.
    inversion Hs2 as [|? ? Ht2 Hh2]; subst.
    assert (Hsame : h1 = h2).
    { destruct (Z.lt_trichotomy (cmp h1 h2) 0) as [L | [E | G]].
      - destruct (Hmember h1 t1 (h2 :: t2) (Hties h1)) as [-> | Hin].
        + reflexivity.
        + exfalso.
          now apply (proj1 (Forall_forall _ _) Hh2 h1 Hin).
      - pose proof (Hties h1) as H1. rewrite Hhead in H1.
        cbn [filter] in H1. apply Z.eqb_eq in E. rewrite E in H1.
        now injection H1.
      - pose proof (cmp_gt_lt (Z.lt_gt _ _ G)) as L.
        destruct (Hmember h2 t2 (h1 :: t1) (eq_sym (Hties h2)))
          as [-> | Hin].
        + reflexivity.
        + exfalso.
          now apply (proj1 (Forall_forall _ _) Hh1 h2 Hin). }
    subst h2. f_equal. apply IH; [exact Ht1 | exact Ht2 |].
    intros x. specialize (Hties x). cbn [filter] in Hties.
    destruct (cmp x h1 =? 0); [now injection Hties | exact Hties].
Qed.

(** Any list in sort order that keeps the ties of [l] is [sort_by cmp l]. *)
Lemma sort_by_unique : forall l l',
  in_sort_order cmp l' -> keeps_ties cmp l l' -> l' = sort_by cmp l.
Proof.
  intros l l' Hs Hties. apply in_sort_order_unique.
  - exact Hs.
  - apply sort_by_in_sort_order.
  - intros x. rewrite sort_by_keeps_ties. symmetry. apply Hties.
Qed.
End StableSortIsUnique.

Lemma by_score_le : forall x y,
  has_score x -> has_score y -> (by_score x y <= 0 <-> score_ge x y).
Proof.
  intros x y Hx Hy. unfold by_score, minus_or_zero, score_ge, has_score in *.
  destruct (score x); [|contradiction]. destruct (score y); [|contradiction].
  lia.
Qed.

Lemma score_ge_trans : forall x y z,
  score_ge x y -> score_ge y z -> score_ge x z.
Proof.
  intros x y z. unfold score_ge.
  destruct (score x), (score y), (score z); try tauto. lia.
Qed.

Lemma score_ge_total : forall x y,
  has_score x -> has_score y -> ~ score_ge x y -> score_ge y x.
Proof.
  intros x y. unfold score_ge, has_score.
  destruct (score x), (score y); try tauto. lia.
Qed.

Lemma insert_by_score_sorted : forall x l,
  has_score x -> Forall has_score l ->
  StronglySorted score_ge l ->
  StronglySorted score_ge (insert_by by_score x l).
Proof.
  intros x l Hx Hl Hs. induction Hs as [|y l Hs IH Hy]; simpl.
  - repeat constructor.
  - inversion Hl as [|? ? Hy' Hl']; subst.
    destruct (by_score x y <=? 0) eqn:E.
    + apply Z.leb_le in E. apply by_score_le in E; [|assumption..].
      constructor; [now constructor|].
      constructor; [exact E|].
      eapply Forall_impl; [|exact Hy]. intros z Hz.
      eapply score_ge_trans; eassumption.
    + apply Z.leb_gt in E. constructor; [now apply IH|].
      apply Forall_forall. intros z Hz.
      apply (Permutation_in _ (insert_by_permutation by_score x l)) in Hz.
      destruct Hz as [<- | Hz].
      * apply score_ge_total; [assumption..|].
        intros G. apply by_score_le in G; [lia|assumption..].
      * now apply (proj1 (Forall_forall _ _) Hy).
Qed.

Lemma sort_by_score_sorted : forall l,
  Forall has_score l -> StronglySorted score_ge (sort_by by_score l).
Proof.
  induction l as [|x l IH]; intros H; simpl; [constructor|].
  inversion H; subst. apply insert_by_score_sorted; auto.
  apply Forall_forall. intros z Hz. apply sort_by_In in Hz.
  now apply (proj1 (Forall_forall _ _) H3).
Qed.

(** ** Text scoring *)

Lemma tag_loop_count : forall (p : Tag -> bool) ts acc,
  fold_left (fun score tag => if p tag then score + 3 else score) ts acc
  = acc + 3 * count_if p ts.
Proof.
  unfold count_if.
  induction ts as [|t ts IH]; intros acc; cbn [fold_left filter];
    [cbn [List.length]; lia|].
  rewrite IH. destruct (p t); cbn [List.length];
    rewrite ?Nat2Z.inj_succ; lia.
Qed.

(** One turn of the loop adds the points of the term. *)
Lemma add_term_points : forall e score term,
  is_empty term = false ->
  add_term e score term = score + term_points e term.
Proof.
  intros e score term Hterm. unfold add_term, term_points.
  assert (Hcat :
    (truthy (category_name (note e))
     && includes (toLowerCase (or_empty (category_name (note e)))) term)%bool
    = includes (toLowerCase (or_empty (category_name (note e)))) term).
  { destruct (category_name (note e)) as [[|c s]|]; simpl truthy;
      try reflexivity; simpl or_empty; simpl toLowerCase;
      rewrite includes_empty_string; try reflexivity;
      now destruct term. }
  rewrite Hcat. unfold array_length, count_if.
  destruct (tags (note e)) as [ts|].
  - rewrite tag_loop_count. unfold count_if.
    repeat match goal with |- context [if ?b then _ else _] => destruct b end;
      lia.
  - simpl filter. simpl List.length.
    repeat match goal with |- context [if ?b then _ else _] => destruct b end;
      lia.
Qed.

Lemma score_loop_sum : forall e terms acc,
  Forall (fun t => is_empty t = false) terms ->
  fold_left (add_term e) terms acc
  = acc + sum_Z (List.map (term_points e) terms).
Proof.
  induction terms as [|t terms IH]; intros acc H; simpl; [lia|].
  inversion H; subst. rewrite IH by assumption.
  rewrite add_term_points by assumption. lia.
Qed.

Lemma calculateRelevanceScore_relevance : forall e query,
  calculateRelevanceScore e (queryTerms_of query) = relevance e query.
Proof.
  intros e query. unfold calculateRelevanceScore, relevance.
  rewrite queryTerms_words, score_loop_sum; [lia | apply words_nonempty].
Qed.

Lemma term_points_nonneg : forall e term, 0 <= term_points e term.
Proof.
  intros e term. unfold term_points, count_if.
  repeat match goal with |- context [if ?b then _ else _] => destruct b end;
    lia.
Qed.

Lemma relevance_nonneg : forall e query, 0 <= relevance e query.
Proof.
  intros e query. unfold relevance.
  induction (words (toLowerCase query)) as [|t l IH]; simpl; [lia|].
  pose proof (term_points_nonneg e t). lia.
Qed.

Lemma with_score_scored : forall query h,
  with_score (queryTerms_of query) h = scored query h.
Proof.
  intros query h. unfold with_score, scored.
  now rewrite calculateRelevanceScore_relevance.
Qed.

Lemma score_positive_scored : forall query h,
  score_positive (scored query h) = negb (relevance (entry h) query =? 0).
Proof.
  intros query h. unfold score_positive, scored. cbn [score].
  pose proof (relevance_nonneg (entry h) query) as Hpos.
  destruct (relevance (entry h) query =? 0) eqn:E.
  - apply Z.eqb_eq in E. now rewrite E.
  - apply Z.eqb_neq in E. apply Z.gtb_lt. lia.
Qed.

Lemma positive_scores_kept : forall query notes,
  filter score_positive (List.map (with_score (queryTerms_of query)) notes)
  = List.map (scored query)
      (filter (fun h => negb (relevance (entry h) query =? 0)) notes).
Proof.
  intros query. induction notes as [|h notes IH]; [reflexivity|].
  cbn [List.map filter]. rewrite IH, with_score_scored, score_positive_scored.
  now destruct (negb (relevance (entry h) query =? 0)).
Qed.

(** C2. The score [filterByQuery] computes for an entry is the sum, over
    the words of the lower-cased query, of 10 for a match in the lower-cased
    title, 5 for a match in [searchableContent], 2 for each stored term that
    contains the word or is contained in it, 3 for a match in the lower-cased
    category name and 3 for each tag whose lower-cased name matches; the
    result holds the entries whose score is not 0, each copied with its
    score, and no other. *)
Theorem filterByQuery_scores : forall notes query,
  (forall e,
     calculateRelevanceScore e (queryTerms_of query)
     = sum_Z (List.map (term_points e) (words (toLowerCase query))))
  /\ Permutation
       (filterByQuery notes query)
       (List.map (scored query)
          (filter (fun h => negb (relevance (entry h) query =? 0)) notes)).
Proof.
  intros notes query. split.
  - intros e. apply calculateRelevanceScore_relevance.
  - unfold filterByQuery. rewrite positive_scores_kept.
    apply sort_by_permutation.
Qed.

(** ** The life cycle of the index *)

Section Lifecycle.
Variable store : nat -> Fetch.

Lemma for_each_index_set : forall notes st,
  for_each notes (fun n => index_set (id n) (index_entry n)) st
  = (Ok tt,
     {| searchIndex := built notes (searchIndex st);
        initialized := initialized st; calls := calls st |}).
Proof.
  induction notes as [|n notes IH]; intros st.
  - now destruct st.
  - cbn [for_each]. unfold bind at 1. unfold index_set at 1.
    unfold bind at 1. cbn [get_index put_index].
    rewrite IH. reflexivity.
Qed.

(** [initialize] never throws, and leaves [initialized_from]. *)
Lemma initialize_runs : forall st,
  initialize store st = (Ok tt, initialized_from store st).
Proof.
  intros st. unfold initialize, initialized_from, bind, get_initialized.
  destruct (initialized st) eqn:Hi; cbn [negb].
  - reflexivity.
  - unfold buildSearchIndex, try_catch, bind, getAllNotes.
    destruct (store (calls st)) as [notes|].
    + cbn [put_index]. rewrite for_each_index_set. reflexivity.
    + reflexivity.
Qed.

Lemma initialized_from_ready : forall st,
  initialized (initialized_from store st) = true.
Proof.
  intros st. unfold initialized_from.
  destruct (initialized st) eqn:Hi; [exact Hi|].
  now destruct (store (calls st)).
Qed.

Lemma initialized_from_of_ready : forall st,
  initialized st = true -> initialized_from store st = st.
Proof. intros st H. unfold initialized_from. now rewrite H. Qed.

(** C9. After a call of [initialize], a second call returns without
    asking the Note Store and leaves the state as it is: same entries, in
    the same number and order, same flag. *)
Theorem initialize_idempotent : forall st,
  let st1 := snd (initialize store st) in
  initialize store st1 = (Ok tt, st1)
  /\ searchIndex (snd (initialize store st1)) = searchIndex st1
  /\ List.length (searchIndex (snd (initialize store st1)))
     = List.length (searchIndex st1)
  /\ calls (snd (initialize store st1)) = calls st1.
Proof.
  intros st st1. subst st1. rewrite !initialize_runs. cbn [snd].
  rewrite initialized_from_of_ready by apply initialized_from_ready.
  repeat split.
Qed.
End Lifecycle.

(** ** The two paths of [search] *)

Section Paths.
Context {engine : Engine}.
Variable store : nat -> Fetch.

(** With a query or a category, tag or favorite filter, [search] returns
    the ranked hits of the index that [initialize] leaves. *)
Lemma search_indexed : forall query o st,
  no_criteria query o = false ->
  search store query o st
  = (Ok (Results
           (pipeline query o
              (map_values (searchIndex (initialized_from store st))))),
     initialized_from store st).
Proof.
  intros query o st H. unfold search, bind at 1.
  rewrite initialize_runs, H. reflexivity.
Qed.

(** Without them it returns what the Note Store lists, whatever the date
    range. *)
Lemma search_pass_through : forall query o st,
  no_criteria query o = true ->
  search store query o st
  = match getAllNotes store (initialized_from store st) with
    | (Ok notes, st') => (Ok (PassThrough notes), st')
    | (Thrown e, st') => (Thrown e, st')
    end.
Proof.
  intros query o st H. unfold search, bind at 1.
  rewrite initialize_runs, H. unfold bind.
  now destruct (getAllNotes store (initialized_from store st)) as [[?|?] ?].
Qed.
End Paths.

(** ** The scenario of section 8 and the error cases *)

(** C8, as the code runs it: the query "concurrency" matches note 1 in
    [searchableContent] (5) and in the stored term "concurrency" (2). *)
Theorem scenario_concurrency_score_7 :
  summary
    (fst (@search sample_engine scenario_store (Some "concurrency")
            default_options fresh))
  = Some [(1, Some 7)].
Proof. vm_compute. reflexivity. Qed.

(** C8, as stated: the result is not note 1 with score 5. *)
Lemma scenario_concurrency_score_not_5 :
  summary
    (fst (@search sample_engine scenario_store (Some "concurrency")
            default_options fresh))
  <> Some [(1, Some 5)].
Proof. vm_compute. discriminate. Qed.

(** C1, at an empty query with only a date range: no note of the corpus was
    updated on [T3], and [search] returns the whole corpus, unfiltered, from
    the Note Store; with a favorite filter added, the same range keeps no
    entry. *)
Theorem date_range_alone_passes_through :
  no_criteria None (with_date_range (Some T3) (Some T3)) = true
  /\ fst (@search sample_engine scenario_store None
            (with_date_range (Some T3) (Some T3)) fresh)
     = Ok (PassThrough [note1; note2])
  /\ fst (@search sample_engine scenario_store None
            {| categoryId := None; tagIds := []; isFavorite := Some true;
               dateRange := Some {| range_start := Some T3;
                                    range_end := Some T3 |};
               sortBy := "relevance"; limit := 50 |} fresh)
     = Ok (Results []).
Proof. vm_compute. repeat split. Qed.

(** C3, at a Note Store whose first listing fails: [initialize] returns
    without an error and marks the empty index as initialized, and the next
    [search] answers from that empty index without asking again. *)
Theorem failed_build_is_swallowed :
  @initialize failing_once fresh
  = (Ok tt, {| searchIndex := []; initialized := true; calls := 1 |})
  /\ @search sample_engine failing_once (Some "rust") default_options fresh
     = (Ok (Results []),
        {| searchIndex := []; initialized := true; calls := 1 |}).
Proof. vm_compute. split; reflexivity. Qed.

(** What does hold of C3: a rebuild whose listing fails keeps the entries
    of the index. *)
Lemma failed_rebuild_keeps_entries : forall store st,
  store (calls st) = Failed ->
  rebuildIndex store st
  = (Ok tt, {| searchIndex := searchIndex st; initialized := true;
               calls := S (calls st) |}).
Proof.
  intros store st H. unfold rebuildIndex, bind at 1. cbn [put_initialized].
  rewrite initialize_runs. unfold initialized_from. cbn. now rewrite H.
Qed.

(** C7, as stated: with an unparseable start of the date range, and with a
    negative limit, [search] returns a result and no error; with limit -1
    it returns the hits but the last one. *)
Lemma malformed_options_are_not_rejected :
  summary
    (fst (@search sample_engine scenario_store (Some "o")
            (with_date_range (Some "not a date") (Some T3)) fresh))
  = Some []
  /\ summary
       (fst (@search sample_engine scenario_store (Some "o")
               default_options fresh))
     = Some [(1, Some 19); (2, Some 19)]
  /\ summary
       (fst (@search sample_engine scenario_store (Some "o")
               (with_limit (-1)) fresh))
     = Some [(1, Some 19)].
Proof. vm_compute. repeat split. Qed.

Section NoValidation.
Context {engine : Engine}.

Lemma in_range_invalid_bound : forall r h,
  new_Date (range_start r) = None \/ new_Date (range_end r) = None ->
  in_range r h = false.
Proof.
  intros r h [H | H]; unfold in_range; rewrite H; unfold date_ge, date_le;
    destruct (updated h); reflexivity || apply andb_false_r.
Qed.

Lemma filter_none : forall A (p : A -> bool) l,
  (forall x, p x = false) -> filter p l = [].
Proof.
  intros A p l H. induction l as [|x l IH]; simpl; [reflexivity|].
  now rewrite H.
Qed.

Lemma sortResults_nil : forall sortBy query, sortResults [] sortBy query = [].
Proof.
  intros sortBy query. unfold sortResults.
  destruct (String.eqb sortBy "date"); [reflexivity|].
  destruct (String.eqb sortBy "title"); [reflexivity|].
  now destruct (truthy query && head_has_score [])%bool.
Qed.

Lemma slice0_negative : forall A (l : list A) limit,
  limit < 0 ->
  slice0 l limit = firstn (List.length l - Z.to_nat (- limit)) l.
Proof.
  intros A l limit H. unfold slice0.
  replace (limit <? 0) with true by (symmetry; apply Z.ltb_lt; exact H).
  f_equal. lia.
Qed.

(** C7, amended.  [search] checks none of its options.  On the indexed
    path it always returns hits: none when the start or the end of the
    date range has no time value, and, for a negative limit, the ranked
    hits without their last [- limit] elements. *)
Theorem search_does_not_validate : forall store query o st,
  no_criteria query o = false ->
  exists hits,
    search store query o st = (Ok (Results hits), initialized_from store st)
    /\ (forall r,
          dateRange o = Some r ->
          new_Date (range_start r) = None \/ new_Date (range_end r) = None ->
          hits = [])
    /\ (limit o < 0 ->
        let all :=
          ranked query o
            (map_values (searchIndex (initialized_from store st))) in
        hits = firstn (List.length all - Z.to_nat (- limit o)) all).
Proof.
  intros store query o st H. eexists. split; [now apply search_indexed|].
  split.
  - intros r Hr Hbad. unfold pipeline, ranked, criteria. rewrite Hr.
    unfold filterByDateRange.
    rewrite filter_none by (intros h; now apply in_range_invalid_bound).
    rewrite sortResults_nil. unfold slice0. now rewrite firstn_nil.
  - intros Hneg all. unfold pipeline. now apply slice0_negative.
Qed.
End NoValidation.

(** [search_does_not_validate] at an unparseable start of the range. *)
Lemma search_does_not_validate_witness :
  no_criteria (Some "o") (with_date_range (Some "not a date") (Some T3)) = false
  /\ exists hits,
       @search sample_engine scenario_store (Some "o")
         (with_date_range (Some "not a date") (Some T3)) fresh
       = (Ok (Results hits), initialized_from scenario_store fresh)
       /\ hits = [].
Proof.
  split; [reflexivity|].
  destruct (@search_does_not_validate sample_engine scenario_store (Some "o")
              (with_date_range (Some "not a date") (Some T3)) fresh
              eq_refl) as [hits [Hrun [Hdate _]]].
  exists hits. split; [exact Hrun|].
  apply (Hdate _ eq_refl). left. reflexivity.
Defined.

(** ** Suggestions *)

Lemma add_all_app : forall xs ys s,
  add_all (xs ++ ys) s = add_all ys (add_all xs s).
Proof. intros. unfold add_all. apply fold_left_app. Qed.

(** Adding the elements of a list to a set appends the first occurrences
    that the set did not hold. *)
Lemma add_all_first_occurrences : forall xs s,
  add_all xs s
  = (s ++ filter (fun y => negb (existsb (String.eqb y) s))
            (first_occurrences xs))%list.
Proof.
  induction xs as [|x xs IH]; intros s.
  - simpl. now rewrite app_nil_r.
  - change (add_all (x :: xs) s) with (add_all xs (set_add x s)).
    rewrite IH. unfold set_add. cbn [first_occurrences filter].
    destruct (existsb (String.eqb x) s) eqn:Hx; cbn [negb].
    + f_equal. rewrite filter_filter. apply filter_ext_in. intros y _.
      destruct (String.eqb y x) eqn:E; [|reflexivity].
      apply String.eqb_eq in E. subst y. now rewrite Hx.
    + rewrite <- app_assoc. cbn [app]. f_equal. f_equal.
      rewrite filter_filter. apply filter_ext. intros y.
      rewrite existsb_app. cbn [existsb]. rewrite orb_false_r.
      rewrite negb_orb. apply andb_comm.
Qed.

Lemma first_occurrences_In : forall l x,
  In x (first_occurrences l) <-> In x l.
Proof.
  induction l as [|y l IH]; intros x; [reflexivity|].
  cbn [first_occurrences In]. rewrite filter_In, IH, negb_true_iff.
  destruct (String.eqb x y) eqn:E.
  - apply String.eqb_eq in E. subst. intuition congruence.
  - apply String.eqb_neq in E. intuition congruence.
Qed.

Lemma NoDup_filter_string : forall (p : string -> bool) l,
  NoDup l -> NoDup (filter p l).
Proof.
  intros p l H. induction H as [|x l Hx H IH]; simpl; [constructor|].
  destruct (p x); [|exact IH]. constructor; [|exact IH].
  intros Hin. apply filter_In in Hin. tauto.
Qed.

Lemma first_occurrences_NoDup : forall l, NoDup (first_occurrences l).
Proof.
  induction l as [|x l IH]; [constructor|].
  cbn [first_occurrences]. constructor.
  - intros H. apply filter_In in H. destruct H as [_ H].
    now rewrite String.eqb_refl in H.
  - now apply NoDup_filter_string.
Qed.

Lemma NoDup_firstn_string : forall n (l : list string),
  NoDup l -> NoDup (firstn n l).
Proof.
  induction n as [|n IH]; intros l H; [constructor|].
  destruct H as [|x l Hx H]; [constructor|]. cbn [firstn].
  constructor; [|now apply IH].
  intros Hin. apply Hx. revert Hin. clear. revert l.
  induction n as [|n IH]; intros l Hin; [contradiction|].
  destruct l as [|y l]; [contradiction|].
  destruct Hin as [<- | Hin]; [now left | right; now apply IH].
Qed.

Lemma In_firstn : forall A n (l : list A) x, In x (firstn n l) -> In x l.
Proof.
  induction n as [|n IH]; intros l x H; [contradiction|].
  destruct l as [|y l]; [contradiction|].
  destruct H as [<- | H]; [now left | right; now apply IH].
Qed.

Lemma slice0_firstn : forall A (l : list A) k,
  0 <= k -> slice0 l k = firstn (Z.to_nat k) l.
Proof.
  intros A l k Hk. unfold slice0.
  replace (k <? 0) with false by (symmetry; apply Z.ltb_ge; exact Hk).
  destruct (Z_le_gt_dec k (Z.of_nat (List.length l))) as [Hle | Hgt].
  - now rewrite Z.min_l.
  - rewrite Z.min_r by lia. rewrite Nat2Z.id, firstn_all.
    symmetry. apply firstn_all2. lia.
Qed.

Section Passes.
Variable q : string.

Lemma title_pass_adds : forall entries s,
  fold_left (title_pass (toLowerCase q)) entries s
  = add_all (matching_titles q entries) s.
Proof.
  induction entries as [|e entries IH]; intros s; [reflexivity|].
  cbn [fold_left]. rewrite IH. unfold matching_titles, title_pass.
  cbn [List.map filter]. unfold contains_ci at 2.
  now destruct (includes _ (toLowerCase q)).
Qed.

Lemma tag_loop_adds : forall ts s,
  fold_left
    (fun acc tag =>
       if includes (toLowerCase (name tag)) (toLowerCase q)
       then set_add (name tag) acc else acc) ts s
  = add_all (filter (fun t => contains_ci t q) (List.map name ts)) s.
Proof.
  induction ts as [|t ts IH]; intros s; [reflexivity|].
  cbn [fold_left List.map filter]. rewrite IH. unfold contains_ci at 2.
  now destruct (includes _ (toLowerCase q)).
Qed.

Lemma tag_pass_adds : forall entries s,
  fold_left (tag_pass (toLowerCase q)) entries s
  = add_all (matching_tags q entries) s.
Proof.
  induction entries as [|e entries IH]; intros s; [reflexivity|].
  cbn [fold_left]. rewrite IH. unfold matching_tags.
  cbn [flat_map]. rewrite filter_app, add_all_app. f_equal.
  unfold tag_pass. destruct (tags (note e)) as [ts|]; [|reflexivity].
  apply tag_loop_adds.
Qed.

Lemma category_pass_adds : forall entries s,
  fold_left (category_pass (toLowerCase q)) entries s
  = add_all (matching_categories q entries) s.
Proof.
  induction entries as [|e entries IH]; intros s; [reflexivity|].
  cbn [fold_left]. rewrite IH. unfold matching_categories, category_pass.
  cbn [List.map filter]. unfold contains_ci at 2.
  destruct (category_name (note e)) as [[|c t]|]; cbn [truthy or_empty is_empty negb andb];
    try reflexivity.
  now destruct (includes _ (toLowerCase q)).
Qed.

(** The collection of the three passes. *)
Lemma suggestions_of_first_occurrences : forall entries,
  suggestions_of (toLowerCase q) entries
  = first_occurrences
      (matching_titles q entries ++ matching_tags q entries
       ++ matching_categories q entries).
Proof.
  intros entries. unfold suggestions_of.
  rewrite title_pass_adds, tag_pass_adds, category_pass_adds.
  rewrite <- !add_all_app, add_all_first_occurrences.
  cbn [app existsb negb].
  match goal with |- filter _ ?found = _ => induction found as [|x l IH] end;
    [reflexivity | cbn [filter]; now rewrite IH].
Qed.
End Passes.

(** [getSearchSuggestions] never throws. *)
Lemma getSearchSuggestions_runs : forall store query limit st,
  getSearchSuggestions store query limit st
  = (Ok (if (negb (truthy query) || (len (or_empty query) <? 2))%bool
         then []
         else slice0
                (suggestions_of (toLowerCase (or_empty query))
                   (map_values (searchIndex (initialized_from store st))))
                (match limit with Some k => k | None => 5 end)),
     initialized_from store st).
Proof.
  intros store query limit st. unfold getSearchSuggestions, bind at 1.
  rewrite initialize_runs.
  now destruct (negb (truthy query) || (len (or_empty query) <? 2))%bool.
Qed.

(** C5. For a query of fewer than 2 code units (or none) the suggestions
    are empty.  For a longer query and a limit [k >= 0] (5 when none is
    given) they are the first [k] of the first occurrences among the
    matching titles, then the matching tag names, then the matching category
    names of the index: at most [k] strings, pairwise distinct, each
    containing the query case-insensitively. *)
Theorem getSearchSuggestions_spec : forall store query limit st,
  let st' := initialized_from store st in
  let entries := map_values (searchIndex st') in
  let q := or_empty query in
  let k := match limit with Some k => k | None => 5 end in
  (len q < 2 -> getSearchSuggestions store query limit st = (Ok [], st'))
  /\ (2 <= len q -> 0 <= k ->
      exists found,
        getSearchSuggestions store query limit st = (Ok found, st')
        /\ found
           = firstn (Z.to_nat k)
               (first_occurrences
                  (matching_titles q entries ++ matching_tags q entries
                   ++ matching_categories q entries))
        /\ Z.of_nat (List.length found) <= k
        /\ NoDup found
        /\ Forall (fun s => contains_ci s q = true) found).
Proof.
  intros store query limit st st' entries q k.
  rewrite getSearchSuggestions_runs. fold st' q k entries. split.
  - intros Hshort.
    replace (len q <? 2) with true by (symmetry; apply Z.ltb_lt; exact Hshort).
    now rewrite orb_true_r.
  - intros Hlong Hk.
    replace (len q <? 2) with false by (symmetry; apply Z.ltb_ge; exact Hlong).
    assert (Htruthy : truthy query = true).
    { subst q. destruct query as [[|c s]|]; try reflexivity;
        unfold len in Hlong; simpl in Hlong; lia. }
    rewrite Htruthy. cbn [negb orb].
    rewrite suggestions_of_first_occurrences.
    rewrite slice0_firstn by exact Hk.
    eexists. split; [reflexivity|]. split; [reflexivity|].
    split; [|split].
    + rewrite length_firstn. lia.
    + apply NoDup_firstn_string, first_occurrences_NoDup.
    + apply Forall_forall. intros s Hs.
      apply In_firstn in Hs.
      apply (proj1 (first_occurrences_In _ _)) in Hs.
      rewrite !in_app_iff in Hs.
      unfold matching_titles, matching_tags, matching_categories in Hs.
      rewrite !filter_In in Hs.
      destruct Hs as [[_ H] | [[_ H] | [_ H]]]; try exact H.
      now apply andb_true_iff in H.
Qed.

(** [getSearchSuggestions_spec] on the corpus of the scenario, for the
    query "sys" and the default limit. *)
Lemma getSearchSuggestions_spec_witness :
  2 <= len "sys" /\ 0 <= 5
  /\ exists found,
       getSearchSuggestions scenario_store (Some "sys") None fresh
       = (Ok found, initialized_from scenario_store fresh)
       /\ found = ["systems"]
       /\ NoDup found.
Proof.
  split; [vm_compute; discriminate|]. split; [lia|].
  destruct (proj2 (getSearchSuggestions_spec scenario_store (Some "sys")
                     None fresh))
    as [found [Hrun [Hfound [_ [Hdistinct _]]]]].
  - vm_compute. discriminate.
  - lia.
  - exists found. split; [exact Hrun|]. split; [|exact Hdistinct].
    rewrite Hfound. vm_compute. reflexivity.
Defined.

(** ** Order of the results *)

Section Subsequences.
Variable A : Type.

Lemma subseq_refl : forall l : list A, subseq l l.
Proof. induction l; now constructor. Qed.

Lemma subseq_trans : forall l1 l2 l3 : list A,
  subseq l1 l2 -> subseq l2 l3 -> subseq l1 l3.
Proof.
  intros l1 l2 l3 H12 H23. revert l1 H12.
  induction H23 as [|x l2 l3 H23 IH|x l2 l3 H23 IH]; intros l1 H12.
  - exact H12.
  - constructor. now apply IH.
  - inversion H12; subst; constructor; now apply IH.
Qed.

Lemma subseq_filter : forall (p : A -> bool) l, subseq (filter p l) l.
Proof.
  induction l as [|x l IH]; simpl; [constructor|].
  destruct (p x); now constructor.
Qed.

Lemma subseq_filter_mono : forall (p : A -> bool) l1 l2,
  subseq l1 l2 -> subseq (filter p l1) (filter p l2).
Proof.
  intros p l1 l2 H. induction H as [|x l1 l2 H IH|x l1 l2 H IH]; simpl.
  - constructor.
  - destruct (p x); [now constructor | exact IH].
  - destruct (p x); [now constructor | exact IH].
Qed.

Lemma subseq_firstn : forall n (l : list A), subseq (firstn n l) l.
Proof.
  induction n as [|n IH]; intros l; simpl.
  - induction l; now constructor.
  - destruct l; [constructor | now constructor].
Qed.

Lemma subseq_slice0 : forall (l : list A) limit, subseq (slice0 l limit) l.
Proof. intros. apply subseq_firstn. Qed.

Lemma subseq_In : forall (l1 l2 : list A) x,
  subseq l1 l2 -> In x l1 -> In x l2.
Proof.
  intros l1 l2 x H. induction H; simpl; intuition.
Qed.

Lemma subseq_Forall : forall (P : A -> Prop) l1 l2,
  subseq l1 l2 -> Forall P l2 -> Forall P l1.
Proof.
  intros P l1 l2 H H2. apply Forall_forall. intros x Hx.
  eapply (proj1 (Forall_forall _ _) H2), subseq_In; eassumption.
Qed.

Lemma subseq_sorted : forall (R : A -> A -> Prop) l1 l2,
  subseq l1 l2 -> StronglySorted R l2 -> StronglySorted R l1.
Proof.
  intros R l1 l2 H. induction H as [|x l1 l2 H IH|x l1 l2 H IH]; intros Hs.
  - constructor.
  - inversion Hs; subst. now apply IH.
  - inversion Hs; subst. constructor; [now apply IH|].
    eapply subseq_Forall; eassumption.
Qed.
End Subsequences.

Lemma subseq_map : forall A B (f : A -> B) l1 l2,
  subseq l1 l2 -> subseq (List.map f l1) (List.map f l2).
Proof. intros A B f l1 l2 H. induction H; simpl; now constructor. Qed.

Lemma option_Z_eqb_eq : forall a b, option_Z_eqb a b = true -> a = b.
Proof.
  intros [x|] [y|] H; simpl in H; try discriminate; [|reflexivity].
  apply Z.eqb_eq in H. now subst.
Qed.

Lemma minus_or_zero_same : forall a, minus_or_zero a a = 0.
Proof. intros [x|]; simpl; lia. Qed.

Lemma same_score_ties : forall a x y,
  same_score a x = true -> same_score a y = true -> by_score x y <= 0.
Proof.
  intros a x y Hx Hy. apply option_Z_eqb_eq in Hx, Hy. unfold by_score.
  rewrite <- Hx, <- Hy, minus_or_zero_same. lia.
Qed.

Lemma hit_id_unscored : forall entries,
  List.map hit_id (unscored entries) = List.map (fun e => id (note e)) entries.
Proof. intros. unfold unscored. rewrite map_map. reflexivity. Qed.

Lemma hit_id_with_score : forall terms l,
  List.map hit_id (List.map (with_score terms) l) = List.map hit_id l.
Proof. intros. rewrite map_map. reflexivity. Qed.

Lemma filterByQuery_has_score : forall notes query,
  Forall has_score (filterByQuery notes query).
Proof.
  intros notes query. apply Forall_forall. intros h Hh.
  unfold filterByQuery in Hh. apply sort_by_In in Hh.
  apply filter_In in Hh. destruct Hh as [Hh _].
  apply in_map_iff in Hh. destruct Hh as [h0 [<- _]].
  unfold has_score, with_score. cbn [score]. discriminate.
Qed.

Lemma filterByQuery_sorted : forall notes query,
  StronglySorted score_ge (filterByQuery notes query).
Proof.
  intros notes query.
  pose proof (filterByQuery_has_score notes query) as H.
  unfold filterByQuery in *. apply sort_by_score_sorted.
  apply Forall_forall. intros h Hh.
  apply (proj1 (Forall_forall _ _) H). now apply sort_by_In.
Qed.

(** Among hits of one score, [filterByQuery] keeps the order it was given. *)
Lemma filterByQuery_stable : forall a (p : Hit -> bool) notes query,
  subseq
    (List.map hit_id
       (filter (fun h => (p h && same_score a h)%bool)
          (filterByQuery notes query)))
    (List.map hit_id notes).
Proof.
  intros a p notes query. unfold filterByQuery.
  rewrite sort_by_stable.
  - rewrite <- (hit_id_with_score (queryTerms_of query) notes).
    apply subseq_map.
    eapply subseq_trans; [apply subseq_filter|apply subseq_filter].
  - intros x y Hx Hy. apply andb_true_iff in Hx, Hy.
    eapply same_score_ties; [apply Hx | apply Hy].
Qed.

Section Ties.
Context {engine : Engine}.

Lemma ranked_from_scoring : forall query o entries,
  exists filtered,
    ranked query o entries = sortResults filtered (sortBy o) query
    /\ subseq filtered (after_scoring query entries).
Proof.
  intros query o entries. unfold ranked, after_scoring.
  cbv zeta. eexists. split; [reflexivity|].
  unfold criteria, filterByDateRange. cbv zeta.
  repeat match goal with
         | |- subseq (if ?c then _ else _) _ => destruct c
         | |- subseq (match ?c with Some _ => _ | None => _ end) _ =>
             destruct c
         | |- subseq (filter _ _) _ =>
             eapply subseq_trans; [apply subseq_filter|]
         end; apply subseq_refl.
Qed.

Lemma after_scoring_has_score : forall query entries,
  truthy query = true -> Forall has_score (after_scoring query entries).
Proof.
  intros query entries H. unfold after_scoring. rewrite H.
  apply filterByQuery_has_score.
Qed.

Lemma sortResults_mode : forall results sortBy query,
  (truthy query = true -> Forall has_score results) ->
  sortResults results sortBy query
  = sort_by (comparator (mode_of sortBy query)) results.
Proof.
  intros results sortBy query H. unfold sortResults, mode_of.
  destruct (String.eqb sortBy "date"); [reflexivity|].
  destruct (String.eqb sortBy "title"); [reflexivity|].
  destruct (truthy query); [|reflexivity]. cbn [andb].
  destruct results as [|h results]; [reflexivity|].
  specialize (H eq_refl). inversion H as [|? ? Hh _]; subst.
  unfold head_has_score, has_score in *.
  now destruct (score h).
Qed.

End Ties.

Lemma compare_units_refl : forall s, compare_units s s = 0.
Proof.
  induction s as [|c s IH]; simpl; [reflexivity|].
  now rewrite N.ltb_irrefl.
Qed.

(** C6, as stated: the two notes have the same title and the same time of
    update and note 1 was inserted first, but with the query "rust" sorted by
    date or by title note 2, whose score is higher, comes first. *)
Lemma ties_follow_the_score_not_the_insertion_order :
  (exists hits,
     @search sample_engine tie_store (Some "rust") (sorted_by "date") fresh
     = (Ok (Results hits), initialized_from tie_store fresh)
     /\ List.map hit_id hits = [2; 1]
     /\ ~ @ties_in_insertion_order sample_engine ByDate
            (initialized_from tie_store fresh) hits)
  /\ (exists hits,
        @search sample_engine tie_store (Some "rust") (sorted_by "title") fresh
        = (Ok (Results hits), initialized_from tie_store fresh)
        /\ List.map hit_id hits = [2; 1]
        /\ ~ @ties_in_insertion_order sample_engine ByTitle
               (initialized_from tie_store fresh) hits).
Proof.
  split.
  - rewrite search_indexed by reflexivity. eexists.
    split; [reflexivity|]. split; [vm_compute; reflexivity|].
    intros H.
    specialize (H {| entry := index_entry tie1; score := None |}).
    vm_compute in H.
    repeat match goal with
           | G : subseq _ _ |- _ => inversion G; clear G; subst
           end.
  - rewrite search_indexed by reflexivity. eexists.
    split; [reflexivity|]. split; [vm_compute; reflexivity|].
    intros H.
    specialize (H {| entry := index_entry tie1; score := None |}).
    vm_compute in H.
    repeat match goal with
           | G : subseq _ _ |- _ => inversion G; clear G; subst
           end.
Qed.

(** ** What [search] writes *)

Module RefsFacts.
Import Refs.

Lemma untouched_refl : forall st, untouched st st.
Proof.
  intros st. repeat split. exists []. now rewrite app_nil_r.
Qed.

Lemma untouched_trans : forall st1 st2 st3,
  untouched st1 st2 -> untouched st2 st3 -> untouched st1 st3.
Proof.
  intros st1 st2 st3 (Hi & Hr & Ha & c & Hh) (Hi' & Hr' & Ha' & c' & Hh').
  repeat split; try congruence.
  exists (c ++ c')%list. rewrite Hh', Hh. now rewrite app_assoc.
Qed.

(** The copies of [filterByQuery] are new objects, one per reference, at
    the end of the heap. *)
Lemma copies_are_new : forall (f : Hit -> Hit) refs st,
  exists copies,
    map_m (fun r => o <- read r ;; alloc (f o))%js refs st
    = (Ok (seq (List.length (heap st)) (List.length refs)),
       {| heap := heap st ++ copies; index := index st; ready := ready st;
          asked := asked st |})
    /\ List.length copies = List.length refs.
Proof.
  intros f. induction refs as [|r refs IH]; intros st.
  - exists []. split; [|reflexivity]. cbn. rewrite app_nil_r.
    now destruct st.
  - cbn [map_m]. unfold bind at 1. unfold bind at 1. cbn [read].
    cbn [alloc]. unfold bind at 1.
    match goal with
    | |- context [map_m _ refs ?st1] =>
        destruct (IH st1) as [copies [Hrun Hlen]]; rewrite Hrun
    end.
    cbn [heap index ready asked]. unfold bind, ret.
    exists (f (deref (heap st) r) :: copies). split.
    + rewrite length_app. cbn [List.length seq].
      rewrite Nat.add_1_r, <- app_assoc. reflexivity.
    + cbn [List.length]. now rewrite Hlen.
Qed.

Lemma filterByQuery_untouched : forall notes query st,
  exists refs st',
    filterByQuery notes query st = (Ok refs, st')
    /\ untouched st st'
    /\ Forall (fun r => (List.length (heap st) <= r)%nat) refs.
Proof.
  intros notes query st. unfold filterByQuery, bind at 1.
  destruct (copies_are_new (with_score (queryTerms_of query)) notes st)
    as [copies [Hrun Hlen]].
  rewrite Hrun. unfold bind, get_heap, ret. cbn [heap].
  eexists. eexists. split; [reflexivity|]. split.
  - repeat split. now exists copies.
  - apply Forall_forall. intros r Hr.
    apply sort_by_In in Hr. apply filter_In in Hr. destruct Hr as [Hr _].
    apply in_seq in Hr. lia.
Qed.
Section WithEngine.
Context {engine : Engine}.

Lemma sortResults_In : forall hp results sortBy query r,
  In r (sortResults hp results sortBy query) -> In r results.
Proof.
  intros hp results sortBy query r. unfold sortResults.
  repeat match goal with
         | |- context [if ?c then _ else _] => destruct c
         end; apply sort_by_In.
Qed.

(** The filters, the sort and the limit only select among the
    references they are given. *)
Lemma selected_among : forall hp query o results r,
  In r (slice0 (sortResults hp (criteria hp o results) (sortBy o) query)
          (limit o)) ->
  In r results.
Proof.
  intros hp query o results r H. unfold slice0 in H.
  apply In_firstn, sortResults_In in H. unfold criteria in H.
  cbv zeta in H.
  destruct (dateRange o); [apply filter_In in H; destruct H as [H _]|];
    (destruct (isFavorite o);
       [apply filter_In in H; destruct H as [H _]|]);
    (destruct (0 <? array_length (tagIds o));
       [apply filter_In in H; destruct H as [H _]|]);
    (destruct (truthy_id (categoryId o));
       [apply filter_In in H; destruct H as [H _]|]);
    exact H.
Qed.

Lemma pipeline_untouched : forall query o values st,
  exists refs st',
    pipeline query o values st = (Ok refs, st')
    /\ untouched st st'
    /\ (truthy query = true ->
        Forall (fun r => (List.length (heap st) <= r)%nat) refs)
    /\ (truthy query = false ->
        st' = st /\ Forall (fun r => In r values) refs).
Proof.
  intros query o values st. unfold pipeline, bind at 1.
  destruct (truthy query) eqn:Hq.
  - destruct (filterByQuery_untouched values (or_empty query) st)
      as [scored_refs [st1 [Hrun [Hsame Hnew]]]].
    rewrite Hrun. unfold bind, get_heap, ret.
    eexists. eexists. split; [reflexivity|]. split; [exact Hsame|].
    split; [|discriminate]. intros _.
    apply Forall_forall. intros r Hr. apply selected_among in Hr.
    now apply (proj1 (Forall_forall _ _) Hnew).
  - unfold ret at 1. unfold bind, get_heap, ret.
    eexists. eexists. split; [reflexivity|].
    split; [apply untouched_refl|]. split; [discriminate|].
    intros _. split; [reflexivity|].
    apply Forall_forall. intros r Hr. now apply selected_among in Hr.
Qed.

Section WithStore.
Variable store : nat -> Fetch.

Lemma initialize_when_ready : forall st,
  ready st = true -> initialize store st = (Ok tt, st).
Proof.
  intros st H. unfold initialize, bind, get_ready. now rewrite H.
Qed.

(** C10. On a Ready index [search] writes no object that existed
    before the call and leaves the map and the flag as they are, so that
    the index of a well-formed store holds the same entries, with the same
    fields, after the call.  The heap only grows, by the copies that carry
    a score: with a text query every reference returned points to such a
    copy, made during the call; without one the heap is unchanged and the
    references returned are those the index holds. *)
Theorem search_writes_no_index_entry : forall query o st,
  ready st = true ->
  exists out st',
    search store query o st = (out, st')
    /\ index st' = index st
    /\ ready st' = true
    /\ (exists copies, heap st' = (heap st ++ copies)%list)
    /\ (forall r,
          (r < List.length (heap st))%nat ->
          deref (heap st') r = deref (heap st) r)
    /\ (well_formed st ->
        searchIndex (values_of st') = searchIndex (values_of st))
    /\ (forall refs,
          out = Ok (IndexRefs refs) ->
          (truthy query = true ->
           Forall (fun r => (List.length (heap st) <= r)%nat) refs)
          /\ (truthy query = false ->
              heap st' = heap st
              /\ Forall (fun r => In r (map_values (index st))) refs)).
Proof.
  intros query o st Hready.
  assert (Hgrow : forall st', index st' = index st -> ready st' = ready st ->
            (exists copies, heap st' = (heap st ++ copies)%list) ->
            index st' = index st /\ ready st' = true
            /\ (exists copies, heap st' = (heap st ++ copies)%list)
            /\ (forall r, (r < List.length (heap st))%nat ->
                  deref (heap st') r = deref (heap st) r)
            /\ (well_formed st ->
                searchIndex (values_of st') = searchIndex (values_of st))).
  { intros st' Hi Hr [copies Hh].
    assert (Hold : forall r, (r < List.length (heap st))%nat ->
                     deref (heap st') r = deref (heap st) r).
    { intros r Hlt. unfold deref. rewrite Hh. now apply app_nth1. }
    split; [exact Hi|]. split; [congruence|].
    split; [now exists copies|]. split; [exact Hold|].
    intros Hwf. unfold values_of. cbn [searchIndex]. rewrite Hi.
    apply map_ext_in. intros kr Hkr.
    destruct (proj1 (Forall_forall _ _) Hwf kr Hkr) as [Hvalid _].
    now rewrite Hold. }
  unfold search, bind at 1. rewrite initialize_when_ready by exact Hready.
  destruct (no_criteria query o).
  - unfold bind, getAllNotes.
    destruct (store (asked st)) as [notes|]; eexists; eexists;
      (split; [reflexivity|]);
      (destruct (Hgrow
                   {| heap := heap st; index := index st; ready := ready st;
                      asked := S (asked st) |}
                   eq_refl eq_refl)
         as (Hi & Hr & Hc & Hd & Hv);
       [exists []; cbn [heap]; now rewrite app_nil_r|]);
      (split; [exact Hi|]); (split; [exact Hr|]); (split; [exact Hc|]);
      (split; [exact Hd|]); (split; [exact Hv|]);
      intros refs Hout; discriminate Hout.
  - unfold bind at 1, get_index at 1.
    destruct (pipeline_untouched query o (map_values (index st)) st)
      as [refs [st' [Hrun [Hsame [Hscored Hplain]]]]].
    unfold bind at 1. rewrite Hrun. unfold ret.
    eexists. eexists. split; [reflexivity|].
    destruct Hsame as (Hi0 & Hr0 & _ & Hc0).
    destruct (Hgrow st' Hi0 Hr0 Hc0) as (Hi & Hr & Hc & Hd & Hv).
    split; [exact Hi|]. split; [exact Hr|]. split; [exact Hc|].
    split; [exact Hd|]. split; [exact Hv|].
    intros refs' Hout. injection Hout as <-. split.
    + exact Hscored.
    + intros Hq. destruct (Hplain Hq) as [-> Hin]. now split.
Qed.
End WithStore.
End WithEngine.
End RefsFacts.

(** ** The two embeddings agree

    On a well-formed store, [Refs.search] returns references to the very
    objects that [search] returns as values. *)

Section MapThrough.
Variables (A B : Type) (f : A -> B).

Lemma map_insert_by : forall (cmp : B -> B -> Z) x l,
  List.map f (insert_by (fun a b => cmp (f a) (f b)) x l)
  = insert_by cmp (f x) (List.map f l).
Proof.
  intros cmp x. induction l as [|y l IH]; [reflexivity|].
  cbn [insert_by List.map]. destruct (cmp (f x) (f y) <=? 0);
    cbn [List.map]; [reflexivity | now rewrite IH].
Qed.

Lemma map_sort_by : forall (cmp : B -> B -> Z) l,
  List.map f (sort_by (fun a b => cmp (f a) (f b)) l)
  = sort_by cmp (List.map f l).
Proof.
  intros cmp. induction l as [|x l IH]; [reflexivity|].
  cbn [sort_by fold_right List.map]. rewrite map_insert_by.
  f_equal. exact IH.
Qed.

Lemma map_filter_through : forall (p : B -> bool) l,
  List.map f (filter (fun a => p (f a)) l) = filter p (List.map f l).
Proof.
  intros p. induction l as [|x l IH]; [reflexivity|].
  cbn [filter List.map]. destruct (p (f x)); cbn [List.map]; now rewrite IH.
Qed.

Lemma map_slice0 : forall l limit,
  List.map f (slice0 l limit) = slice0 (List.map f l) limit.
Proof.
  intros l limit. unfold slice0. rewrite length_map.
  symmetry. apply firstn_map.
Qed.
End MapThrough.

Module Refinement.
Lemma deref_old : forall hp more r,
  (r < List.length hp)%nat -> Refs.deref (hp ++ more) r = Refs.deref hp r.
Proof. intros. unfold Refs.deref. now apply app_nth1. Qed.

Lemma deref_copies : forall copies hp,
  List.map (Refs.deref (hp ++ copies)) (seq (List.length hp) (List.length copies))
  = copies.
Proof.
  induction copies as [|c copies IH]; intros hp; [reflexivity|].
  cbn [List.length seq List.map]. f_equal.
  - unfold Refs.deref. apply nth_middle.
  - specialize (IH (hp ++ [c])%list).
    rewrite length_app, Nat.add_1_r, <- app_assoc in IH. exact IH.
Qed.

(** Each copy is the object its reference pointed to when the call
    started, with a score. *)
Lemma copies_of_valid : forall (f : Hit -> Hit) refs st,
  Forall (fun r => (r < List.length (Refs.heap st))%nat) refs ->
  Refs.map_m (fun r => o <- Refs.read r ;; Refs.alloc (f o))%js refs st
  = (Ok (seq (List.length (Refs.heap st)) (List.length refs)),
     {| Refs.heap := Refs.heap st ++ List.map (fun r => f (Refs.deref (Refs.heap st) r)) refs;
        Refs.index := Refs.index st; Refs.ready := Refs.ready st; Refs.asked := Refs.asked st |}).
Proof.
  intros f. induction refs as [|r refs IH]; intros st Hvalid.
  - cbn. rewrite app_nil_r. now destruct st.
  - inversion Hvalid as [|? ? Hr Hrest]; subst.
    cbn [Refs.map_m]. unfold bind at 1. unfold bind at 1. cbn [Refs.read Refs.alloc].
    unfold bind at 1. rewrite IH; cbn [Refs.heap Refs.index Refs.ready Refs.asked].
    + unfold bind, ret. rewrite length_app. cbn [List.length seq List.map].
      rewrite Nat.add_1_r, <- app_assoc. cbn [app]. do 4 f_equal.
      apply map_ext_in. intros r' Hr'. f_equal. apply deref_old.
      now apply (proj1 (Forall_forall _ _) Hrest).
    + eapply Forall_impl; [|exact Hrest]. intros r' Hr'. cbn beta in *.
      rewrite length_app. lia.
Qed.

Lemma filterByQuery_shown : forall notes query st,
  Forall (fun r => (r < List.length (Refs.heap st))%nat) notes ->
  exists refs copies,
    Refs.filterByQuery notes query st
    = (Ok refs,
       {| Refs.heap := Refs.heap st ++ copies; Refs.index := Refs.index st; Refs.ready := Refs.ready st;
          Refs.asked := Refs.asked st |})
    /\ List.map (Refs.deref (Refs.heap st ++ copies)) refs
       = filterByQuery (List.map (Refs.deref (Refs.heap st)) notes) query.
Proof.
  intros notes query st Hvalid. unfold Refs.filterByQuery, bind at 1.
  rewrite copies_of_valid by exact Hvalid.
  unfold bind, Refs.get_heap, ret. cbn [Refs.heap].
  eexists. eexists. split; [reflexivity|].
  unfold Refs.see2, Refs.see, filterByQuery.
  rewrite (map_sort_by (Refs.deref _) by_score).
  rewrite (map_filter_through (Refs.deref _) score_positive).
  replace (List.length notes)
    with (List.length
            (List.map
               (fun r => with_score (queryTerms_of query)
                           (Refs.deref (Refs.heap st) r)) notes))
    by apply length_map.
  rewrite deref_copies. now rewrite map_map.
Qed.

Section WithEngine.
Context {engine : Engine}.

Lemma sortResults_shown : forall hp results sortBy query,
  List.map (Refs.deref hp) (Refs.sortResults hp results sortBy query)
  = sortResults (List.map (Refs.deref hp) results) sortBy query.
Proof.
  intros hp results sortBy query.
  unfold Refs.sortResults, sortResults, Refs.see2.
  assert (Hhead :
    head_has_score (List.map (Refs.deref hp) (firstn 1 results))
    = head_has_score (List.map (Refs.deref hp) results))
    by now destruct results.
  rewrite Hhead.
  repeat match goal with
         | |- context [if ?c then _ else _] => destruct c
         end; apply map_sort_by.
Qed.

Lemma criteria_shown : forall hp o results,
  List.map (Refs.deref hp) (Refs.criteria hp o results)
  = criteria o (List.map (Refs.deref hp) results).
Proof.
  intros hp o results.
  unfold Refs.criteria, criteria, filterByDateRange, Refs.see. cbv zeta.
  destruct (dateRange o); destruct (isFavorite o);
    destruct (0 <? array_length (tagIds o));
    destruct (truthy_id (categoryId o));
    rewrite ?(map_filter_through (Refs.deref hp)); reflexivity.
Qed.

Lemma pipeline_shown : forall query o values st,
  Forall (fun r => (r < List.length (Refs.heap st))%nat) values ->
  exists refs copies,
    Refs.pipeline query o values st
    = (Ok refs,
       {| Refs.heap := Refs.heap st ++ copies;
          Refs.index := Refs.index st; Refs.ready := Refs.ready st;
          Refs.asked := Refs.asked st |})
    /\ List.map (Refs.deref (Refs.heap st ++ copies)) refs
       = slice0
           (sortResults
              (criteria o
                 (if truthy query
                  then filterByQuery
                         (List.map (Refs.deref (Refs.heap st)) values)
                         (or_empty query)
                  else List.map (Refs.deref (Refs.heap st)) values))
              (sortBy o) query)
           (limit o).
Proof.
  intros query o values st Hvalid. unfold Refs.pipeline, bind at 1.
  destruct (truthy query).
  - destruct (filterByQuery_shown (or_empty query) st Hvalid)
      as [refs1 [copies [Hrun Hshown]]].
    rewrite Hrun. unfold bind, Refs.get_heap, ret. cbn [Refs.heap].
    eexists. exists copies. split; [reflexivity|].
    now rewrite map_slice0, sortResults_shown, criteria_shown, Hshown.
  - unfold ret at 1. unfold bind, Refs.get_heap, ret.
    eexists. exists []. split.
    + rewrite app_nil_r. now destruct st.
    + rewrite app_nil_r.
      now rewrite map_slice0, sortResults_shown, criteria_shown.
Qed.

(** The objects of the index, read through the map, are the entries of
    the state of values, without a score. *)
Lemma index_shown : forall st,
  Refs.well_formed st ->
  List.map (Refs.deref (Refs.heap st)) (map_values (Refs.index st))
  = unscored (map_values (searchIndex (Refs.values_of st))).
Proof.
  intros st Hwf. unfold unscored, map_values, Refs.values_of.
  cbn [searchIndex]. rewrite !map_map. apply map_ext_in.
  intros kr Hkr. cbn [snd].
  destruct (proj1 (Forall_forall _ _) Hwf kr Hkr) as [_ Hscore].
  assert (Heta : forall h : Hit,
            score h = None -> h = {| entry := entry h; score := None |})
    by (intros [e sc]; simpl; now intros ->).
  now apply Heta.
Qed.

Lemma values_of_grown : forall st copies,
  Refs.well_formed st ->
  Refs.values_of
    {| Refs.heap := Refs.heap st ++ copies; Refs.index := Refs.index st;
       Refs.ready := Refs.ready st; Refs.asked := Refs.asked st |}
  = Refs.values_of st.
Proof.
  intros st copies Hwf. unfold Refs.values_of.
  cbn [Refs.heap Refs.index Refs.ready Refs.asked]. f_equal.
  apply map_ext_in. intros kr Hkr.
  destruct (proj1 (Forall_forall _ _) Hwf kr Hkr) as [Hvalid _].
  now rewrite deref_old.
Qed.

(** On a Ready, well-formed store [Refs.search] and [search] return the
    same objects and leave the same state of values. *)
Lemma search_refines : forall store query o st,
  Refs.well_formed st -> Refs.ready st = true ->
  exists out st',
    Refs.search store query o st = (out, st')
    /\ search store query o (Refs.values_of st)
       = (Refs.shown (Refs.heap st') out, Refs.values_of st').
Proof.
  intros store query o st Hwf Hready.
  assert (Hinit : initialized_from store (Refs.values_of st)
                  = Refs.values_of st)
    by now apply initialized_from_of_ready.
  unfold Refs.search, bind at 1.
  rewrite RefsFacts.initialize_when_ready by exact Hready.
  destruct (no_criteria query o) eqn:Hpath.
  - rewrite search_pass_through by exact Hpath. rewrite Hinit.
    unfold bind, Refs.getAllNotes, getAllNotes.
    cbn [Refs.values_of calls initialized searchIndex].
    destruct (store (Refs.asked st)); eexists; eexists;
      (split; [reflexivity|]); reflexivity.
  - rewrite search_indexed by exact Hpath. rewrite Hinit.
    assert (Hvalid :
      Forall (fun r => (r < List.length (Refs.heap st))%nat)
        (map_values (Refs.index st))).
    { apply Forall_forall. intros r Hr. unfold map_values in Hr.
      apply in_map_iff in Hr. destruct Hr as [kr [<- Hkr]].
      now destruct (proj1 (Forall_forall _ _) Hwf kr Hkr). }
    destruct (pipeline_shown query o st Hvalid)
      as [refs [copies [Hrun Hshown]]].
    unfold bind at 1, Refs.get_index at 1. unfold bind at 1.
    rewrite Hrun. unfold ret. eexists. eexists. split; [reflexivity|].
    cbn [Refs.shown Refs.heap]. rewrite Hshown, values_of_grown by exact Hwf.
    rewrite index_shown by exact Hwf. reflexivity.
Qed.

Lemma map_set_through : forall (g : Refs.ref -> IndexEntry) k v m,
  List.map (fun kr => (fst kr, g (snd kr))) (map_set k v m)
  = map_set k (g v) (List.map (fun kr => (fst kr, g (snd kr))) m).
Proof.
  intros g k v. induction m as [|[k' v'] m IH]; [reflexivity|].
  cbn [map_set List.map fst snd]. destruct (k' =? k); cbn [List.map fst snd];
    [reflexivity | now rewrite IH].
Qed.

Lemma In_map_set : forall (k : Z) (v : Refs.ref) m kr,
  In kr (map_set k v m) -> kr = (k, v) \/ In kr m.
Proof.
  intros k v. induction m as [|[k' v'] m IH]; intros kr H.
  - destruct H as [<- | []]. now left.
  - cbn [map_set] in H. destruct (k' =? k).
    + destruct H as [<- | H]; [now left | right; now right].
    + destruct H as [<- | H]; [right; now left|].
      destruct (IH kr H) as [-> | Hin]; [now left | right; now right].
Qed.

(** The loop of [buildSearchIndex] keeps the store well formed and
    stores the entries that the loop over values stores. *)
Lemma build_loop_refines : forall notes st,
  Refs.well_formed st ->
  exists st',
    for_each notes
      (fun n =>
         r <- Refs.alloc {| entry := index_entry n; score := None |} ;;
         Refs.index_set (id n) r)%js st
    = (Ok tt, st')
    /\ Refs.well_formed st'
    /\ Refs.ready st' = Refs.ready st
    /\ Refs.asked st' = Refs.asked st
    /\ searchIndex (Refs.values_of st')
       = built notes (searchIndex (Refs.values_of st)).
Proof.
  induction notes as [|n notes IH]; intros st Hwf.
  - exists st. repeat split; assumption.
  - cbn [for_each]. unfold bind at 1. unfold bind at 1.
    cbn [Refs.alloc]. unfold Refs.index_set at 1, bind at 1.
    cbn [Refs.get_index Refs.put_index Refs.heap Refs.index Refs.ready
         Refs.asked].
    match goal with
    | |- context [for_each notes _ ?st1] => set (s1 := st1)
    end.
    assert (Hwf1 : Refs.well_formed s1).
    { apply Forall_forall. intros kr Hkr. subst s1.
      cbn [Refs.heap Refs.index] in *. rewrite length_app.
      apply In_map_set in Hkr. destruct Hkr as [-> | Hkr].
      - cbn [snd List.length]. split; [lia|].
        unfold Refs.deref. now rewrite nth_middle.
      - destruct (proj1 (Forall_forall _ _) Hwf kr Hkr) as [Hv Hs].
        split; [lia|]. now rewrite deref_old. }
    assert (Hstep :
      searchIndex (Refs.values_of s1)
      = map_set (id n) (index_entry n)
          (searchIndex (Refs.values_of st))).
    { unfold Refs.values_of, s1.
      cbn [searchIndex Refs.heap Refs.index].
      rewrite (map_set_through
                 (fun r => entry (Refs.deref (Refs.heap st ++ [_]) r))).
      f_equal.
      - unfold Refs.deref. now rewrite nth_middle.
      - apply map_ext_in. intros kr Hkr.
        destruct (proj1 (Forall_forall _ _) Hwf kr Hkr) as [Hv _].
        now rewrite deref_old. }
    destruct (IH s1 Hwf1) as [st' (Hrun & Hwf' & Hr & Ha & Hidx)].
    exists st'. rewrite Hrun. repeat split; try assumption.
    rewrite Hidx, Hstep. reflexivity.
Qed.

Lemma initialize_refines : forall store st,
  Refs.well_formed st ->
  exists st',
    Refs.initialize store st = (Ok tt, st')
    /\ Refs.well_formed st'
    /\ Refs.ready st' = true
    /\ Refs.values_of st' = initialized_from store (Refs.values_of st).
Proof.
  intros store st Hwf.
  unfold Refs.initialize, bind at 1, Refs.get_ready, initialized_from.
  cbn [Refs.values_of initialized calls searchIndex].
  destruct (Refs.ready st) eqn:Hready; cbn [negb].
  - exists st. repeat split; assumption.
  - unfold Refs.buildSearchIndex, try_catch, bind at 1, bind at 1.
    unfold Refs.getAllNotes.
    destruct (store (Refs.asked st)) as [notes|].
    + unfold bind at 1. cbn [Refs.put_index].
      match goal with
      | |- context [for_each notes _ ?st1] =>
          destruct (@build_loop_refines notes st1)
            as [st' (Hrun & Hwf' & Hr & Ha & Hidx)];
          [constructor|]
      end.
      rewrite Hrun. cbn [Refs.put_ready]. eexists.
      split; [reflexivity|]. split; [exact Hwf'|].
      split; [reflexivity|].
      unfold Refs.values_of in *.
      cbn [Refs.heap Refs.index Refs.ready Refs.asked searchIndex] in *.
      now rewrite Hidx, Ha.
    + cbn [ret Refs.put_ready]. unfold ret. cbn [Refs.put_ready].
      eexists. split; [reflexivity|].
      split; [exact Hwf|]. split; reflexivity.
Qed.

(** From any well-formed store, and so from a new service, the method
    over references and the method over values return the same objects
    and leave the same state of values. *)
Lemma search_refines_always : forall store query o st,
  Refs.well_formed st ->
  exists out st',
    Refs.search store query o st = (out, st')
    /\ search store query o (Refs.values_of st)
       = (Refs.shown (Refs.heap st') out, Refs.values_of st').
Proof.
  intros store query o st Hwf.
  destruct (initialize_refines store Hwf)
    as [st1 (Hinit & Hwf1 & Hready1 & Hvalues)].
  destruct (search_refines store query o Hwf1 Hready1)
    as [out [st' [Hrun Hpure]]].
  exists out, st'. split.
  - unfold Refs.search, bind at 1 in Hrun.
    rewrite RefsFacts.initialize_when_ready in Hrun by exact Hready1.
    unfold Refs.search, bind at 1. rewrite Hinit. exact Hrun.
  - rewrite <- Hpure.
    assert (Hsame : initialized_from store (Refs.values_of st1)
                    = initialized_from store (Refs.values_of st)).
    { rewrite Hvalues. apply initialized_from_of_ready,
        initialized_from_ready. }
    destruct (no_criteria query o) eqn:Hpath.
    + rewrite !search_pass_through by exact Hpath. now rewrite Hsame.
    + rewrite !search_indexed by exact Hpath. now rewrite Hsame.
Qed.
End WithEngine.
End Refinement.

(** [search_writes_no_index_entry] on the index built from the corpus of the
    scenario, for the query "concurrency": the two objects of the index read
    the same after the call, and the hit returned is a third object. *)
Lemma search_writes_no_index_entry_witness :
  let st := snd (Refs.initialize scenario_store Refs.empty) in
  Refs.ready st = true
  /\ exists out st',
       @Refs.search sample_engine scenario_store (Some "concurrency")
         default_options st = (out, st')
       /\ Refs.index st' = Refs.index st
       /\ (forall r,
             (r < List.length (Refs.heap st))%nat ->
             Refs.deref (Refs.heap st') r = Refs.deref (Refs.heap st) r)
       /\ searchIndex (Refs.values_of st') = searchIndex (Refs.values_of st).
Proof.
  intros st. split; [reflexivity|].
  destruct (@RefsFacts.search_writes_no_index_entry sample_engine
              scenario_store (Some "concurrency") default_options st
              eq_refl)
    as [out [st' (Hrun & Hindex & _ & _ & Hread & Hvalues & _)]].
  exists out, st'. split; [exact Hrun|]. split; [exact Hindex|].
  split; [exact Hread|]. apply Hvalues.
  repeat constructor.
Defined.

(* ================================================================== *)
(** * Further properties *)

(** ** Maps in insertion order *)

Section MapFacts.
Variable A : Type.
Implicit Types (m : list (Z * A)) (k : Z) (v : A).

Lemma map_get_set_same : forall m k v, map_get k (map_set k v m) = Some v.
Proof.
  induction m as [|[k' v'] m IH]; intros k v; cbn [map_set map_get].
  - now rewrite Z.eqb_refl.
  - destruct (k' =? k) eqn:E; cbn [map_get].
    + now rewrite Z.eqb_refl.
    + rewrite E. apply IH.
Qed.

Lemma map_get_set_other : forall m k k' v,
  k' <> k -> map_get k' (map_set k v m) = map_get k' m.
Proof.
  induction m as [|[k0 v0] m IH]; intros k k' v Hne; cbn [map_set map_get].
  - now replace (k =? k') with false by (symmetry; apply Z.eqb_neq; congruence).
  - destruct (k0 =? k) eqn:E; cbn [map_get].
    + apply Z.eqb_eq in E. subst k0.
      now replace (k =? k') with false
        by (symmetry; apply Z.eqb_neq; congruence).
    + destruct (k0 =? k'); [reflexivity | now apply IH].
Qed.

Lemma map_set_present : forall m k v,
  In k (map_keys m) -> map_keys (map_set k v m) = map_keys m.
Proof.
  induction m as [|[k' v'] m IH]; intros k v Hin; [contradiction|].
  cbn [map_set]. destruct (k' =? k) eqn:E.
  - apply Z.eqb_eq in E. now subst.
  - cbn [map_keys List.map fst] in *. f_equal. apply IH.
    destruct Hin as [Hin | Hin]; [|exact Hin].
    apply Z.eqb_neq in E. contradiction.
Qed.

Lemma map_set_absent : forall m k v,
  ~ In k (map_keys m) -> map_set k v m = (m ++ [(k, v)])%list.
Proof.
  induction m as [|[k' v'] m IH]; intros k v Hout; [reflexivity|].
  cbn [map_set]. cbn [map_keys List.map fst In] in Hout.
  destruct (k' =? k) eqn:E.
  - apply Z.eqb_eq in E. tauto.
  - cbn [app]. f_equal. apply IH. tauto.
Qed.

Lemma map_keys_set_In : forall m k v k',
  In k' (map_keys (map_set k v m)) <-> k' = k \/ In k' (map_keys m).
Proof.
  induction m as [|[k0 v0] m IH]; intros k v k'; cbn [map_set].
  - cbn. intuition.
  - destruct (k0 =? k) eqn:E.
    + apply Z.eqb_eq in E. subst k0. cbn. intuition.
    + cbn [map_keys List.map fst In]. unfold map_keys in IH. rewrite IH.
      intuition.
Qed.

Lemma map_set_NoDup : forall m k v,
  NoDup (map_keys m) -> NoDup (map_keys (map_set k v m)).
Proof.
  induction m as [|[k' v'] m IH]; intros k v H; cbn [map_set].
  - repeat constructor. intros [].
  - cbn [map_keys List.map fst] in H. inversion H as [|? ? Hout Hrest]; subst.
    destruct (k' =? k) eqn:E.
    + apply Z.eqb_eq in E. subst k'. cbn [map_keys List.map fst].
      now constructor.
    + cbn [map_keys List.map fst]. constructor; [|now apply IH].
      intros Hin. apply map_keys_set_In in Hin.
      apply Z.eqb_neq in E. destruct Hin as [-> | Hin]; tauto.
Qed.

Lemma map_get_In : forall m k v,
  NoDup (map_keys m) -> (map_get k m = Some v <-> In (k, v) m).
Proof.
  induction m as [|[k' v'] m IH]; intros k v H; cbn [map_get].
  - split; [discriminate | intros []].
  - cbn [map_keys List.map fst] in H. inversion H as [|? ? Hout Hrest]; subst.
    destruct (k' =? k) eqn:E.
    + apply Z.eqb_eq in E. subst k'. split.
      * intros [= ->]. now left.
      * intros [[= ->] | Hin]; [reflexivity|].
        exfalso. apply Hout. unfold map_keys.
        change k with (fst (k, v)). now apply in_map.
    + apply Z.eqb_neq in E. rewrite (IH k v Hrest). split.
      * intros Hin. now right.
      * intros [[= -> ->] | Hin]; [contradiction | exact Hin].
Qed.

Lemma map_get_absent : forall m k,
  map_get k m = None <-> ~ In k (map_keys m).
Proof.
  induction m as [|[k' v'] m IH]; intros k; cbn [map_get].
  - split; [intros _ [] | reflexivity].
  - cbn [map_keys List.map fst In]. destruct (k' =? k) eqn:E.
    + apply Z.eqb_eq in E. split; [discriminate | tauto].
    + apply Z.eqb_neq in E. rewrite IH. unfold map_keys. tauto.
Qed.

Lemma map_keys_delete : forall m k,
  map_keys (map_delete k m) = filter (fun k' => negb (k' =? k)) (map_keys m).
Proof.
  induction m as [|[k' v'] m IH]; intros k; [reflexivity|].
  cbn [map_delete filter map_keys List.map fst].
  unfold map_delete, map_keys in IH.
  destruct (negb (k' =? k)); cbn [List.map fst]; now rewrite IH.
Qed.

Lemma map_get_delete_same : forall m k, map_get k (map_delete k m) = None.
Proof.
  intros m k. apply map_get_absent. rewrite map_keys_delete.
  intros Hin. apply filter_In in Hin. destruct Hin as [_ Hne].
  now rewrite Z.eqb_refl in Hne.
Qed.

Lemma map_get_delete_other : forall m k k',
  k' <> k -> map_get k' (map_delete k m) = map_get k' m.
Proof.
  induction m as [|[k0 v0] m IH]; intros k k' Hne; [reflexivity|].
  cbn [map_delete filter fst map_get]. unfold map_delete in IH.
  destruct (k0 =? k) eqn:E; cbn [negb map_get].
  - apply Z.eqb_eq in E. subst k0.
    replace (k =? k') with false by (symmetry; apply Z.eqb_neq; congruence).
    now apply IH.
  - destruct (k0 =? k'); [reflexivity | now apply IH].
Qed.

Lemma map_delete_absent : forall m k,
  ~ In k (map_keys m) -> map_delete k m = m.
Proof.
  induction m as [|[k' v'] m IH]; intros k Hout; [reflexivity|].
  cbn [map_keys List.map fst In] in Hout.
  cbn [map_delete filter fst]. unfold map_delete in IH.
  replace (k' =? k) with false by (symmetry; apply Z.eqb_neq; tauto).
  cbn [negb]. f_equal. apply IH. tauto.
Qed.

Lemma map_delete_NoDup : forall m k,
  NoDup (map_keys m) -> NoDup (map_keys (map_delete k m)).
Proof.
  intros m k H. rewrite map_keys_delete.
  induction H as [|x l Hx H IH]; cbn [filter]; [constructor|].
  destruct (negb (x =? k)); [|exact IH]. constructor; [|exact IH].
  intros Hin. apply filter_In in Hin. tauto.
Qed.

Lemma map_delete_set_new : forall m k v,
  ~ In k (map_keys m) -> map_delete k (map_set k v m) = m.
Proof.
  intros m k v Hout. rewrite map_set_absent by exact Hout.
  unfold map_delete. rewrite filter_app. cbn [filter fst].
  rewrite Z.eqb_refl. cbn [negb]. rewrite app_nil_r.
  now apply map_delete_absent.
Qed.

Lemma map_set_set : forall m k v1 v2,
  map_set k v2 (map_set k v1 m) = map_set k v2 m.
Proof.
  induction m as [|[k' v'] m IH]; intros k v1 v2; cbn [map_set].
  - now rewrite Z.eqb_refl.
  - destruct (k' =? k) eqn:E; cbn [map_set].
    + now rewrite Z.eqb_refl.
    + rewrite E. f_equal. apply IH.
Qed.
End MapFacts.

(** ** Maintenance of the index *)

Lemma updateNoteInIndex_runs : forall n st,
  updateNoteInIndex n st
  = (Ok tt,
     if initialized st
     then {| searchIndex := map_set (id n) (index_entry n) (searchIndex st);
             initialized := initialized st; calls := calls st |}
     else st).
Proof.
  intros n [idx ready c]. unfold updateNoteInIndex, bind, get_initialized.
  cbn [initialized]. destruct ready; reflexivity.
Qed.

Lemma removeNoteFromIndex_runs : forall k st,
  removeNoteFromIndex k st
  = (Ok tt,
     {| searchIndex := map_delete k (searchIndex st);
        initialized := initialized st; calls := calls st |}).
Proof. reflexivity. Qed.

(** X1. [updateNoteInIndex] never throws.  Before the index is initialized
    it drops the note: the state is unchanged.  On an initialized index the
    note's entry is found under its identifier afterwards, every other key
    reads as before, and the order of the keys is kept: a key that was
    present keeps its place, a new one goes to the end. *)
Theorem updateNoteInIndex_upserts : forall n st,
  exists st',
    updateNoteInIndex n st = (Ok tt, st')
    /\ initialized st' = initialized st
    /\ calls st' = calls st
    /\ (initialized st = false -> st' = st)
    /\ (initialized st = true ->
        map_get (id n) (searchIndex st') = Some (index_entry n)
        /\ (forall k, k <> id n ->
              map_get k (searchIndex st') = map_get k (searchIndex st))
        /\ (In (id n) (map_keys (searchIndex st)) ->
            map_keys (searchIndex st') = map_keys (searchIndex st))
        /\ (~ In (id n) (map_keys (searchIndex st)) ->
            searchIndex st'
            = (searchIndex st ++ [(id n, index_entry n)])%list)).
Proof.
  intros n st. rewrite updateNoteInIndex_runs. eexists.
  split; [reflexivity|].
  destruct (initialized st) eqn:Hi; cbn [searchIndex initialized calls].
  - repeat split; try congruence.
    + apply map_get_set_same.
    + intros k Hk. now apply map_get_set_other.
    + apply map_set_present.
    + apply map_set_absent.
  - repeat split; try congruence; discriminate.
Qed.

(** X2. [removeNoteFromIndex] never throws, whether or not the index is
    initialized.  Afterwards the identifier is not found, every other key
    reads as before and the remaining keys keep their order; removing an
    identifier that is not in the index changes nothing. *)
Theorem removeNoteFromIndex_deletes : forall k st,
  exists st',
    removeNoteFromIndex k st = (Ok tt, st')
    /\ initialized st' = initialized st
    /\ calls st' = calls st
    /\ map_get k (searchIndex st') = None
    /\ (forall k', k' <> k ->
          map_get k' (searchIndex st') = map_get k' (searchIndex st))
    /\ map_keys (searchIndex st')
       = filter (fun k' => negb (k' =? k)) (map_keys (searchIndex st))
    /\ (~ In k (map_keys (searchIndex st)) -> st' = st).
Proof.
  intros k st. rewrite removeNoteFromIndex_runs. eexists.
  split; [reflexivity|]. cbn [searchIndex initialized calls].
  repeat split.
  - apply map_get_delete_same.
  - intros k' Hk'. now apply map_get_delete_other.
  - apply map_keys_delete.
  - intros Hout. rewrite map_delete_absent by exact Hout. now destruct st.
Qed.

(** X3. On an initialized index, adding a note whose identifier is new and
    then removing that identifier gives back the state before the two
    calls. *)
Theorem remove_undoes_insert : forall n st,
  initialized st = true ->
  ~ In (id n) (map_keys (searchIndex st)) ->
  (updateNoteInIndex n ;; removeNoteFromIndex (id n))%js st = (Ok tt, st).
Proof.
  intros n st Hready Hnew. unfold bind.
  rewrite updateNoteInIndex_runs, Hready, removeNoteFromIndex_runs.
  cbn [searchIndex initialized calls].
  rewrite map_delete_set_new by exact Hnew. rewrite <- Hready.
  now destruct st.
Qed.

Lemma remove_undoes_insert_witness :
  (updateNoteInIndex tie2 ;; removeNoteFromIndex 2)%js
    {| searchIndex := [(1, index_entry note1)]; initialized := true;
       calls := 1 |}
  = (Ok tt, {| searchIndex := [(1, index_entry note1)]; initialized := true;
               calls := 1 |}).
Proof.
  apply (@remove_undoes_insert tie2
           {| searchIndex := [(1, index_entry note1)]; initialized := true;
              calls := 1 |}).
  - reflexivity.
  - cbn. intros [H | []]. discriminate H.
Defined.

(** X4. Two updates under one identifier leave what the second alone
    leaves: the last write wins, and the key keeps the place it had. *)
Theorem update_last_write_wins : forall n1 n2 st,
  id n1 = id n2 ->
  (updateNoteInIndex n1 ;; updateNoteInIndex n2)%js st
  = updateNoteInIndex n2 st.
Proof.
  intros n1 n2 [idx ready c] Hid. unfold bind.
  rewrite (updateNoteInIndex_runs n1). cbn [searchIndex initialized calls].
  destruct ready; rewrite !updateNoteInIndex_runs;
    cbn [searchIndex initialized calls]; [|reflexivity].
  now rewrite Hid, map_set_set.
Qed.

Lemma update_last_write_wins_witness :
  (updateNoteInIndex note1 ;; updateNoteInIndex tie1)%js
    (initialized_from scenario_store fresh)
  = updateNoteInIndex tie1 (initialized_from scenario_store fresh).
Proof. apply update_last_write_wins. reflexivity. Defined.

(** ** What a build leaves *)

Lemma find_last : forall (A : Type) (p : A -> bool) l x,
  find p (l ++ [x])%list
  = match find p l with
    | Some y => Some y
    | None => if p x then Some x else None
    end.
Proof.
  induction l as [|y l IH]; intros x; cbn [app find]; [reflexivity|].
  destruct (p y); [reflexivity | apply IH].
Qed.

(** The entry stored last under a key is the one that is found. *)
Lemma map_get_built : forall notes m k,
  map_get k (built notes m)
  = match find (fun n => id n =? k) (rev notes) with
    | Some n => Some (index_entry n)
    | None => map_get k m
    end.
Proof.
  induction notes as [|n notes IH]; intros m k; [reflexivity|].
  cbn [built fold_left rev]. fold (built notes (map_set (id n) (index_entry n) m)).
  rewrite IH, find_last.
  destruct (find (fun n0 => id n0 =? k) (rev notes)); [reflexivity|].
  destruct (id n =? k) eqn:E.
  - apply Z.eqb_eq in E. subst k. apply map_get_set_same.
  - apply Z.eqb_neq in E. apply map_get_set_other. congruence.
Qed.

Lemma map_keys_built : forall notes m k,
  In k (map_keys (built notes m))
  <-> In k (List.map id notes) \/ In k (map_keys m).
Proof.
  induction notes as [|n notes IH]; intros m k.
  - cbn. tauto.
  - cbn [built fold_left]. fold (built notes (map_set (id n) (index_entry n) m)).
    rewrite IH, map_keys_set_In. cbn [List.map In]. intuition.
Qed.

Lemma built_distinct : forall notes m,
  NoDup (List.map id notes) ->
  (forall k, In k (List.map id notes) -> ~ In k (map_keys m)) ->
  built notes m
  = (m ++ List.map (fun n => (id n, index_entry n)) notes)%list.
Proof.
  induction notes as [|n notes IH]; intros m Hnodup Hfresh.
  - cbn. now rewrite app_nil_r.
  - cbn [built fold_left]. fold (built notes (map_set (id n) (index_entry n) m)).
    cbn [List.map] in Hnodup, Hfresh.
    inversion Hnodup as [|? ? Hn Hrest]; subst.
    rewrite map_set_absent by (apply Hfresh; now left).
    rewrite IH; [now rewrite <- app_assoc | exact Hrest |].
    intros k Hk Hin. unfold map_keys in Hin. rewrite map_app in Hin.
    apply in_app_or in Hin. destruct Hin as [Hin | [<- | []]].
    + apply (Hfresh k); [now right | exact Hin].
    + contradiction.
Qed.

Lemma index_ok_nil : index_ok [].
Proof. split; constructor. Qed.

Lemma index_ok_set : forall n m,
  index_ok m -> index_ok (map_set (id n) (index_entry n) m).
Proof.
  intros n m [Hkeys Hentries]. split; [now apply map_set_NoDup|].
  clear Hkeys. induction m as [|[k e] m IH]; cbn [map_set].
  - repeat constructor.
  - inversion Hentries as [|? ? Hhead Htail]; subst.
    destruct (k =? id n); constructor; auto; now split.
Qed.

Lemma index_ok_delete : forall k m, index_ok m -> index_ok (map_delete k m).
Proof.
  intros k m [Hkeys Hentries]. split; [now apply map_delete_NoDup|].
  unfold map_delete. apply Forall_forall. intros kv Hin.
  apply filter_In in Hin.
  now apply (proj1 (Forall_forall _ _) Hentries).
Qed.

Lemma index_ok_built : forall notes m, index_ok m -> index_ok (built notes m).
Proof.
  induction notes as [|n notes IH]; intros m H; [exact H|].
  cbn [built fold_left]. apply IH. now apply index_ok_set.
Qed.

Lemma index_ok_initialized_from : forall store st,
  index_ok (searchIndex st) ->
  index_ok (searchIndex (initialized_from store st)).
Proof.
  intros store st H. unfold initialized_from.
  destruct (initialized st); [exact H|].
  destruct (store (calls st)); cbn [searchIndex]; [|exact H].
  apply index_ok_built, index_ok_nil.
Qed.

Section Builds.
Variable store : nat -> Fetch.

(** X5. When the Note Store lists [notes], the first [initialize] replaces
    whatever the map held by one entry per identifier of the listing: the
    keys are those identifiers, each once; under a key is the entry derived
    from the last note of the listing with that identifier; and when the
    identifiers of the listing are distinct the map holds the entries of the
    notes in the order of the listing. *)
Theorem build_indexes_the_listing : forall notes st,
  initialized st = false ->
  store (calls st) = Listed notes ->
  exists st',
    initialize store st = (Ok tt, st')
    /\ initialized st' = true
    /\ index_ok (searchIndex st')
    /\ (forall k, In k (map_keys (searchIndex st'))
                  <-> In k (List.map id notes))
    /\ (forall k,
          map_get k (searchIndex st')
          = option_map index_entry
              (find (fun n => id n =? k) (rev notes)))
    /\ (NoDup (List.map id notes) ->
        searchIndex st'
        = List.map (fun n => (id n, index_entry n)) notes).
Proof.
  intros notes st Hnew Hlisted. rewrite initialize_runs.
  unfold initialized_from. rewrite Hnew, Hlisted. eexists.
  split; [reflexivity|]. cbn [searchIndex initialized].
  split; [reflexivity|]. split; [apply index_ok_built, index_ok_nil|].
  split; [|split].
  - intros k. rewrite map_keys_built. cbn. tauto.
  - intros k. rewrite map_get_built.
    now destruct (find (fun n => id n =? k) (rev notes)).
  - intros Hdistinct. rewrite built_distinct; auto.
Qed.

(** X6. Every method keeps the map well formed: no key twice, every entry
    stored under the identifier of its note and carrying the content and
    terms derived from that note.  This holds for the state each method
    leaves, also when it throws. *)
Theorem methods_keep_the_index_well_formed :
  forall {engine : Engine} st n k query o limit,
  index_ok (searchIndex st) ->
  index_ok (searchIndex (snd (initialize store st)))
  /\ index_ok (searchIndex (snd (rebuildIndex store st)))
  /\ index_ok (searchIndex (snd (updateNoteInIndex n st)))
  /\ index_ok (searchIndex (snd (removeNoteFromIndex k st)))
  /\ index_ok (searchIndex (snd (search store query o st)))
  /\ index_ok (searchIndex (snd (getSearchSuggestions store query limit st)))
  /\ index_ok (searchIndex (snd (getSearchStats st))).
Proof.
  intros engine st n k query o limit H.
  pose proof (index_ok_initialized_from store st H) as Hinit.
  split; [now rewrite initialize_runs|]. split.
  { unfold rebuildIndex, bind. cbn [put_initialized].
    rewrite initialize_runs. cbn [snd].
    now apply index_ok_initialized_from. }
  split.
  { rewrite updateNoteInIndex_runs. cbn [snd].
    destruct (initialized st); [|exact H]. now apply index_ok_set. }
  split; [now apply index_ok_delete|]. split.
  { destruct (no_criteria query o) eqn:Hpath.
    - rewrite search_pass_through by exact Hpath. unfold getAllNotes.
      now destruct (store (calls (initialized_from store st))).
    - now rewrite search_indexed. }
  split; [now rewrite getSearchSuggestions_runs | exact H].
Qed.

(** X7. [rebuildIndex] with a listing that succeeds leaves the index that
    a new service builds from the same listing, whatever the index held
    and whether or not it was initialized. *)
Theorem rebuild_is_a_fresh_build : forall notes st,
  store (calls st) = Listed notes ->
  exists st',
    rebuildIndex store st = (Ok tt, st')
    /\ searchIndex st'
       = searchIndex (snd (initialize (fun _ => Listed notes) fresh))
    /\ initialized st' = true
    /\ calls st' = S (calls st).
Proof.
  intros notes st Hlisted. unfold rebuildIndex, bind.
  cbn [put_initialized]. rewrite !initialize_runs.
  unfold initialized_from. cbn [initialized calls snd fresh].
  rewrite Hlisted. eexists. repeat split.
Qed.
End Builds.

Lemma build_indexes_the_listing_witness :
  exists st',
    initialize scenario_store fresh = (Ok tt, st')
    /\ searchIndex st' = [(1, index_entry note1); (2, index_entry note2)].
Proof.
  destruct (@build_indexes_the_listing scenario_store [note1; note2] fresh
              eq_refl eq_refl)
    as [st' (Hrun & _ & _ & _ & _ & Hdistinct)].
  exists st'. split; [exact Hrun|]. apply Hdistinct.
  repeat constructor; cbn; intuition discriminate.
Defined.

Lemma methods_keep_the_index_well_formed_witness :
  index_ok (searchIndex fresh)
  /\ index_ok
       (searchIndex
          (snd (@search sample_engine scenario_store (Some "rust")
                  default_options fresh))).
Proof.
  split; [apply index_ok_nil|].
  apply (@methods_keep_the_index_well_formed scenario_store sample_engine
           fresh note1 1 (Some "rust") default_options None index_ok_nil).
Defined.

Lemma rebuild_is_a_fresh_build_witness :
  exists st',
    rebuildIndex scenario_store
      {| searchIndex := [(7, index_entry tie1)]; initialized := true;
         calls := 3 |}
    = (Ok tt, st')
    /\ searchIndex st'
       = searchIndex
           (snd (initialize (fun _ => Listed [note1; note2]) fresh)).
Proof.
  destruct (@rebuild_is_a_fresh_build scenario_store [note1; note2]
              {| searchIndex := [(7, index_entry tie1)];
                 initialized := true; calls := 3 |} eq_refl)
    as [st' (Hrun & Hsame & _)].
  exists st'. now split.
Defined.

(** ** Statistics *)

Lemma count_terms_from : forall entries acc,
  fold_left (fun total e => total + array_length (searchTerms e)) entries acc
  = acc + sum_Z (List.map (fun e => array_length (searchTerms e)) entries).
Proof.
  induction entries as [|e entries IH]; intros acc; cbn [fold_left List.map sum_Z fold_right].
  - lia.
  - rewrite IH. unfold sum_Z. lia.
Qed.

Lemma count_terms_sum : forall entries,
  count_terms entries
  = sum_Z (List.map (fun e => array_length (searchTerms e)) entries).
Proof. intros. unfold count_terms. rewrite count_terms_from. lia. Qed.

Lemma count_terms_app : forall l1 l2,
  count_terms (l1 ++ l2) = count_terms l1 + count_terms l2.
Proof.
  intros l1 l2. rewrite !count_terms_sum, map_app. unfold sum_Z.
  induction (List.map (fun e => array_length (searchTerms e)) l1) as [|x l IH];
    cbn [app fold_right]; lia.
Qed.

(** X8. [getSearchStats] changes nothing.  On an initialized index, after
    [updateNoteInIndex] of a note whose identifier is new the count of notes
    is one more and the count of terms is larger by the number of search
    terms of that note. *)
Theorem stats_after_insert : forall n st,
  initialized st = true ->
  ~ In (id n) (map_keys (searchIndex st)) ->
  exists before after st',
    getSearchStats st = (Ok before, st)
    /\ updateNoteInIndex n st = (Ok tt, st')
    /\ getSearchStats st' = (Ok after, st')
    /\ totalNotes after = totalNotes before + 1
    /\ totalTerms after
       = totalTerms before
         + array_length (generateSearchTerms (extractSearchableContent n)).
Proof.
  intros n st Hready Hnew. rewrite updateNoteInIndex_runs, Hready.
  rewrite map_set_absent by exact Hnew.
  eexists. eexists. eexists.
  split; [reflexivity|]. split; [reflexivity|]. split; [reflexivity|].
  cbn [totalNotes totalTerms searchIndex]. unfold array_length, map_values.
  rewrite length_app, map_app, count_terms_app. cbn [List.length List.map snd].
  split; [lia|]. f_equal.
Qed.

Lemma stats_after_insert_witness :
  exists before after st',
    getSearchStats (initialized_from failing_once fresh) = (Ok before, initialized_from failing_once fresh)
    /\ updateNoteInIndex note1 (initialized_from failing_once fresh)
       = (Ok tt, st')
    /\ getSearchStats st' = (Ok after, st')
    /\ totalNotes after = totalNotes before + 1.
Proof.
  destruct (@stats_after_insert note1 (initialized_from failing_once fresh))
    as [before [after [st' (H1 & H2 & H3 & H4 & _)]]].
  - reflexivity.
  - intros [].
  - exists before, after, st'. auto.
Defined.

(** X9. After a build from a listing whose identifiers are distinct,
    [getSearchStats] reports as many notes as the listing has and the sum
    of their numbers of search terms; on an empty index it reports 0 notes,
    0 terms and the average 0. *)
Theorem stats_after_build : forall store notes st,
  initialized st = false ->
  store (calls st) = Listed notes ->
  NoDup (List.map id notes) ->
  exists stats st',
    (initialize store ;; getSearchStats)%js st = (Ok stats, st')
    /\ totalNotes stats = array_length notes
    /\ totalTerms stats
       = sum_Z
           (List.map
              (fun n => array_length
                          (generateSearchTerms (extractSearchableContent n)))
              notes)
    /\ (notes = [] -> avgTermsPerNote stats = Zero).
Proof.
  intros store notes st Hnew Hlisted Hdistinct. unfold bind.
  rewrite initialize_runs. unfold initialized_from.
  rewrite Hnew, Hlisted, built_distinct by (auto; intros k _ []).
  cbn [app]. eexists. eexists. split; [reflexivity|].
  cbn [totalNotes totalTerms avgTermsPerNote searchIndex].
  unfold array_length, map_values. rewrite length_map, count_terms_sum.
  rewrite !map_map. cbn [snd index_entry searchTerms].
  repeat split. intros ->. reflexivity.
Qed.

Lemma stats_after_build_witness :
  exists stats st',
    (initialize scenario_store ;; getSearchStats)%js fresh = (Ok stats, st')
    /\ totalNotes stats = 2.
Proof.
  destruct (@stats_after_build scenario_store [note1; note2] fresh
              eq_refl eq_refl)
    as [stats [st' (Hrun & Hnotes & _)]].
  - repeat constructor; cbn; intuition discriminate.
  - exists stats, st'. split; [exact Hrun|]. exact Hnotes.
Defined.

(** ** What the indexed path returns *)

Lemma filter_everything : forall A (l : list A), filter (fun _ => true) l = l.
Proof. induction l as [|x l IH]; cbn [filter]; congruence. Qed.

Lemma filter_when : forall A (c : bool) (p : A -> bool) l,
  (if c then filter p l else l) = filter (fun x => if c then p x else true) l.
Proof. intros A [] p l; [reflexivity | now rewrite filter_everything]. Qed.

Section Exactness.
Context {engine : Engine}.

(** The four filters of [search] keep the hits that meet every criterion
    the options set. *)
Lemma criteria_meets : forall o results,
  criteria o results = filter (meets o) results.
Proof.
  intros o results. unfold criteria, meets, filterByDateRange. cbv zeta.
  rewrite !filter_when.
  destruct (dateRange o); destruct (isFavorite o);
    rewrite !filter_filter; apply filter_ext; intros h;
    rewrite ?andb_true_r, ?andb_assoc; reflexivity.
Qed.

Lemma sortResults_permutation : forall results sortBy query,
  Permutation (sortResults results sortBy query) results.
Proof.
  intros results sortBy query. unfold sortResults.
  repeat match goal with
         | |- context [if ?c then _ else _] => destruct c
         end; apply sort_by_permutation.
Qed.

Lemma ranked_permutation : forall query o entries,
  Permutation (ranked query o entries)
    (filter (meets o) (after_scoring query entries)).
Proof.
  intros query o entries. unfold ranked, after_scoring. cbv zeta.
  rewrite criteria_meets. apply sortResults_permutation.
Qed.

Lemma after_scoring_hits : forall query entries h,
  In h (after_scoring query entries) ->
  In (entry h) entries
  /\ score h
     = if truthy query
       then Some (calculateRelevanceScore (entry h)
                    (queryTerms_of (or_empty query)))
       else None.
Proof.
  intros query entries h. unfold after_scoring.
  destruct (truthy query).
  - unfold filterByQuery. intros Hin. apply sort_by_In in Hin.
    apply filter_In in Hin. destruct Hin as [Hin _].
    apply in_map_iff in Hin. destruct Hin as [h0 [<- Hin]].
    unfold unscored in Hin. apply in_map_iff in Hin.
    destruct Hin as [e [<- Hin]]. now split.
  - unfold unscored. intros Hin. apply in_map_iff in Hin.
    destruct Hin as [e [<- Hin]]. now split.
Qed.


Variable store : nat -> Fetch.


(** X11. With a limit that is not negative, [search] on the indexed path
    returns as many hits as there are matching entries, but no more than the
    limit; with the limit 0 it returns none. *)
Theorem search_respects_the_limit : forall query o st,
  no_criteria query o = false ->
  0 <= limit o ->
  let entries := map_values (searchIndex (initialized_from store st)) in
  let matching := filter (meets o) (after_scoring query entries) in
  exists hits,
    search store query o st
    = (Ok (Results hits), initialized_from store st)
    /\ array_length hits = Z.min (limit o) (array_length matching)
    /\ array_length hits <= limit o
    /\ (limit o = 0 -> hits = []).
Proof.
  intros query o st Hpath Hlimit entries matching.
  eexists. split; [now apply search_indexed|]. fold entries.
  unfold pipeline. rewrite slice0_firstn by exact Hlimit.
  unfold array_length. rewrite length_firstn.
  rewrite (Permutation_length (ranked_permutation query o entries)).
  fold matching. repeat split; try lia.
  intros ->. reflexivity.
Qed.
End Exactness.


Lemma search_respects_the_limit_witness :
  no_criteria (Some "o") (with_limit 1) = false /\ 0 <= limit (with_limit 1)
  /\ exists hits,
       @search sample_engine scenario_store (Some "o") (with_limit 1) fresh
       = (Ok (Results hits), initialized_from scenario_store fresh)
       /\ array_length hits <= 1.
Proof.
  split; [reflexivity|]. split; [cbn; lia|].
  destruct (@search_respects_the_limit sample_engine scenario_store
              (Some "o") (with_limit 1) fresh eq_refl)
    as [hits (Hrun & _ & Hmax & _)].
  - cbn. lia.
  - exists hits. split; [exact Hrun | exact Hmax].
Defined.

(** ** The date range and the order of the hits *)

Section Dates.
Context {engine : Engine}.

(** X12. [filterByDateRange] keeps, in their order, exactly the notes whose
    time of update is valid and lies between the two bounds, both included;
    with a bound that has no time value, or a start after the end, it keeps
    none. *)
Theorem filterByDateRange_inclusive : forall notes r,
  subseq (filterByDateRange notes r) notes
  /\ (forall h,
        In h (filterByDateRange notes r)
        <-> In h notes
            /\ exists s e t,
                 new_Date (range_start r) = Some s
                 /\ new_Date (range_end r) = Some e
                 /\ updated h = Some t
                 /\ s <= t <= e)
  /\ (forall s e,
        new_Date (range_start r) = Some s ->
        new_Date (range_end r) = Some e ->
        e < s -> filterByDateRange notes r = []).
Proof.
  intros notes r.
  assert (Hin : forall h,
    in_range r h = true
    <-> exists s e t,
          new_Date (range_start r) = Some s
          /\ new_Date (range_end r) = Some e
          /\ updated h = Some t /\ s <= t <= e).
  { intros h. unfold in_range, date_ge, date_le.
    destruct (updated h) as [t|], (new_Date (range_start r)) as [s|],
             (new_Date (range_end r)) as [e|]; cbn [andb];
      rewrite ?andb_false_r;
      try (split; [discriminate | intros (? & ? & ? & ? & ? & ? & ?);
                                  congruence]).
    rewrite andb_true_iff, !Z.leb_le. split.
    - intros [H1 H2]. exists s, e, t. repeat split; assumption.
    - intros (s' & e' & t' & [= <-] & [= <-] & [= <-] & H). exact H. }
  unfold filterByDateRange. split; [apply subseq_filter|]. split.
  - intros h. rewrite filter_In, Hin. reflexivity.
  - intros s e Hs He Hlt. apply filter_none. intros h.
    destruct (in_range r h) eqn:E; [|reflexivity].
    apply Hin in E. destruct E as (s' & e' & t & Hs' & He' & _ & H).
    rewrite Hs in Hs'. rewrite He in He'.
    injection Hs' as <-. injection He' as <-. lia.
Qed.
End Dates.

Section KeyOrder.
Variable key : Hit -> option Z.

Lemma insert_by_key_sorted : forall x l,
  key x <> None -> Forall (fun h => key h <> None) l ->
  StronglySorted (descending key) l ->
  StronglySorted (descending key)
    (insert_by (fun a b : Hit => minus_or_zero (key b) (key a)) x l).
Proof.
  intros x l Hx Hl Hs. induction Hs as [|y l Hs IH Hy]; cbn [insert_by].
  - repeat constructor.
  - inversion Hl as [|? ? Hy' Hl']; subst.
    assert (Hle : forall a b, key a <> None -> key b <> None ->
                    (minus_or_zero (key b) (key a) <= 0 <-> descending key a b)).
    { intros a b Ha Hb. unfold minus_or_zero, descending.
      destruct (key a); [|contradiction]. destruct (key b); [|contradiction].
      lia. }
    destruct (minus_or_zero (key y) (key x) <=? 0) eqn:E.
    + apply Z.leb_le in E. apply Hle in E; [|assumption..].
      constructor; [now constructor|]. constructor; [exact E|].
      eapply Forall_impl; [|exact Hy]. intros z Hz.
      unfold descending in *.
      destruct (key x), (key y), (key z); try tauto. lia.
    + apply Z.leb_gt in E. constructor; [now apply IH|].
      apply Forall_forall. intros z Hz.
      apply (Permutation_in _ (insert_by_permutation _ x l)) in Hz.
      destruct Hz as [<- | Hz].
      * destruct (Z_le_gt_dec (minus_or_zero (key x) (key y)) 0) as [Hyx | Hyx];
          [now apply Hle in Hyx|].
        exfalso. unfold minus_or_zero in E, Hyx.
        destruct (key x); [|contradiction]. destruct (key y); [|contradiction].
        lia.
      * now apply (proj1 (Forall_forall _ _) Hy).
Qed.

Lemma sort_by_key_sorted : forall l,
  Forall (fun h => key h <> None) l ->
  StronglySorted (descending key)
    (sort_by (fun a b : Hit => minus_or_zero (key b) (key a)) l).
Proof.
  induction l as [|x l IH]; intros H; cbn [sort_by fold_right]; [constructor|].
  inversion H as [|? ? Hx Hl]; subst. apply insert_by_key_sorted; auto.
  apply Forall_forall. intros z Hz. apply sort_by_In in Hz.
  now apply (proj1 (Forall_forall _ _) Hl).
Qed.
End KeyOrder.

(** Comparison by code units is a consistent comparator. *)
Lemma compare_units_values : forall a b,
  compare_units a b = -1 \/ compare_units a b = 0 \/ compare_units a b = 1.
Proof.
  induction a as [|x a IH]; intros [|y b]; cbn [compare_units]; auto.
  destruct (N.ltb (code x) (code y)); auto.
  destruct (N.ltb (code y) (code x)); auto.
Qed.

Lemma compare_units_eq : forall a b, compare_units a b = 0 <-> a = b.
Proof.
  induction a as [|x a IH]; intros [|y b]; cbn [compare_units];
    try (split; [reflexivity || discriminate | reflexivity || discriminate]).
  destruct (N.ltb_spec (code x) (code y)) as [L | G];
    [split; [discriminate | intros [= -> _]; lia]|].
  destruct (N.ltb_spec (code y) (code x)) as [L' | G'];
    [split; [discriminate | intros [= -> _]; lia]|].
  assert (Hc : x = y).
  { unfold code in *. rewrite <- (ascii_N_embedding x), <- (ascii_N_embedding y).
    f_equal. lia. }
  subst y. rewrite IH. split; [now intros -> | now intros [= ->]].
Qed.

Lemma compare_units_flip : forall a b,
  compare_units b a = - compare_units a b.
Proof.
  induction a as [|x a IH]; intros [|y b]; cbn [compare_units]; try reflexivity.
  destruct (N.ltb_spec (code x) (code y)) as [L | G];
    destruct (N.ltb_spec (code y) (code x)) as [L' | G']; try lia;
    try reflexivity.
  apply IH.
Qed.

Lemma compare_units_lt_trans : forall a b c,
  compare_units a b < 0 -> compare_units b c < 0 -> compare_units a c < 0.
Proof.
  induction a as [|x a IH]; intros [|y b] [|z c]; cbn [compare_units];
    try lia.
  destruct (N.ltb_spec (code x) (code y)) as [Lxy | Gxy];
    destruct (N.ltb_spec (code y) (code z)) as [Lyz | Gyz];
    destruct (N.ltb_spec (code x) (code z)) as [Lxz | Gxz];
    destruct (N.ltb_spec (code y) (code x)) as [Lyx | Gyx];
    destruct (N.ltb_spec (code z) (code y)) as [Lzy | Gzy];
    destruct (N.ltb_spec (code z) (code x)) as [Lzx | Gzx];
    try lia.
  apply IH.
Qed.

Lemma compare_units_consistent : consistent compare_units.
Proof.
  repeat split.
  - apply compare_units_refl.
  - intros a b H. apply compare_units_eq in H. subst. apply compare_units_refl.
  - intros a b c H1 H2. apply compare_units_eq in H1, H2. subst.
    apply compare_units_refl.
  - apply compare_units_lt_trans.
  - intros a b c H1 H2.
    pose proof (compare_units_flip a b). pose proof (compare_units_flip b c).
    pose proof (compare_units_flip a c).
    assert (compare_units c a < 0)
      by (apply (compare_units_lt_trans c b a); lia).
    lia.
Qed.

Section Order.
Context {engine : Engine}.
Variable store : nat -> Fetch.

Lemma by_title_consistent :
  consistent locale_compare -> consistent by_title.
Proof.
  intros (Hrefl & Hsym & Heq & Hlt & Hgt). unfold by_title.
  repeat split; intros.
  - apply Hrefl.
  - now apply Hsym.
  - eapply Heq; eassumption.
  - eapply Hlt; eassumption.
  - eapply Hgt; eassumption.
Qed.

Lemma descending_in_sort_order : forall (key : Hit -> option Z) l,
  StronglySorted (descending key) l ->
  in_sort_order (fun a b : Hit => minus_or_zero (key b) (key a)) l.
Proof.
  intros key l H. unfold in_sort_order.
  induction H as [|x l Hs IH Hx]; constructor; [exact IH|].
  eapply Forall_impl; [|exact Hx]. intros z Hz. cbn beta.
  unfold descending, minus_or_zero in *.
  destruct (key x), (key z); try contradiction. lia.
Qed.

Lemma in_sort_order_subseq : forall A (cmp : A -> A -> Z) l1 l2,
  subseq l1 l2 -> in_sort_order cmp l2 -> in_sort_order cmp l1.
Proof. intros A cmp l1 l2 Hsub. unfold in_sort_order. now apply subseq_sorted. Qed.

(** Hits with the same key are never put one after the other by the
    comparator of the mode, when that comparator is consistent. *)
Lemma ties_never_swapped : forall m entries a x y,
  sort_is_determined m entries ->
  tied m a x = true -> tied m a y = true -> comparator m x y <= 0.
Proof.
  intros m entries a x y Hcmp Hx Hy.
  destruct m; cbn [tied comparator sort_is_determined] in *.
  - apply option_Z_eqb_eq in Hx, Hy. unfold by_date.
    rewrite <- Hx, <- Hy, minus_or_zero_same. lia.
  - apply String.eqb_eq in Hx, Hy. unfold by_title.
    rewrite <- Hx, <- Hy, (proj1 Hcmp). lia.
  - eapply same_score_ties; eassumption.
Qed.

(** C6, amended.  Where the comparator of the mode is consistent on the
    indexed entries, the hits are in the sort order of the mode and sorting
    is stable on what the sort stage receives.  Without a text query that is
    the index in insertion order, so hits with the same key (time of update,
    title) follow the insertion order.  With a text query the stage receives
    the hits by descending score, so hits with the same key are ordered by
    descending score, and by insertion order only among those of equal
    score. *)
Theorem ties_keep_the_order_of_the_sort_input : forall query o st,
  no_criteria query o = false ->
  let st' := initialized_from store st in
  let m := mode_of (sortBy o) query in
  let ids := List.map (fun e => id (note e)) (map_values (searchIndex st')) in
  sort_is_determined m (map_values (searchIndex st')) ->
  exists hits,
    search store query o st = (Ok (Results hits), st')
    /\ in_sort_order (comparator m) hits
    /\ (truthy query = false -> ties_in_insertion_order m st' hits)
    /\ (truthy query = true ->
        forall a,
          StronglySorted score_ge (filter (tied m a) hits)
          /\ subseq
               (List.map hit_id
                  (filter (fun h => (tied m a h && same_score a h)%bool)
                     hits))
               ids).
Proof.
  intros query o st Hpath st' m ids Hcmp.
  eexists. split; [now apply search_indexed|]. fold st'.
  destruct (ranked_from_scoring query o (map_values (searchIndex st')))
    as [filtered [Hranked Hsub]].
  assert (Hscored : truthy query = true -> Forall has_score filtered).
  { intros Hq. eapply subseq_Forall; [exact Hsub|].
    now apply after_scoring_has_score. }
  assert (Hsorted :
    ranked query o (map_values (searchIndex st'))
    = sort_by (comparator m) filtered).
  { rewrite Hranked. now apply sortResults_mode. }
  unfold pipeline. rewrite Hsorted. split; [|split].
  - eapply in_sort_order_subseq; [apply subseq_slice0|].
    subst m. unfold mode_of in *.
    assert (Hdate : sort_is_determined ByDate (map_values (searchIndex st')) ->
                    in_sort_order by_date (sort_by by_date filtered)).
    { intros Hdates. cbn [sort_is_determined] in Hdates.
      apply (@descending_in_sort_order updated).
      apply (sort_by_key_sorted updated).
      eapply subseq_Forall; [exact Hsub|]. apply Forall_forall. intros h Hh.
      apply after_scoring_hits in Hh. destruct Hh as [Hh _].
      exact (proj1 (Forall_forall _ _) Hdates _ Hh). }
    destruct (String.eqb (sortBy o) "date"); [now apply Hdate|].
    destruct (String.eqb (sortBy o) "title").
    { cbn [comparator sort_is_determined] in *.
      apply (sort_by_in_sort_order (by_title_consistent Hcmp)). }
    destruct (truthy query); [|now apply Hdate].
    cbn [comparator]. apply (@descending_in_sort_order score).
    apply (sort_by_key_sorted score). now apply Hscored.
  - intros Hq a. fold ids.
    eapply subseq_trans.
    { apply subseq_map, subseq_filter_mono, subseq_slice0. }
    rewrite sort_by_stable
      by (intros x y; now apply (@ties_never_swapped _ _ a x y Hcmp)).
    unfold ids. rewrite <- hit_id_unscored. apply subseq_map.
    eapply subseq_trans; [apply subseq_filter|].
    unfold after_scoring in Hsub. now rewrite Hq in Hsub.
  - intros Hq a. unfold after_scoring in Hsub. rewrite Hq in Hsub. split.
    + eapply subseq_sorted;
        [|apply (filterByQuery_sorted
                   (unscored (map_values (searchIndex st')))
                   (or_empty query))].
      eapply subseq_trans.
      { apply subseq_filter_mono, subseq_slice0. }
      rewrite sort_by_stable
        by (intros x y; now apply (@ties_never_swapped _ _ a x y Hcmp)).
      eapply subseq_trans; [apply subseq_filter | exact Hsub].
    + eapply subseq_trans.
      { apply subseq_map, subseq_filter_mono, subseq_slice0. }
      rewrite sort_by_stable.
      * eapply subseq_trans.
        { apply subseq_map, subseq_filter_mono, Hsub. }
        unfold ids. rewrite <- hit_id_unscored.
        apply filterByQuery_stable.
      * intros x y Hx Hy. apply andb_true_iff in Hx, Hy.
        eapply (@ties_never_swapped _ _ a x y Hcmp); [apply Hx | apply Hy].
Qed.

(** X13. On the indexed path the hits come in the order of the mode.  By
    date (also the default mode without a text query): newest first, when
    the time of update of every entry of the index is valid.  By title:
    ascending under [localeCompare], when that is a consistent comparator.
    By relevance with a text query: highest score first. *)
Theorem search_results_are_sorted : forall query o st,
  no_criteria query o = false ->
  consistent locale_compare ->
  let st' := initialized_from store st in
  Forall (fun e => date_value (updated_at (note e)) <> None)
    (map_values (searchIndex st')) ->
  exists hits,
    search store query o st = (Ok (Results hits), st')
    /\ match mode_of (sortBy o) query with
       | ByDate => StronglySorted (descending updated) hits
       | ByTitle => StronglySorted title_le hits
       | ByScore => StronglySorted (descending score) hits
       end.
Proof.
  intros query o st Hpath Hcmp st' Hdates.
  eexists. split; [now apply search_indexed|]. fold st'.
  destruct (ranked_from_scoring query o (map_values (searchIndex st')))
    as [filtered [Hranked Hsub]].
  assert (Hscored : truthy query = true -> Forall has_score filtered).
  { intros Hq. eapply subseq_Forall; [exact Hsub|].
    now apply after_scoring_has_score. }
  assert (Hvalid : Forall (fun h => updated h <> None) filtered).
  { eapply subseq_Forall; [exact Hsub|]. apply Forall_forall. intros h Hh.
    apply after_scoring_hits in Hh. destruct Hh as [Hh _].
    exact (proj1 (Forall_forall _ _) Hdates _ Hh). }
  unfold pipeline. rewrite Hranked, sortResults_mode by exact Hscored.
  unfold mode_of in *.
  destruct (String.eqb (sortBy o) "date").
  { eapply subseq_sorted; [apply subseq_slice0|].
    now apply (sort_by_key_sorted updated). }
  destruct (String.eqb (sortBy o) "title").
  { eapply subseq_sorted; [apply subseq_slice0|].
    apply (sort_by_sorted (by_title_consistent Hcmp)). }
  destruct (truthy query).
  - eapply subseq_sorted; [apply subseq_slice0|].
    apply (sort_by_key_sorted score). now apply Hscored.
  - eapply subseq_sorted; [apply subseq_slice0|].
    now apply (sort_by_key_sorted updated).
Qed.
End Order.

(** [ties_keep_the_order_of_the_sort_input] on the two notes with the same
    title and time of update, query "rust", sorted by date. *)
Lemma ties_keep_the_order_of_the_sort_input_witness :
  no_criteria (Some "rust") (sorted_by "date") = false
  /\ @sort_is_determined sample_engine ByDate
       (map_values (searchIndex (initialized_from tie_store fresh)))
  /\ exists hits,
       @search sample_engine tie_store (Some "rust") (sorted_by "date") fresh
       = (Ok (Results hits), initialized_from tie_store fresh)
       /\ in_sort_order (@by_date sample_engine) hits
       /\ forall a, StronglySorted score_ge (filter (@tied sample_engine ByDate a) hits).
Proof.
  assert (Hdates : @sort_is_determined sample_engine ByDate
                     (map_values (searchIndex (initialized_from tie_store fresh))))
    by (repeat constructor; discriminate).
  split; [reflexivity|]. split; [exact Hdates|].
  destruct (@ties_keep_the_order_of_the_sort_input sample_engine tie_store
              (Some "rust") (sorted_by "date") fresh eq_refl Hdates)
    as [hits [Hrun [Horder [_ Hscored]]]].
  exists hits. split; [exact Hrun|]. split; [exact Horder|].
  intros a. exact (proj1 (Hscored eq_refl a)).
Defined.

Lemma search_results_are_sorted_witness :
  no_criteria (Some "o") (sorted_by "date") = false
  /\ consistent (@locale_compare sample_engine)
  /\ exists hits,
       @search sample_engine scenario_store (Some "o") (sorted_by "date") fresh
       = (Ok (Results hits), initialized_from scenario_store fresh)
       /\ StronglySorted (descending (@updated sample_engine)) hits
       /\ List.map hit_id hits = [2; 1].
Proof.
  split; [reflexivity|]. split; [exact compare_units_consistent|].
  destruct (@search_results_are_sorted sample_engine scenario_store
              (Some "o") (sorted_by "date") fresh eq_refl
              compare_units_consistent)
    as [hits [Hrun Hsorted]].
  - repeat constructor; discriminate.
  - exists hits. split; [exact Hrun|]. split; [exact Hsorted|].
    rewrite search_indexed in Hrun by reflexivity.
    injection Hrun as <-. vm_compute. reflexivity.
Defined.

(** ** Case, white space and the terms of a query *)

Lemma lower_char_idempotent : forall c, lower_char (lower_char c) = lower_char c.
Proof. intros [[] [] [] [] [] [] [] []]; reflexivity. Qed.

Lemma is_space_lower_char : forall c, is_space (lower_char c) = is_space c.
Proof. intros [[] [] [] [] [] [] [] []]; reflexivity. Qed.

Lemma lower_word_char : forall c,
  is_word (lower_char c) = true -> is_lower_word (lower_char c) = true.
Proof. intros [[] [] [] [] [] [] [] []]; intros H; try reflexivity; discriminate H. Qed.

Lemma toLowerCase_idempotent : forall s,
  toLowerCase (toLowerCase s) = toLowerCase s.
Proof.
  induction s as [|c s IH]; cbn [toLowerCase]; [reflexivity|].
  now rewrite lower_char_idempotent, IH.
Qed.

Lemma toLowerCase_app : forall a b,
  toLowerCase (a ++ b) = (toLowerCase a ++ toLowerCase b)%string.
Proof.
  induction a as [|c a IH]; intros b; cbn [append toLowerCase]; [reflexivity|].
  now rewrite IH.
Qed.

Lemma toLowerCase_empty : forall s, is_empty (toLowerCase s) = is_empty s.
Proof. now intros [|c s]. Qed.

Lemma toLowerCase_length : forall s, len (toLowerCase s) = len s.
Proof.
  unfold len. induction s as [|c s IH]; cbn [toLowerCase String.length];
    [reflexivity|]. lia.
Qed.

Lemma queryTerms_lower : forall q,
  queryTerms_of (toLowerCase q) = queryTerms_of q.
Proof. intros q. unfold queryTerms_of. now rewrite toLowerCase_idempotent. Qed.

Lemma words_padded : forall s, words (" " ++ s ++ " ") = words s.
Proof.
  intros s. unfold words. cbn [append]. cbn [words_from is_space is_empty].
  change (words_from EmptyString (s ++ " "))
    with (words_from EmptyString (s ++ String " " EmptyString)).
  rewrite words_from_space by reflexivity. cbn [words_from is_empty].
  apply app_nil_r.
Qed.

Section QueryForms.
Context {engine : Engine}.
Variable store : nat -> Fetch.

(** X14. The case of the query does not matter: [search] returns for the
    lower-cased query what it returns for the query, and leaves the same
    state.  Nor does white space around the query matter to the scoring
    stage: [filterByQuery] returns the same hits for the query between two
    spaces. *)
Theorem query_case_and_padding_do_not_matter : forall query o st notes,
  search store (Some (toLowerCase query)) o st = search store (Some query) o st
  /\ filterByQuery notes (" " ++ query ++ " ") = filterByQuery notes query.
Proof.
  intros query o st notes. split.
  - assert (Htruthy : truthy (Some (toLowerCase query)) = truthy (Some query))
      by (cbn [truthy]; now rewrite toLowerCase_empty).
    assert (Hguard : no_criteria (Some (toLowerCase query)) o
                     = no_criteria (Some query) o)
      by (unfold no_criteria; now rewrite Htruthy).
    destruct (no_criteria (Some query) o) eqn:Hpath.
    + rewrite !search_pass_through by congruence. reflexivity.
    + rewrite !search_indexed by congruence. do 3 f_equal.
      unfold pipeline, ranked, sortResults. cbv zeta. rewrite Htruthy.
      cbn [or_empty]. unfold filterByQuery. now rewrite queryTerms_lower.
  - unfold filterByQuery. rewrite !queryTerms_words.
    change (" " ++ query ++ " ")%string
      with (String " " (query ++ " "))%string.
    cbn [toLowerCase].
    change (String (lower_char " ") (toLowerCase (query ++ " ")))
      with (" " ++ toLowerCase (query ++ " "))%string.
    rewrite toLowerCase_app. cbn [toLowerCase].
    change (String (lower_char " ") EmptyString) with " "%string.
    now rewrite words_padded.
Qed.

(** X15. The score is additive over the query: the score for two queries
    joined by a space is the sum of the two scores, so that the order of the
    words of a query does not matter and a word typed twice counts twice. *)
Theorem score_is_additive : forall e q1 q2,
  calculateRelevanceScore e (queryTerms_of (q1 ++ " " ++ q2))
  = calculateRelevanceScore e (queryTerms_of q1)
    + calculateRelevanceScore e (queryTerms_of q2)
  /\ calculateRelevanceScore e (queryTerms_of (q2 ++ " " ++ q1))
     = calculateRelevanceScore e (queryTerms_of (q1 ++ " " ++ q2))
  /\ calculateRelevanceScore e (queryTerms_of (q1 ++ " " ++ q1))
     = 2 * calculateRelevanceScore e (queryTerms_of q1).
Proof.
  assert (Hadd : forall e q1 q2,
    calculateRelevanceScore e (queryTerms_of (q1 ++ " " ++ q2))
    = calculateRelevanceScore e (queryTerms_of q1)
      + calculateRelevanceScore e (queryTerms_of q2)).
  { intros e q1 q2. rewrite !calculateRelevanceScore_relevance.
    unfold relevance, words. rewrite toLowerCase_app.
    change (toLowerCase (" " ++ q2))
      with (String " " (toLowerCase q2)).
    rewrite words_from_space by reflexivity. rewrite map_app.
    unfold sum_Z. rewrite fold_right_app.
    generalize (List.map (term_points e)
                  (words_from EmptyString (toLowerCase q2))).
    intros l2.
    induction (List.map (term_points e)
                 (words_from EmptyString (toLowerCase q1))) as [|x l IH];
      cbn [fold_right]; lia. }
  intros e q1 q2. rewrite !Hadd. repeat split; lia.
Qed.

Lemma queryTerms_blank : forall query,
  all_chars is_space query = true -> queryTerms_of query = [].
Proof.
  intros query Hblank. rewrite queryTerms_words. unfold words.
  assert (Hwords : forall s cur,
            all_chars is_space s = true ->
            words_from cur (toLowerCase s)
            = if is_empty cur then [] else [cur]).
  { induction s as [|c s IH]; intros cur' Hs; [reflexivity|].
    cbn [all_chars] in Hs. apply andb_true_iff in Hs. destruct Hs as [Hc Hs].
    cbn [toLowerCase words_from]. rewrite is_space_lower_char, Hc.
    rewrite (IH EmptyString Hs). reflexivity. }
  now rewrite (Hwords query EmptyString Hblank).
Qed.

Lemma filterByQuery_blank : forall notes query,
  all_chars is_space query = true -> filterByQuery notes query = [].
Proof.
  intros notes query Hblank. unfold filterByQuery. cbv zeta.
  rewrite (queryTerms_blank query Hblank).
  assert (Hnone : forall l,
            filter score_positive (List.map (with_score []) l) = [])
    by (induction l as [|h l IH]; [reflexivity | exact IH]).
  now rewrite Hnone.
Qed.

Lemma search_blank_query : forall query o st,
  is_empty query = false ->
  all_chars is_space query = true ->
  search store (Some query) o st
  = (Ok (Results []), initialized_from store st).
Proof.
  intros query o st Hne Hblank.
  rewrite search_indexed
    by (unfold no_criteria; cbn [truthy]; now rewrite Hne).
  do 2 f_equal. unfold pipeline, ranked. cbv zeta. cbn [truthy or_empty].
  rewrite Hne. cbn [negb]. rewrite filterByQuery_blank by exact Hblank.
  rewrite criteria_meets. cbn [filter].
  rewrite sortResults_nil. unfold slice0. now rewrite firstn_nil.
Qed.

(** X16. A query that holds only white space has no query term, so that
    [filterByQuery] keeps no note; when such a query is not empty, [search]
    takes the indexed path and returns the empty list whatever the
    options. *)
Theorem blank_query_finds_nothing : forall query,
  all_chars is_space query = true ->
  (forall notes, filterByQuery notes query = [])
  /\ (is_empty query = false ->
      forall o st,
        search store (Some query) o st
        = (Ok (Results []), initialized_from store st)).
Proof.
  intros query Hblank. split.
  - intros notes. now apply filterByQuery_blank.
  - intros Hne o st. now apply search_blank_query.
Qed.
End QueryForms.

Lemma blank_query_finds_nothing_witness :
  @search sample_engine scenario_store (Some "  ") default_options fresh
  = (Ok (Results []), initialized_from scenario_store fresh).
Proof.
  apply (proj2 (@blank_query_finds_nothing sample_engine scenario_store
                  "  " eq_refl)).
  reflexivity.
Defined.

(** ** The derived fields of an entry *)

Lemma append_assoc_string : forall a b c : string,
  ((a ++ b) ++ c)%string = (a ++ (b ++ c))%string.
Proof. induction a as [|x a IH]; intros; cbn [append]; [reflexivity | now rewrite IH]. Qed.

Lemma includes_left : forall a b t,
  includes a t = true -> includes (a ++ b) t = true.
Proof.
  intros a b t H. apply includes_substring in H.
  destruct H as [before [after ->]]. apply includes_substring.
  exists before, (after ++ b)%string.
  now rewrite !append_assoc_string.
Qed.

Lemma includes_right : forall a b t,
  includes b t = true -> includes (a ++ b) t = true.
Proof.
  intros a b t H. apply includes_substring in H.
  destruct H as [before [after ->]]. apply includes_substring.
  exists (a ++ before)%string, after.
  now rewrite !append_assoc_string.
Qed.

Lemma includes_joined : forall names x t,
  In x names -> includes (toLowerCase x) t = true ->
  includes (toLowerCase (join_space names)) t = true.
Proof.
  unfold join_space.
  induction names as [|y names IH]; intros x t Hin Ht; [contradiction|].
  destruct names as [|z names].
  - destruct Hin as [<- | []]. exact Ht.
  - change (concat " " (y :: z :: names))
      with (y ++ " " ++ concat " " (z :: names))%string.
    rewrite !toLowerCase_app. destruct Hin as [<- | Hin].
    + now apply includes_left.
    + apply includes_right, includes_right. now apply (IH x).
Qed.

Lemma searchableContent_parts : forall n,
  searchableContent (index_entry n)
  = (toLowerCase (or_empty (title n)) ++ " "
     ++ toLowerCase (MarkdownService.extractPlainText (or_empty (content n)))
     ++ " " ++ toLowerCase (or_empty (category_name n)) ++ " "
     ++ toLowerCase (match tags n with
                     | Some ts => join_space (List.map name ts)
                     | None => EmptyString
                     end))%string.
Proof.
  intros n. cbn [index_entry searchableContent].
  unfold extractSearchableContent. cbv zeta.
  now rewrite !toLowerCase_app.
Qed.

(** X17. In an entry of the index, a query term found in the lower-cased
    title, in the lower-cased category name or in the lower-cased name of a
    tag is also found in [searchableContent]; a term found in the title
    therefore adds at least 15 to the score. *)
Theorem field_match_is_a_content_match : forall n term score,
  let e := index_entry n in
  (includes (toLowerCase (or_empty (title n))) term = true ->
   includes (searchableContent e) term = true)
  /\ (includes (toLowerCase (or_empty (category_name n))) term = true ->
      includes (searchableContent e) term = true)
  /\ (forall ts tag,
        tags n = Some ts -> In tag ts ->
        includes (toLowerCase (name tag)) term = true ->
        includes (searchableContent e) term = true)
  /\ (is_empty term = false ->
      includes (toLowerCase (or_empty (title n))) term = true ->
      score + 15 <= add_term e score term).
Proof.
  intros n term score e. subst e.
  assert (Htitle :
    includes (toLowerCase (or_empty (title n))) term = true ->
    includes (searchableContent (index_entry n)) term = true).
  { intros H. rewrite searchableContent_parts. now apply includes_left. }
  split; [exact Htitle|]. split; [|split].
  - intros H. rewrite searchableContent_parts.
    do 4 apply includes_right. now apply includes_left.
  - intros ts tag Hts Hin H. rewrite searchableContent_parts, Hts.
    do 6 apply includes_right.
    apply (includes_joined (List.map name ts) (name tag)); [|exact H].
    now apply in_map.
  - intros Hterm H. rewrite add_term_points by exact Hterm.
    unfold term_points. cbn [index_entry note].
    fold (index_entry n). rewrite H, (Htitle H). unfold count_if.
    destruct (includes (toLowerCase (or_empty (category_name n))) term); lia.
Qed.

Lemma generateSearchTerms_lower : forall s,
  Forall (fun t => is_empty t = false /\ all_chars is_lower_word t = true)
    (generateSearchTerms (toLowerCase s)).
Proof.
  assert (Hstrip : forall p,
            all_chars is_lower_word (strip_non_word (toLowerCase p)) = true).
  { induction p as [|c p IH]; [reflexivity|].
    cbn [toLowerCase strip_non_word].
    destruct (is_word (lower_char c)) eqn:E; [|exact IH].
    cbn [all_chars]. now rewrite (lower_word_char c E), IH. }
  assert (Hsplit : forall s b,
            split_from b (toLowerCase s) = List.map toLowerCase (split_from b s)).
  { induction s as [|c s IH]; intros b; [reflexivity|].
    cbn [toLowerCase split_from]. rewrite is_space_lower_char.
    destruct (is_space c).
    - destruct b; cbn [List.map]; now rewrite IH.
    - rewrite IH. destruct (split_from false s); reflexivity. }
  intros s. unfold generateSearchTerms, split_ws. rewrite Hsplit.
  apply Forall_forall. intros t Ht. apply filter_In in Ht.
  destruct Ht as [Ht Hlen]. rewrite len_positive in Hlen.
  apply negb_true_iff in Hlen. split; [exact Hlen|].
  apply in_map_iff in Ht. destruct Ht as [p [<- Hp]].
  apply filter_In in Hp. destruct Hp as [Hp _].
  apply in_map_iff in Hp. destruct Hp as [p' [<- _]]. apply Hstrip.
Qed.

(** X18. The derived fields of an entry are normalised: [searchableContent]
    is its own lower-casing, and every search term is a non-empty string of
    lower-case letters, digits and underscores. *)
Theorem entry_fields_are_normalised : forall n,
  toLowerCase (searchableContent (index_entry n))
  = searchableContent (index_entry n)
  /\ Forall (fun t => is_empty t = false /\ all_chars is_lower_word t = true)
       (searchTerms (index_entry n)).
Proof.
  intros n. cbn [index_entry searchableContent searchTerms].
  unfold extractSearchableContent. cbv zeta. split.
  - apply toLowerCase_idempotent.
  - apply generateSearchTerms_lower.
Qed.

(** ** The two paths and the Note Store *)

Section StoreCalls.
Context {engine : Engine}.

(** X19. On the pass-through path [search] asks the Note Store once more,
    after the call of the build if there was one, and returns its listing
    whole: the sort mode, the limit and the date range of the options play
    no part.  When that call fails the error is thrown to the caller. *)
Theorem pass_through_returns_the_listing : forall store query o st,
  no_criteria query o = true ->
  let st0 := initialized_from store st in
  let st1 := {| searchIndex := searchIndex st0; initialized := true;
                calls := S (calls st0) |} in
  (forall notes,
     store (calls st0) = Listed notes ->
     search store query o st = (Ok (PassThrough notes), st1))
  /\ (store (calls st0) = Failed ->
      search store query o st = (Thrown CorpusFetchError, st1))
  /\ (forall o',
        no_criteria query o' = true ->
        search store query o' st = search store query o st).
Proof.
  intros store query o st Hpath st0 st1.
  assert (Hready : initialized st0 = true) by apply initialized_from_ready.
  rewrite search_pass_through by exact Hpath. fold st0.
  unfold getAllNotes. rewrite Hready. fold st1.
  split; [|split].
  - intros notes ->. reflexivity.
  - intros ->. reflexivity.
  - intros o' Hpath'. rewrite search_pass_through by exact Hpath'.
    fold st0. unfold getAllNotes. now rewrite Hready.
Qed.

(** X20. On an initialized index the indexed path of [search] and
    [getSearchSuggestions] never ask the Note Store: they leave the state as
    it is and return the same whatever the store would list, so that a note
    added to the store after the build is not found until the index is
    updated or rebuilt. *)
Theorem ready_index_is_not_refreshed : forall store store' query o limit st,
  initialized st = true ->
  no_criteria query o = false ->
  search store query o st = search store' query o st
  /\ snd (search store query o st) = st
  /\ getSearchSuggestions store query limit st
     = getSearchSuggestions store' query limit st
  /\ snd (getSearchSuggestions store query limit st) = st.
Proof.
  intros store store' query o limit st Hready Hpath.
  rewrite !search_indexed by exact Hpath.
  rewrite !getSearchSuggestions_runs.
  rewrite !initialized_from_of_ready by exact Hready.
  repeat split.
Qed.

Variable store : nat -> Fetch.

(** X21. [handleSearch] never throws.  With a query that is empty or only
    white space and no active filter it shows nothing and does not call the
    service.  With a query that is not empty and only white space it shows
    nothing whatever the filters.  When it shows hits of the index it shows
    at most 100. *)
Theorem handleSearch_shows : forall query filters st,
  exists out st',
    handleSearch store query filters st = (Ok out, st')
    /\ (is_empty (trim query) = true -> hasActiveFilters filters = false ->
        out = Results [] /\ st' = st)
    /\ (is_empty query = false -> all_chars is_space query = true ->
        out = Results [])
    /\ (forall hits, out = Results hits -> array_length hits <= 100).
Proof.
  intros query filters st. unfold handleSearch.
  destruct (is_empty (trim query) && negb (hasActiveFilters filters))%bool
    eqn:Hskip.
  - exists (Results []), st. split; [reflexivity|].
    split; [now split|]. split; [reflexivity|].
    intros hits [= <-]. cbn. lia.
  - unfold try_catch.
    destruct (no_criteria (Some query) (with_limit_100 filters)) eqn:Hpath.
    + (* the query is empty and only a date range is set *)
      rewrite search_pass_through by exact Hpath. unfold getAllNotes.
      assert (Hempty : is_empty query = true).
      { unfold no_criteria in Hpath. cbn [truthy] in Hpath.
        destruct (is_empty query); [reflexivity | discriminate Hpath]. }
      destruct (store (calls (initialized_from store st)));
        eexists; eexists; (split; [reflexivity|]);
        (split; [intros Ht Hf; rewrite Ht, Hf in Hskip; discriminate Hskip|]);
        (split; [intros Hne; congruence|]);
        intros hits [= <-]; cbn; lia.
    + rewrite search_indexed by exact Hpath.
      eexists. eexists. split; [reflexivity|].
      split; [intros Ht Hf; rewrite Ht, Hf in Hskip; discriminate Hskip|].
      split.
      * intros Hne Hblank.
        pose proof (search_blank_query store query (with_limit_100 filters) st
                      Hne Hblank) as Hrun.
        rewrite search_indexed in Hrun by exact Hpath.
        now injection Hrun as ->.
      * intros hits [= <-]. unfold pipeline. cbn [limit with_limit_100].
        rewrite slice0_firstn by lia. unfold array_length.
        rewrite length_firstn. lia.
Qed.

(** X28. [getSuggestions] never throws.  For a query of fewer than 2 code
    units it shows nothing and does not call the service, so that the index
    is not built; for a longer one the index is initialized afterwards.
    What it shows are at most 5 strings, pairwise distinct, each of which
    contains the query case-insensitively. *)
Theorem getSuggestions_shows : forall query st,
  exists shown st',
    getSuggestions store query st = (Ok shown, st')
    /\ (len query < 2 -> shown = [] /\ st' = st)
    /\ (2 <= len query -> st' = initialized_from store st)
    /\ array_length shown <= 5
    /\ NoDup shown
    /\ Forall (fun s => contains_ci s query = true) shown.
Proof.
  intros query st. unfold getSuggestions.
  destruct (len query >=? 2) eqn:Hlen.
  - apply Z.geb_le in Hlen. unfold try_catch.
    rewrite getSearchSuggestions_runs. cbn [or_empty].
    assert (Htruthy : truthy (Some query) = true).
    { destruct query as [|c q]; [|reflexivity].
      unfold len in Hlen. cbn in Hlen. lia. }
    rewrite Htruthy.
    replace (len query <? 2) with false by (symmetry; apply Z.ltb_ge; lia).
    cbn [negb orb]. rewrite suggestions_of_first_occurrences.
    rewrite slice0_firstn by lia.
    eexists. eexists. split; [reflexivity|].
    split; [lia|]. split; [reflexivity|]. split; [|split].
    + unfold array_length. rewrite length_firstn. lia.
    + apply NoDup_firstn_string, first_occurrences_NoDup.
    + apply Forall_forall. intros t Ht. apply In_firstn in Ht.
      apply (proj1 (first_occurrences_In _ _)) in Ht.
      rewrite !in_app_iff in Ht.
      unfold matching_titles, matching_tags, matching_categories in Ht.
      rewrite !filter_In in Ht.
      destruct Ht as [[_ H] | [[_ H] | [_ H]]]; try exact H.
      now apply andb_true_iff in H.
  - exists [], st. split; [reflexivity|].
    assert (len query < 2).
    { destruct (Z.geb_spec (len query) 2); [discriminate | lia]. }
    split; [now split|]. split; [lia|]. split; [cbn; lia|].
    split; constructor.
Qed.
End StoreCalls.

Lemma pass_through_returns_the_listing_witness :
  no_criteria None (sorted_by "title") = true
  /\ @search sample_engine scenario_store None (sorted_by "title") fresh
     = (Ok (PassThrough [note1; note2]),
        {| searchIndex := searchIndex (initialized_from scenario_store fresh);
           initialized := true; calls := 2 |}).
Proof.
  split; [reflexivity|].
  apply (proj1 (@pass_through_returns_the_listing sample_engine
                  scenario_store None (sorted_by "title") fresh eq_refl)).
  reflexivity.
Defined.

Lemma ready_index_is_not_refreshed_witness :
  @search sample_engine scenario_store (Some "rust") default_options
    (initialized_from scenario_store fresh)
  = @search sample_engine tie_store (Some "rust") default_options
      (initialized_from scenario_store fresh).
Proof.
  apply (@ready_index_is_not_refreshed sample_engine scenario_store tie_store
           (Some "rust") default_options None
           (initialized_from scenario_store fresh)); reflexivity.
Defined.

(** ** The markdown service *)

(** *** Text without markdown *)

Lemma run_blocked : forall ok p,
  Exists (asks_outside ok) p ->
  forall s prev pos g,
    all_chars ok s = true -> Regex.run p prev s pos g = None.
Proof.
  intros ok p. induction p as [|a p IH]; intros Hex s prev pos g Hs.
  - inversion Hex.
  - destruct a as [lazy lo hi cls| | | |].
    + cbn [Regex.run].
      inversion Hex as [? ? Hhead | ? ? Htail]; subst.
      * destruct lo as [|lo]; [contradiction|]. cbn in Hhead.
        destruct s as [|c s].
        -- destruct lazy; reflexivity.
        -- cbn [all_chars] in Hs. apply andb_true_iff in Hs.
           destruct Hs as [Hc Hs]. apply Hhead in Hc.
           destruct lazy; cbn; rewrite Hc; reflexivity.
      * specialize (IH Htail).
        generalize 0%nat as k. revert prev pos Hs.
        induction s as [|c s IHs]; intros prev pos Hs k.
        -- destruct lazy; cbn; rewrite IH by reflexivity;
             now destruct (Nat.leb lo k).
        -- cbn [all_chars] in Hs. apply andb_true_iff in Hs.
           destruct Hs as [Hc Hs].
           assert (Hrest : Regex.run p prev (String c s) pos g = None).
           { apply IH. cbn [all_chars]. now rewrite Hc, Hs. }
           destruct lazy; cbn; rewrite Hrest.
           ++ destruct (Nat.leb lo k);
                (destruct (cls c && Regex.may_repeat hi k)%bool;
                 [apply IHs; exact Hs | reflexivity]).
           ++ destruct (cls c && Regex.may_repeat hi k)%bool;
                [rewrite IHs by exact Hs|]; now destruct (Nat.leb lo k).
    + cbn [Regex.run]. destruct (Regex.at_line_start prev); [|reflexivity].
      apply IH; [|exact Hs]. now inversion Hex.
    + cbn [Regex.run]. destruct (Regex.at_line_end s); [|reflexivity].
      apply IH; [|exact Hs]. now inversion Hex.
    + cbn [Regex.run]. apply IH; [|exact Hs]. now inversion Hex.
    + cbn [Regex.run]. apply IH; [|exact Hs]. now inversion Hex.
Qed.

Lemma scan_blocked : forall ok p r,
  Exists (asks_outside ok) p ->
  forall s prev,
    all_chars ok s = true -> Regex.scan p r 0 prev s = s.
Proof.
  intros ok p r Hex. induction s as [|c s IH]; intros prev Hs.
  - cbn [Regex.scan]. now rewrite (run_blocked Hex).
  - cbn [Regex.scan]. rewrite (run_blocked Hex) by exact Hs.
    cbn [all_chars] in Hs. apply andb_true_iff in Hs.
    now rewrite IH.
Qed.

Lemma replace_all_blocked : forall ok p r s,
  Exists (asks_outside ok) p ->
  all_chars ok s = true -> Regex.replace_all p r s = s.
Proof. intros ok p r s Hex Hs. now apply scan_blocked with (ok := ok). Qed.

Lemma is_plain_outside : forall c,
  is_plain c = true ->
  Ascii.eqb MarkdownService.backtick c = false
  /\ Ascii.eqb "[" c = false
  /\ Ascii.eqb "#" c = false
  /\ MarkdownService.emphasis_mark c = false
  /\ Ascii.eqb "~" c = false
  /\ Ascii.eqb "-" c = false
  /\ MarkdownService.list_mark c = false
  /\ Ascii.eqb "." c = false
  /\ Ascii.eqb MarkdownService.newline c = false.
Proof.
  intros c. destruct c as [[] [] [] [] [] [] [] []]; vm_compute;
    intros H; try discriminate H; repeat split.
Qed.

Lemma extractPlainText_plain : forall markdown,
  all_chars is_plain markdown = true ->
  MarkdownService.extractPlainText markdown = trim markdown.
Proof.
  intros markdown Hplain. unfold MarkdownService.extractPlainText.
  destruct (is_empty markdown) eqn:Hempty.
  - now destruct markdown.
  - cbv zeta.
    repeat (rewrite (@replace_all_blocked is_plain _ _ markdown);
            [|repeat first
                [ apply Exists_cons_hd; cbn [asks_outside]; intros c Hc;
                  apply is_plain_outside in Hc; solve [apply Hc]
                | apply Exists_cons_tl ]
             |exact Hplain]).
    reflexivity.
Qed.

(** *** White space at the ends *)

Lemma trim_start_head : forall s,
  trim_start s = EmptyString
  \/ exists c r, trim_start s = String c r /\ is_space c = false.
Proof.
  induction s as [|c s IH]; [now left|].
  cbn [trim_start]. destruct (is_space c) eqn:Hc; [exact IH|].
  right. now exists c, s.
Qed.

Lemma trim_end_idempotent : forall s, trim_end (trim_end s) = trim_end s.
Proof.
  induction s as [|c s IH]; [reflexivity|].
  cbn [trim_end]. cbv zeta.
  destruct (is_space c && is_empty (trim_end s))%bool eqn:Hdrop;
    [reflexivity|].
  cbn [trim_end]. cbv zeta. now rewrite IH, Hdrop.
Qed.

Lemma trim_idempotent : forall s, trim (trim s) = trim s.
Proof.
  intros s. unfold trim.
  destruct (trim_start_head s) as [-> | [c [r [-> Hc]]]]; [reflexivity|].
  cbn [trim_end]. cbv zeta. rewrite Hc. cbn [andb trim_start].
  rewrite Hc. cbn [trim_end]. cbv zeta. rewrite Hc. cbn [andb].
  now rewrite trim_end_idempotent.
Qed.

(** X23. The plain text that [extractPlainText] returns has no white space
    at either end, whatever the markdown. *)
Theorem plain_text_is_trimmed : forall markdown,
  trimmed (MarkdownService.extractPlainText markdown).
Proof.
  intros markdown. unfold trimmed, MarkdownService.extractPlainText.
  destruct (is_empty markdown); [reflexivity|]. cbv zeta.
  apply trim_idempotent.
Qed.

(** *** The span of a match *)

Lemma run_span : forall p prev s pos g n g',
  Regex.run p prev s pos g = Some (n, g') ->
  (pos + min_span p <= n)%nat /\ (n <= pos + String.length s)%nat
  /\ (snd g' <= Nat.max (snd g) n)%nat.
Proof.
  induction p as [|a p IH]; intros prev s pos g n g' Hrun.
  - cbn in Hrun. injection Hrun as <- <-. cbn. lia.
  - destruct a as [lazy lo hi cls| | | |];
      cbn [Regex.run] in Hrun; cbn [min_span fold_right]; fold (min_span p).
    + match type of Hrun with
      | ?rep 0%nat prev s pos = _ =>
          assert (Hgen : forall s k prev pos,
                    rep k prev s pos = Some (n, g') ->
                    (pos + (lo - k) + min_span p <= n)%nat
                    /\ (n <= pos + String.length s)%nat
                    /\ (snd g' <= Nat.max (snd g) n)%nat)
      end.
      { clear Hrun s prev pos.
        induction s as [|c s IHs]; intros k prev pos Hrep.
        - assert (Hrest : (if Nat.leb lo k
                           then Regex.run p prev EmptyString pos g
                           else None) = Some (n, g')).
          { destruct lazy; cbn in Hrep;
              destruct (if Nat.leb lo k
                        then Regex.run p prev EmptyString pos g
                        else None); congruence. }
          destruct (Nat.leb lo k) eqn:Hk; [|discriminate Hrest].
          apply Nat.leb_le in Hk. apply IH in Hrest. lia.
        - cbn [String.length].
          destruct lazy; cbn in Hrep.
          + destruct (Nat.leb lo k) eqn:Hk;
              [apply Nat.leb_le in Hk;
               destruct (Regex.run p prev (String c s) pos g)
                 as [r|] eqn:Hr;
               [injection Hrep as ->; apply IH in Hr;
                cbn [String.length] in Hr; lia|]|];
              (destruct (cls c && Regex.may_repeat hi k)%bool;
               [apply IHs in Hrep; lia | discriminate Hrep]).
          + destruct (cls c && Regex.may_repeat hi k)%bool.
            * match type of Hrep with
              | match ?x with _ => _ end = _ => destruct x as [r|] eqn:Hr
              end.
              -- injection Hrep as ->. apply IHs in Hr. lia.
              -- destruct (Nat.leb lo k) eqn:Hk; [|discriminate Hrep].
                 apply Nat.leb_le in Hk. apply IH in Hrep.
                 cbn [String.length] in Hrep. lia.
            * destruct (Nat.leb lo k) eqn:Hk; [|discriminate Hrep].
              apply Nat.leb_le in Hk. apply IH in Hrep.
              cbn [String.length] in Hrep. lia. }
      apply Hgen in Hrun. lia.
    + destruct (Regex.at_line_start prev); [|discriminate Hrun].
      apply IH in Hrun. exact Hrun.
    + destruct (Regex.at_line_end s); [|discriminate Hrun].
      apply IH in Hrun. exact Hrun.
    + apply IH in Hrun. cbn [snd] in Hrun. exact Hrun.
    + apply IH in Hrun. cbn [snd] in Hrun. lia.
Qed.

Lemma substring_length_le : forall s n m,
  (String.length (substring n m s) <= m)%nat.
Proof.
  induction s as [|c s IH]; intros n m.
  - destruct n, m; cbn; lia.
  - destruct n as [|n].
    + destruct m as [|m]; cbn; [lia|]. specialize (IH 0%nat m). lia.
    + cbn. apply IH.
Qed.

Lemma length_append : forall a b : string,
  String.length (a ++ b) = (String.length a + String.length b)%nat.
Proof. induction a as [|c a IH]; intros b; cbn; [reflexivity | now rewrite IH]. Qed.

Lemma expand_short : forall p r prev s n g,
  short_enough p r ->
  Regex.run p prev s 0 (0, 0)%nat = Some (n, g) ->
  (String.length (Regex.expand r s g) <= n)%nat /\ (n <= String.length s)%nat.
Proof.
  intros p r prev s n g Hshort Hrun. apply run_span in Hrun.
  cbn [snd] in Hrun. split; [|lia].
  destruct r as [t|]; cbn [Regex.expand short_enough] in *.
  - lia.
  - pose proof (substring_length_le s (fst g) (snd g - fst g)). lia.
Qed.

Lemma scan_length : forall p r,
  short_enough p r ->
  forall s skip prev,
    (String.length (Regex.scan p r skip prev s) <= String.length s - skip)%nat.
Proof.
  intros p r Hshort. induction s as [|c s IH]; intros skip prev.
  - cbn [Regex.scan].
    destruct (Regex.run p prev EmptyString 0 (0, 0)%nat) as [[n g]|] eqn:Hrun;
      [|cbn; lia].
    apply (@expand_short p r _ _ _ _ Hshort) in Hrun. cbn in *. lia.
  - cbn [Regex.scan String.length]. destruct skip as [|k].
    + destruct (Regex.run p prev (String c s) 0 (0, 0)%nat) as [[n g]|] eqn:Hrun.
      * apply (@expand_short p r _ _ _ _ Hshort) in Hrun.
        cbn [String.length] in Hrun. destruct n as [|n].
        -- rewrite length_append. cbn [String.length].
           specialize (IH 0%nat (Some c)). lia.
        -- rewrite length_append. specialize (IH n (Some c)). lia.
      * cbn [String.length]. specialize (IH 0%nat (Some c)). lia.
    + specialize (IH k (Some c)). lia.
Qed.

Lemma replace_all_length : forall p r s,
  short_enough p r ->
  (String.length (Regex.replace_all p r s) <= String.length s)%nat.
Proof.
  intros p r s Hshort. unfold Regex.replace_all.
  pose proof (@scan_length p r Hshort s 0%nat None). lia.
Qed.

Lemma trim_start_length : forall s,
  (String.length (trim_start s) <= String.length s)%nat.
Proof.
  induction s as [|c s IH]; cbn; [lia|]. destruct (is_space c); cbn; lia.
Qed.

Lemma trim_end_length : forall s,
  (String.length (trim_end s) <= String.length s)%nat.
Proof.
  induction s as [|c s IH]; cbn; [lia|].
  destruct (is_space c && is_empty (trim_end s))%bool; cbn; lia.
Qed.

Lemma trim_length : forall s,
  (String.length (trim s) <= String.length s)%nat.
Proof.
  intros s. unfold trim.
  pose proof (trim_end_length (trim_start s)).
  pose proof (trim_start_length s). lia.
Qed.

(** X24. [extractPlainText] never makes the text longer: the character
    count of [getCharacterCount] is at most the length of the markdown. *)
Theorem plain_text_is_no_longer : forall markdown,
  getCharacterCount markdown <= len markdown.
Proof.
  intros markdown. unfold getCharacterCount, len.
  apply inj_le. unfold MarkdownService.extractPlainText.
  destruct (is_empty markdown); [cbn; lia|]. cbv zeta.
  eapply Nat.le_trans; [apply trim_length|].
  repeat (eapply Nat.le_trans;
          [apply replace_all_length; cbn; try exact I; lia|]).
  apply Nat.le_refl.
Qed.

Lemma getWordCount_words : forall markdown,
  getWordCount markdown
  = array_length (words (MarkdownService.extractPlainText markdown)).
Proof.
  intros markdown. unfold getWordCount. cbv zeta.
  destruct (MarkdownService.extractPlainText markdown) as [|c s] eqn:Hp;
    [reflexivity|].
  cbn [is_empty]. rewrite words_split_ws. unfold keep_nonempty.
  f_equal. apply filter_ext. intros w. unfold len.
  destruct w; reflexivity.
Qed.

(** X25. [getWordCount] is the number of maximal runs of code units that
    are no white space in the plain text, 0 for an empty plain text
    included, and [getReadingTime] is the least number of minutes that
    covers them at 200 words a minute. *)
Theorem reading_time_covers_the_words : forall markdown,
  let n := array_length (words (MarkdownService.extractPlainText markdown)) in
  getWordCount markdown = n
  /\ 200 * (getReadingTime markdown - 1) < n <= 200 * getReadingTime markdown.
Proof.
  intros markdown n.
  assert (Hn : getWordCount markdown = n) by apply getWordCount_words.
  split; [exact Hn|]. unfold getReadingTime. cbv zeta. rewrite Hn.
  pose proof (Z.div_mod (n + 199) 200 ltac:(lia)).
  pose proof (Z.mod_pos_bound (n + 199) 200 ltac:(lia)). lia.
Qed.

Lemma words_trim_start : forall s, words (trim_start s) = words s.
Proof.
  unfold words. induction s as [|c s IH]; [reflexivity|].
  cbn [trim_start words_from]. destruct (is_space c) eqn:Hc; [exact IH|].
  cbn [words_from]. now rewrite Hc.
Qed.

Lemma words_from_trim_end : forall s cur,
  words_from cur (trim_end s) = words_from cur s.
Proof.
  induction s as [|c s IH]; intros cur; [reflexivity|].
  cbn [trim_end]. cbv zeta.
  destruct (is_space c && is_empty (trim_end s))%bool eqn:Hdrop.
  - apply andb_true_iff in Hdrop. destruct Hdrop as [Hc Hnone].
    cbn [words_from]. rewrite Hc, <- (IH EmptyString).
    destruct (trim_end s); [|discriminate Hnone]. reflexivity.
  - cbn [words_from]. now rewrite !IH.
Qed.

Lemma words_trim : forall s, words (trim s) = words s.
Proof.
  intros s. unfold trim, words at 1. rewrite words_from_trim_end.
  apply words_trim_start.
Qed.

(** X22. Text that holds none of the code units that start a markdown
    construct (backtick, opening bracket, hash, star, underscore, tilde,
    dash, plus, dot, line feed) goes through [extractPlainText] unchanged
    but for the white space at its ends, and [getWordCount] counts the
    words of the text itself. *)
Theorem plain_text_is_kept : forall markdown,
  all_chars is_plain markdown = true ->
  MarkdownService.extractPlainText markdown = trim markdown
  /\ getWordCount markdown = array_length (words markdown).
Proof.
  intros markdown Hplain. split.
  - now apply extractPlainText_plain.
  - rewrite getWordCount_words, extractPlainText_plain by exact Hplain.
    now rewrite words_trim.
Qed.

(** *** Front matter *)

Lemma run_chr : forall c p prev s pos g,
  Regex.run (Regex.chr c :: p) prev (String c s) pos g
  = Regex.run p (Some c) s (S pos) g.
Proof.
  intros c p prev s pos g. unfold Regex.chr. cbn [Regex.run].
  rewrite Ascii.eqb_refl. cbn [Regex.may_repeat Nat.ltb Nat.leb andb].
  destruct s as [|x s];
    cbn [Regex.may_repeat Nat.ltb Nat.leb]; rewrite ?andb_false_r;
    now destruct (Regex.run p (Some c) _ (S pos) g).
Qed.

Lemma run_chr_other : forall c x p prev s pos g,
  Ascii.eqb c x = false ->
  Regex.run (Regex.chr c :: p) prev (String x s) pos g = None.
Proof.
  intros c x p prev s pos g Hx. unfold Regex.chr. cbn [Regex.run].
  rewrite Hx. reflexivity.
Qed.

Lemma run_chr_end : forall c p prev pos g,
  Regex.run (Regex.chr c :: p) prev EmptyString pos g = None.
Proof. reflexivity. Qed.

Lemma run_closing_other : forall prev s pos g,
  starts_with fence_line s = false ->
  Regex.run closing_fence prev s pos g = None.
Proof.
  intros prev s pos g H. unfold closing_fence, fence_line in *.
  repeat (destruct s as [|x s]; [apply run_chr_end|];
          cbn [starts_with] in H;
          match type of H with
          | (Ascii.eqb ?c x && _)%bool = false =>
              destruct (Ascii.eqb c x) eqn:Hx;
              [apply Ascii.eqb_eq in Hx; subst x; rewrite run_chr;
               cbn [andb] in H
              |now apply run_chr_other]
          end).
  discriminate H.
Qed.

Lemma run_closing_fence : forall prev body pos g,
  Regex.run closing_fence prev
    (fence_line ++ String MarkdownService.newline body) pos g
  = Some ((pos + 5)%nat, g).
Proof.
  intros prev body pos g. unfold closing_fence, fence_line.
  cbn [append]. rewrite !run_chr. unfold Regex.upto. cbn [Regex.run].
  rewrite Ascii.eqb_refl. cbn [Regex.may_repeat Nat.ltb Nat.leb andb].
  replace (pos + 5)%nat with (S (S (S (S (S pos))))) by lia.
  destruct body as [|x body];
    cbn [Regex.may_repeat Nat.ltb Nat.leb]; rewrite ?andb_false_r;
    reflexivity.
Qed.

Lemma starts_with_fence_overlap : forall c block rest,
  starts_with fence_line (String c block) = false ->
  starts_with fence_line
    (String c block ++ fence_line ++ String MarkdownService.newline rest)
  = false.
Proof.
  intros c block rest H. unfold fence_line in *.
  cbn [append starts_with] in *.
  destruct (Ascii.eqb MarkdownService.newline c); [|reflexivity].
  cbn [andb] in *.
  destruct block as [|x1 block]; [reflexivity|].
  cbn [append starts_with] in *.
  destruct (Ascii.eqb "-" x1); [|reflexivity]. cbn [andb] in *.
  destruct block as [|x2 block]; [reflexivity|].
  cbn [append starts_with] in *.
  destruct (Ascii.eqb "-" x2); [|reflexivity]. cbn [andb] in *.
  destruct block as [|x3 block]; [reflexivity|].
  cbn [append starts_with] in *.
  destruct (Ascii.eqb "-" x3); [discriminate H | reflexivity].
Qed.

Lemma lazy_any_skips : forall p g (rest : string) (res : nat -> option (nat * (nat * nat))) block,
  (forall a c t, block = a ++ String c t ->
     forall prev pos, Regex.run p prev (String c t ++ rest) pos g = None) ->
  (forall prev pos, Regex.run p prev rest pos g = res pos) ->
  (forall pos, res pos <> None) ->
  forall prev pos,
    Regex.run (Regex.lazy_star Regex.any :: p) prev (block ++ rest) pos g
    = res (pos + String.length block)%nat.
Proof.
  intros p g rest res block Hskip Hrest Hsome prev pos.
  unfold Regex.lazy_star. cbn [Regex.run].
  match goal with |- ?rep 0%nat prev _ pos = _ => set (step := rep) end.
  generalize 0%nat as k. revert prev pos.
  induction block as [|c block IH]; intros prev pos k.
  - cbn [append String.length]. rewrite Nat.add_0_r.
    specialize (Hrest prev pos). specialize (Hsome pos).
    subst step. destruct rest; cbn [Nat.leb]; rewrite Hrest;
      now destruct (res pos).
  - cbn [append String.length]. unfold step at 1. cbn [Nat.leb].
    fold step.
    pose proof (Hskip EmptyString c block eq_refl prev pos) as Hnone.
    cbn [append] in Hnone. rewrite Hnone.
    cbn [Regex.any Regex.may_repeat andb].
    rewrite IH.
    + f_equal. lia.
    + intros a c' t Hblock. apply (Hskip (String c a) c' t).
      cbn [append]. now rewrite Hblock.
Qed.

Lemma lazy_any_fails : forall p g s,
  (forall a t, s = a ++ t ->
     forall prev pos, Regex.run p prev t pos g = None) ->
  forall prev pos,
    Regex.run (Regex.lazy_star Regex.any :: p) prev s pos g = None.
Proof.
  intros p g s Hnone prev pos.
  unfold Regex.lazy_star. cbn [Regex.run].
  match goal with |- ?rep 0%nat prev _ pos = _ => set (step := rep) end.
  generalize 0%nat as k. revert prev pos.
  induction s as [|c s IH]; intros prev pos k.
  - subst step. cbn [Nat.leb].
    now rewrite (Hnone EmptyString EmptyString eq_refl).
  - unfold step at 1. cbn [Nat.leb]. fold step.
    rewrite (Hnone EmptyString (String c s) eq_refl).
    cbn [Regex.any Regex.may_repeat andb]. apply IH.
    intros a t ->. apply (Hnone (String c a) t). reflexivity.
Qed.

Lemma includes_suffix : forall t a b,
  includes (a ++ b) t = false -> includes b t = false.
Proof.
  intros t a b H. destruct (includes b t) eqn:Hb; [|reflexivity].
  now rewrite (includes_right a _ _ Hb) in H.
Qed.

Lemma includes_head : forall s t,
  includes s t = false -> starts_with t s = false.
Proof.
  intros s t H. destruct s; cbn [includes] in H;
    now apply orb_false_iff in H.
Qed.

Lemma drop_units_append : forall a b,
  drop_units (String.length a) (a ++ b) = b.
Proof.
  induction a as [|c a IH]; intros b; [now destruct b|].
  cbn [String.length append drop_units]. apply IH.
Qed.

Lemma run_opening_fence : forall rest,
  Regex.run frontmatter_block None (opening_fence ++ rest) 0 (0, 0)%nat
  = Regex.run (Regex.lazy_star Regex.any :: closing_fence)
      (Some MarkdownService.newline) rest 4 (0, 0)%nat.
Proof.
  intros rest. unfold frontmatter_block, opening_fence. cbn [append].
  now rewrite !run_chr.
Qed.

(** X26. [removeFrontmatter] undoes the putting of a block before a body:
    when the block holds no line that starts with three dashes, the
    document made of the fences, the block and the body gives back the
    body. *)
Theorem frontmatter_is_removed : forall block body,
  includes block fence_line = false ->
  removeFrontmatter (with_frontmatter block body) = body.
Proof.
  intros block body Hblock. unfold removeFrontmatter.
  change (with_frontmatter block body)
    with (opening_fence
          ++ block ++ fence_line ++ String MarkdownService.newline body).
  rewrite run_opening_fence.
  rewrite (@lazy_any_skips closing_fence (0, 0)%nat
             (fence_line ++ String MarkdownService.newline body)
             (fun pos => Some ((pos + 5)%nat, (0, 0)%nat))).
  - replace (4 + String.length block + 5)%nat
      with (String.length (opening_fence ++ block ++ fence_line
                           ++ String MarkdownService.newline EmptyString)).
    + rewrite <- drop_units_append
        with (a := (opening_fence ++ block ++ fence_line
                    ++ String MarkdownService.newline EmptyString)%string)
             (b := body) at 2.
      f_equal. rewrite !append_assoc_string. reflexivity.
    + rewrite !length_append. cbn. lia.
  - intros a c t -> prev pos. apply run_closing_other.
    apply includes_suffix in Hblock.
    apply starts_with_fence_overlap. now apply includes_head.
  - intros prev pos. apply run_closing_fence.
  - discriminate.
Qed.

(** X27. [removeFrontmatter] leaves a document as it is when it does not
    start with the opening fence, and when the opening fence is followed by
    no closing fence. *)
Theorem without_frontmatter_unchanged : forall markdown,
  starts_with opening_fence markdown = false
  \/ (exists rest, markdown = opening_fence ++ rest
                   /\ includes rest fence_line = false) ->
  removeFrontmatter markdown = markdown.
Proof.
  intros markdown [Hopen | [rest [-> Hrest]]]; unfold removeFrontmatter.
  - assert (Hnone : Regex.run frontmatter_block None markdown 0 (0, 0)%nat
                    = None); [|now rewrite Hnone].
    unfold frontmatter_block, opening_fence in *. cbn [append] in Hopen.
    repeat (destruct markdown as [|x markdown]; [apply run_chr_end|];
            cbn [starts_with] in Hopen;
            match type of Hopen with
            | (Ascii.eqb ?c x && _)%bool = false =>
                destruct (Ascii.eqb c x) eqn:Hx;
                [apply Ascii.eqb_eq in Hx; subst x; rewrite run_chr;
                 cbn [andb] in Hopen
                |now apply run_chr_other]
            end).
    discriminate Hopen.
  - rewrite run_opening_fence. rewrite lazy_any_fails; [reflexivity|].
    intros a t -> prev pos. apply run_closing_other.
    apply includes_head. now apply includes_suffix in Hrest.
Qed.

Lemma plain_text_is_kept_witness :
  all_chars is_plain "  Hello world  " = true
  /\ MarkdownService.extractPlainText "  Hello world  " = "Hello world".
Proof.
  split; [reflexivity|].
  exact (proj1 (plain_text_is_kept "  Hello world  " eq_refl)).
Defined.

Lemma frontmatter_is_removed_witness :
  includes "title: Notes" fence_line = false
  /\ removeFrontmatter (with_frontmatter "title: Notes" "# Notes")
     = "# Notes".
Proof.
  split; [reflexivity|].
  apply (frontmatter_is_removed "title: Notes" "# Notes"). reflexivity.
Defined.

Lemma without_frontmatter_unchanged_witness :
  removeFrontmatter (opening_fence ++ "title: Notes")
  = opening_fence ++ "title: Notes".
Proof.
  apply without_frontmatter_unchanged. right.
  exists "title: Notes". split; reflexivity.
Defined.

(** *** Titles *)

Lemma greedy_takes : forall lo hi cls p g rest r block,
  all_chars cls block = true ->
  (lo <= String.length block)%nat ->
  match hi with
  | Some h => (String.length block <= h)%nat
  | None => True
  end ->
  match rest with
  | String c _ => cls c = false
  | EmptyString => True
  end ->
  forall prev pos,
    (forall prev',
       Regex.run p prev' rest (pos + String.length block) g = Some r) ->
    Regex.run (Regex.Rep false lo hi cls :: p) prev (block ++ rest) pos g
    = Some r.
Proof.
  intros lo hi cls p g rest r block Hblock Hlo Hhi Hstop prev pos Hrest.
  cbn [Regex.run].
  match goal with |- ?rep 0%nat prev _ pos = _ => set (step := rep) end.
  assert (Hgen : forall block k prev pos,
            all_chars cls block = true ->
            (lo <= k + String.length block)%nat ->
            match hi with
            | Some h => (k + String.length block <= h)%nat
            | None => True
            end ->
            (forall prev',
               Regex.run p prev' rest (pos + String.length block) g
               = Some r) ->
            step k prev (block ++ rest) pos = Some r).
  { clear block Hblock Hlo Hhi prev pos Hrest.
    induction block as [|c block IH]; intros k prev pos Hblock Hlo Hhi Hrest.
    - cbn [append String.length] in *. rewrite Nat.add_0_r in *.
      assert (Hk : Nat.leb lo k = true) by (apply Nat.leb_le; lia).
      subst step. destruct rest as [|x rest]; cbn.
      + now rewrite Hk, Hrest.
      + now rewrite Hstop, Hk, Hrest.
    - cbn [all_chars] in Hblock. apply andb_true_iff in Hblock.
      destruct Hblock as [Hc Hblock].
      cbn [append String.length] in *. unfold step at 1.
      rewrite Hc.
      assert (Hmay : Regex.may_repeat hi k = true).
      { destruct hi as [h|]; [|reflexivity]. cbn. apply Nat.ltb_lt. lia. }
      rewrite Hmay. cbn [andb]. fold step.
      rewrite (IH (S k) (Some c) (S pos)); try assumption.
      + reflexivity.
      + lia.
      + destruct hi; [lia | exact I].
      + intros prev'. rewrite <- (Hrest prev'). f_equal. lia. }
  apply Hgen; assumption.
Qed.

Lemma substring_skip : forall a n m s,
  substring (String.length a + n) m (a ++ s) = substring n m s.
Proof.
  induction a as [|c a IH]; intros n m s; [reflexivity|].
  cbn [String.length append Nat.add substring]. apply IH.
Qed.

Lemma substring_prefix : forall b c,
  substring 0 (String.length b) (b ++ c) = b.
Proof.
  induction b as [|x b IH]; intros c.
  - cbn. now destruct c.
  - cbn [String.length append substring]. now rewrite IH.
Qed.

Lemma first_group_here : forall p prev s n g,
  Regex.run p prev s 0 (0, 0)%nat = Some (n, g) ->
  first_group p prev s = Some (Regex.expand Regex.Group1 s g).
Proof.
  intros p prev s n g H. destruct s; cbn [first_group]; now rewrite H.
Qed.

Lemma first_group_blocked : forall ok p s prev,
  Exists (asks_outside ok) p ->
  all_chars ok s = true ->
  first_group p prev s = None.
Proof.
  intros ok p s prev Hex. revert prev.
  induction s as [|c s IH]; intros prev Hs; cbn [first_group];
    rewrite (run_blocked Hex) by exact Hs; [reflexivity|].
  cbn [all_chars] in Hs. apply andb_true_iff in Hs. now apply IH.
Qed.

Lemma space_is_no_hash : forall c,
  is_space c = true -> Ascii.eqb "#" c = false.
Proof.
  intros c Hc. destruct (Ascii.eqb "#" c) eqn:H; [|reflexivity].
  apply Ascii.eqb_eq in H. subst c. discriminate Hc.
Qed.

Lemma hashes_length : forall k, String.length (hashes k) = k.
Proof. induction k as [|k IH]; cbn; [reflexivity | now rewrite IH]. Qed.

Lemma hashes_all : forall k, all_chars (Ascii.eqb "#") (hashes k) = true.
Proof. induction k as [|k IH]; cbn; [reflexivity | exact IH]. Qed.

Lemma run_Bol_start : forall p prev s pos g,
  Regex.at_line_start prev = true ->
  Regex.run (Regex.Bol :: p) prev s pos g = Regex.run p prev s pos g.
Proof. intros p prev s pos g H. cbn [Regex.run]. now rewrite H. Qed.

Lemma run_Open : forall p prev s pos g,
  Regex.run (Regex.Open :: p) prev s pos g
  = Regex.run p prev s pos (pos, snd g).
Proof. reflexivity. Qed.

Lemma run_Close_Eol : forall prev s pos g,
  Regex.at_line_end s = true ->
  Regex.run [Regex.Close; Regex.Eol] prev s pos g = Some (pos, (fst g, pos)).
Proof. intros prev s pos g H. cbn [Regex.run]. now rewrite H. Qed.

Lemma heading_matches : forall k ws c t rest,
  (1 <= k <= 6)%nat ->
  is_empty ws = false ->
  all_chars is_space ws = true ->
  is_space c = false ->
  all_chars any_but_newline (String c t) = true ->
  Regex.at_line_end rest = true ->
  forall prev,
    Regex.at_line_start prev = true ->
    first_group heading prev (hashes k ++ ws ++ String c t ++ rest)
    = Some (String c t).
Proof.
  intros k ws c t rest Hk Hws Hspace Hc Htext Hend prev Hstart.
  set (a := (k + String.length ws)%nat).
  set (b := (a + String.length (String c t))%nat).
  rewrite first_group_here with (n := b) (g := (a, b)).
  - cbn [Regex.expand fst snd]. f_equal.
    replace (b - a)%nat with (String.length (String c t)) by (subst b; lia).
    replace a with (String.length (hashes k ++ ws) + 0)%nat
      by (rewrite length_append, hashes_length; subst a; lia).
    rewrite <- append_assoc_string, substring_skip.
    apply substring_prefix.
  - unfold heading. rewrite run_Bol_start by exact Hstart.
    unfold Regex.upto.
    apply greedy_takes.
    + apply hashes_all.
    + rewrite hashes_length. lia.
    + rewrite hashes_length. lia.
    + destruct ws as [|w ws]; [discriminate Hws|]. cbn [append].
      cbn [all_chars] in Hspace. apply andb_true_iff in Hspace.
      now apply space_is_no_hash.
    + intros prev1. rewrite hashes_length. unfold Regex.plus.
      apply greedy_takes.
      * exact Hspace.
      * destruct ws; [discriminate Hws | cbn; lia].
      * exact I.
      * cbn [append]. exact Hc.
      * intros prev2. rewrite run_Open. cbn [snd].
        change (0 + k + String.length ws)%nat with a.
        apply greedy_takes.
        -- exact Htext.
        -- cbn. lia.
        -- exact I.
        -- destruct rest as [|x rest]; [exact I|].
           unfold any_but_newline. cbn [Regex.at_line_end] in Hend.
           now rewrite Hend.
        -- intros prev3. now rewrite run_Close_Eol.
Qed.

Lemma heading_needs_hash : forall prev x s pos g,
  Ascii.eqb "#" x = false ->
  Regex.run heading prev (String x s) pos g = None.
Proof.
  intros prev x s pos g Hx. unfold heading, Regex.upto.
  cbn [Regex.run]. destruct (Regex.at_line_start prev); [|reflexivity].
  now rewrite Hx.
Qed.

Lemma first_group_intro : forall intro prev s,
  all_chars (Regex.other_than "#") intro = true ->
  first_group heading prev (intro ++ String MarkdownService.newline s)
  = first_group heading (Some MarkdownService.newline) s.
Proof.
  induction intro as [|x intro IH]; intros prev s Hintro.
  - cbn [append first_group]. now rewrite heading_needs_hash.
  - cbn [all_chars] in Hintro. apply andb_true_iff in Hintro.
    destruct Hintro as [Hx Hintro]. unfold Regex.other_than in Hx.
    apply negb_true_iff in Hx.
    cbn [append first_group]. rewrite heading_needs_hash by exact Hx.
    now apply IH.
Qed.

(** X29. [extractTitle] returns the text of the first heading, trimmed:
    for a document in which a heading line (one to six hashes, white space,
    a text that starts with no white space and holds no line terminator, a
    line end) comes first or after lines that hold no hash. *)
Theorem first_heading_is_the_title : forall lead k ws c t rest,
  lead = EmptyString
  \/ (exists intro, lead = intro ++ String MarkdownService.newline EmptyString) ->
  all_chars (Regex.other_than "#") lead = true ->
  (1 <= k <= 6)%nat ->
  is_empty ws = false ->
  all_chars is_space ws = true ->
  is_space c = false ->
  all_chars any_but_newline (String c t) = true ->
  Regex.at_line_end rest = true ->
  extractTitle (lead ++ hashes k ++ ws ++ String c t ++ rest)
  = trim (String c t).
Proof.
  intros lead k ws c t rest Hlead Hno Hk Hws Hspace Hc Htext Hend.
  unfold extractTitle.
  assert (Hfound : first_group heading None
                     (lead ++ hashes k ++ ws ++ String c t ++ rest)
                   = Some (String c t)).
  { destruct Hlead as [-> | [intro ->]].
    - cbn [append]. now apply heading_matches.
    - assert (Hintro : all_chars (Regex.other_than "#") intro = true).
      { clear - Hno. induction intro as [|x intro IH]; [reflexivity|].
        cbn [append all_chars] in *. apply andb_true_iff in Hno.
        destruct Hno as [Hx Hno]. now rewrite Hx, IH. }
      rewrite append_assoc_string. cbn [append].
      rewrite first_group_intro by exact Hintro.
      now apply heading_matches. }
  rewrite Hfound.
  destruct lead as [|x lead]; [|reflexivity].
  destruct k as [|k]; [lia | reflexivity].
Qed.

Lemma all_chars_trim_start : forall p s,
  all_chars p s = true -> all_chars p (trim_start s) = true.
Proof.
  intros p. induction s as [|c s IH]; intros H; [reflexivity|].
  cbn [trim_start]. destruct (is_space c); [|exact H].
  cbn [all_chars] in H. apply andb_true_iff in H. now apply IH.
Qed.

Lemma all_chars_trim_end : forall p s,
  all_chars p s = true -> all_chars p (trim_end s) = true.
Proof.
  intros p. induction s as [|c s IH]; intros H; [reflexivity|].
  cbn [all_chars] in H. apply andb_true_iff in H. destruct H as [Hc H].
  cbn [trim_end]. cbv zeta.
  destruct (is_space c && is_empty (trim_end s))%bool; [reflexivity|].
  cbn [all_chars]. now rewrite Hc, IH.
Qed.

Lemma all_chars_trim : forall p s,
  all_chars p s = true -> all_chars p (trim s) = true.
Proof.
  intros p s H. unfold trim. now apply all_chars_trim_end, all_chars_trim_start.
Qed.

Lemma split_on_none : forall sep s,
  all_chars (fun c => negb (Ascii.eqb c sep)) s = true ->
  split_on sep s = [s].
Proof.
  intros sep. induction s as [|c s IH]; intros H; [reflexivity|].
  cbn [all_chars] in H. apply andb_true_iff in H. destruct H as [Hc H].
  apply negb_true_iff in Hc. cbn [split_on]. now rewrite Hc, IH.
Qed.

Lemma all_chars_weaken : forall (p q : ascii -> bool) s,
  (forall c, p c = true -> q c = true) ->
  all_chars p s = true -> all_chars q s = true.
Proof.
  intros p q s Hpq. induction s as [|c s IH]; intros H; [reflexivity|].
  cbn [all_chars] in *. apply andb_true_iff in H. destruct H as [Hc H].
  now rewrite (Hpq c Hc), IH.
Qed.

Lemma heading_outside : Exists (asks_outside is_plain) heading.
Proof.
  apply Exists_cons_tl, Exists_cons_hd. cbn [asks_outside]. intros c Hc.
  apply is_plain_outside in Hc. apply Hc.
Qed.

(** X30. A document of one line that holds no code unit of a markdown
    construct and is not blank is its own title: [extractTitle] returns the
    line, trimmed and cut at 100 code units. *)
Theorem plain_line_is_its_title : forall line,
  all_chars is_plain line = true ->
  is_empty (trim line) = false ->
  extractTitle line = substring 0 100 (trim line)
  /\ len (extractTitle line) <= 100.
Proof.
  intros line Hplain Hsome.
  assert (Htitle : extractTitle line = substring 0 100 (trim line)).
  { unfold extractTitle.
    destruct (is_empty line) eqn:Hline;
      [destruct line; [discriminate Hsome | discriminate Hline]|].
    rewrite (@first_group_blocked is_plain heading line None heading_outside Hplain).
    rewrite split_on_none.
    - pose proof (all_chars_trim _ _ Hplain) as Htrim.
      assert (Hline' : title_line line = true).
      { unfold title_line. cbv zeta. rewrite Hsome.
        destruct (trim line) as [|c r]; [discriminate Hsome|].
        cbn [all_chars] in Htrim. apply andb_true_iff in Htrim.
        destruct Htrim as [Hc _]. apply is_plain_outside in Hc.
        destruct Hc as [Hb [_ [Hh _]]].
        cbn [starts_with negb andb]. unfold MarkdownService.backtick in Hb.
        now rewrite Hh, Hb. }
      cbn [find]. rewrite Hline'.
      now rewrite extractPlainText_plain, trim_idempotent.
    - revert Hplain. apply all_chars_weaken. intros c Hc.
      apply is_plain_outside in Hc.
      destruct Hc as [_ [_ [_ [_ [_ [_ [_ [_ Hn]]]]]]]].
      now rewrite Ascii.eqb_sym, Hn. }
  split; [exact Htitle|]. rewrite Htitle. unfold len.
  pose proof (substring_length_le (trim line) 0 100). lia.
Qed.

Lemma first_heading_is_the_title_witness :
  extractTitle
    ("notes" ++ String MarkdownService.newline
                  ("## Title  " ++ String MarkdownService.newline "body"))
  = "Title".
Proof.
  change (extractTitle
            (("notes" ++ String MarkdownService.newline EmptyString)
             ++ hashes 2 ++ " " ++ String "T" "itle  "
             ++ String MarkdownService.newline "body")
          = trim (String "T" "itle  ")).
  apply first_heading_is_the_title;
    [right; now exists "notes" | reflexivity | lia | reflexivity
    | reflexivity | reflexivity | reflexivity | reflexivity].
Defined.

Lemma plain_line_is_its_title_witness :
  extractTitle " Shopping list " = "Shopping list".
Proof.
  apply (proj1 (plain_line_is_its_title " Shopping list " eq_refl eq_refl)).
Defined.
